(** * Step tracker: the ordered store and the membership logic of main.cpp

    A shallow embedding of [src/main.cpp]: the classes [Individual] and
    [Group], the sorted-vector container [ConceptualBPlusTree] and the
    operations of [StepTrackerApp] that create, merge and delete groups and
    rank individuals.

    Conventions of the embedding.
    - C++ [int] and [long long] values are [Z].  The sum that
      [check_individual_rewards] leaves in the [int] member [points] wraps
      around in 32 bits ([wrap_int]).  The totals of step counts are
      [long long] sums of [int]s and are read without overflow.
    - [std::string] is [string]; [operator<] on strings is the lexicographic
      order on unsigned characters, [String.ltb].
    - [std::vector<T>] is [list T]; an iterator or a pointer into a vector is
      the position ([nat]) of the element it designates.
    - A member function that may write to the trees takes the state and
      returns its result together with the state it leaves.
    - [std::lower_bound] is the bisection loop of the library.  [std::sort]
      on integers is a function of its input; with a comparison lambda it is
      a parameter constrained by what the standard promises, and the
      algorithm of GNU libstdc++ is given as one instance.
    - Console output is not part of the state.  A CSV file is the text it
      holds ([Files.disk]); the operations are given without the call of
      [_save_data] that ends them, which only reads the two trees. *)

From Stdlib Require Import String Ascii.
From Stdlib Require Import List NArith ZArith Bool Arith Lia.
From Stdlib Require Import Permutation Sorted.
Import ListNotations.

Local Open Scope Z_scope.
Local Open Scope list_scope.

Set Implicit Arguments.

(* ================================================================= *)
(** ** Vectors: positional update *)

(** In-place update through a pointer that designates position [i] of a
    vector: the element there becomes [f] of itself. *)
Fixpoint update_at {A : Type} (i : nat) (f : A -> A) (l : list A) : list A :=
  match l, i with
  | [], _ => []
  | x :: t, O => f x :: t
  | x :: t, S j => x :: update_at j f t
  end.

(* ================================================================= *)
(** ** [std::lower_bound]

    The bisection of the standard library on a random-access range:
    [len] halves at every turn, [first] moves past the middle element when
    the middle element is "less than the value".  [less obj] stands for the
    comparison lambda applied to [obj] and the searched key.  The loop runs
    at most [len] times, so [length data] is fuel enough. *)

Section LowerBound.
Context {T : Type}.
Variable less : T -> bool.
Variable data : list T.

Fixpoint lower_bound_loop (fuel first len : nat) : nat :=
  match fuel with
  | O => first
  | S fuel' =>
      match len with
      | O => first
      | S _ =>
          let half := Nat.div2 len in
          match nth_error data (first + half) with
          | Some obj =>
              if less obj
              then lower_bound_loop fuel' (first + half + 1) (len - half - 1)
              else lower_bound_loop fuel' first half
          | None => first
          end
      end
  end.

Definition lower_bound : nat :=
  lower_bound_loop (length data) 0 (length data).
End LowerBound.

(* ================================================================= *)
(** ** [ConceptualBPlusTree<T, KeyType, Compare>] *)

Module ConceptualBPlusTree.
Section Tree.
Context {T KeyType : Type}.
(** [comp]: the comparator; [key_eqb]: [operator==] on keys (used by
[remove] only); [key_extractor]: the extractor given to the
constructor. *)
Variable comp : KeyType -> KeyType -> bool.
Variable key_eqb : KeyType -> KeyType -> bool.
Variable key_extractor : T -> KeyType.

(** The test [!comp(a, b) && !comp(b, a)] of [insert] and [search]. *)
Definition equiv_keys (a b : KeyType) : bool :=
negb (comp a b) && negb (comp b a).

Definition find_insert_pos (data : list T) (key : KeyType) : nat :=
lower_bound (fun obj => comp (key_extractor obj) key) data.

(** [data.insert(it, item)] *)
Definition vector_insert (it : nat) (item : T) (data : list T) : list T :=
firstn it data ++ item :: skipn it data.

Definition insert (data : list T) (item : T) : list T :=
let item_key := key_extractor item in
let it := find_insert_pos data item_key in
match nth_error data it with
| Some x =>
  if equiv_keys item_key (key_extractor x) then data
  else vector_insert it item data
| None => vector_insert it item data
end.

(** [remove_if] followed by [erase]: the elements whose key is [== key]
go, the others keep their order; the result tells whether one went. *)
Definition remove (data : list T) (key : KeyType) : bool * list T :=
let kept := filter (fun obj => negb (key_eqb (key_extractor obj) key)) data in
if (length kept <? length data)%nat then (true, kept) else (false, data).

(** [search] returns a pointer to the element, here its position. *)
Definition search (data : list T) (key : KeyType) : option nat :=
let it := find_insert_pos data key in
match nth_error data it with
| Some x => if equiv_keys key (key_extractor x) then Some it else None
| None => None
end.

(** [getRange(start_key, end_key)] *)
Fixpoint range_scan (end_key : KeyType) (l : list T) : list T :=
match l with
| [] => []
| x :: t =>
  if comp end_key (key_extractor x) && negb (comp (key_extractor x) end_key)
  then []
  else x :: range_scan end_key t
end.

Definition getRange (data : list T) (start_key end_key : KeyType) : list T :=
range_scan end_key (skipn (find_insert_pos data start_key) data).

Definition size (data : list T) : nat := length data.

(** The class invariant: [data] is strictly increasing by key. *)
Definition sorted_by_key (data : list T) : Prop :=
StronglySorted (fun a b => comp (key_extractor a) (key_extractor b) = true) data.
End Tree.
End ConceptualBPlusTree.

(* ================================================================= *)
(** ** Integer vectors and [std::set<int>] *)

(** [v.empty()] and [v.back()] on a vector of step counts. *)
Definition back (v : list Z) : Z := last v 0.

Definition string_empty (s : string) : bool :=
  match s with
  | EmptyString => true
  | String _ _ => false
  end.

(** [std::sort] on a [vector<int>] with the default [<]: equal integers are
    indistinguishable, so every sorting algorithm returns this list. *)
Fixpoint sorted_insert (x : Z) (l : list Z) : list Z :=
  match l with
  | [] => [x]
  | y :: t => if x <=? y then x :: l else y :: sorted_insert x t
  end.

Definition sort_ints (l : list Z) : list Z := fold_right sorted_insert [] l.

(** [std::unique] followed by [erase]: of every run of equal consecutive
    elements the first one stays. *)
Fixpoint unique_from (prev : Z) (l : list Z) : list Z :=
  match l with
  | [] => []
  | x :: t => if prev =? x then unique_from prev t else x :: unique_from x t
  end.

Definition unique (l : list Z) : list Z :=
  match l with
  | [] => []
  | x :: t => x :: unique_from x t
  end.

(** [std::remove(v.begin(), v.end(), x)] followed by [erase]. *)
Definition vector_remove (x : Z) (v : list Z) : list Z :=
  filter (fun y => negb (y =? x)) v.

(** [std::set<int>] as its in-order sequence; [set_insert] is [set::insert]. *)
Fixpoint set_insert (x : Z) (s : list Z) : list Z :=
  match s with
  | [] => [x]
  | y :: t =>
      if x <? y then x :: s
      else if y <? x then y :: set_insert x t
      else s
  end.

(* ================================================================= *)
(** ** The data model *)

(** An [int] has 32 bits.  A sum that leaves the range of [int] comes back
    into it by wrapping around, in two's complement: this is what the
    addition of the compiled program leaves in the variable. *)
Definition wrap_int (z : Z) : Z :=
  (z + 2147483648) mod 4294967296 - 2147483648.

Module Individual.
Record t : Type := mk {
  id : Z;
  name : string;
  age : Z;
  daily_step_goal : Z;
  weekly_step_count : list Z;
  current_group_id : string;
  points : Z
}.

(** The constructor of the class: no group, no points. *)
Definition new (id : Z) (name : string) (age daily_step_goal : Z)
    (weekly_step_count : list Z) : t :=
  mk id name age daily_step_goal weekly_step_count EmptyString 0.

Definition set_current_group_id (g : string) (i : t) : t :=
  mk (id i) (name i) (age i) (daily_step_goal i) (weekly_step_count i) g (points i).

(** [points += p] on the [int] member. *)
Definition add_points (p : Z) (i : t) : t :=
  mk (id i) (name i) (age i) (daily_step_goal i) (weekly_step_count i)
     (current_group_id i) (wrap_int (points i + p)).
End Individual.

Module Group.
Record t : Type := mk {
  group_id : string;
  group_name : string;
  member_ids : list Z;
  weekly_group_goal : Z;
  total_weekly_steps : Z
}.

Definition MAX_MEMBERS : nat := 5.

(** The constructor sorts the member ids and drops the duplicates. *)
Definition new (group_id group_name : string) (member_ids : list Z)
    (weekly_group_goal : Z) : t :=
  mk group_id group_name (unique (sort_ints member_ids)) weekly_group_goal 0.

Definition set_member_ids (m : list Z) (g : t) : t :=
  mk (group_id g) (group_name g) m (weekly_group_goal g) (total_weekly_steps g).

Definition set_total_weekly_steps (s : Z) (g : t) : t :=
  mk (group_id g) (group_name g) (member_ids g) (weekly_group_goal g) s.
End Group.

(* ================================================================= *)
(** ** [std::sort] with a caller-supplied comparator

    The program sorts pointers with [std::sort] and a comparison lambda.
    The standard fixes the result only up to the order of equivalent
    elements, so the algorithm is a parameter of the operations that sort. *)

Definition sort_algorithm : Type :=
  forall A : Type, (A -> A -> bool) -> list A -> list A.

(** The requirement [Compare] of the standard library: irreflexive,
    transitive, and with a transitive incomparability. *)
Definition strict_weak_order {A : Type} (comp : A -> A -> bool) : Prop :=
  (forall a, comp a a = false) /\
  (forall a b c, comp a b = true -> comp b c = true -> comp a c = true) /\
  (forall a b c, comp a c = true -> comp a b = true \/ comp b c = true).

(** Sorted with respect to [comp]: no element is less than one before it. *)
Definition sorted_under {A : Type} (comp : A -> A -> bool) (l : list A) : Prop :=
  StronglySorted (fun a b => comp b a = false) l.

(** What the standard promises of [std::sort(first, last, comp)] when [comp]
    is a strict weak ordering: the range is rearranged and comes out sorted
    with respect to [comp]; the order of equivalent elements is not
    promised.  The second part says that the algorithm is a function of the
    range and of the outcomes of the comparisons between its elements. *)
Definition std_sort_contract (sort : sort_algorithm) : Prop :=
  (forall A (comp : A -> A -> bool) l,
      strict_weak_order comp ->
      Permutation l (sort A comp l) /\ sorted_under comp (sort A comp l)) /\
  (forall A (c1 c2 : A -> A -> bool) l,
      (forall a b, In a l -> In b l -> c1 a b = c2 a b) ->
      sort A c1 l = sort A c2 l).

(* ================================================================= *)
(** ** [std::sort] as GNU libstdc++ implements it

    The algorithm of [bits/stl_algo.h] and [bits/stl_heap.h]: an introsort
    loop (median-of-three quicksort down to ranges of 16 elements, heap sort
    when the depth limit [2 * lg n] is used up) followed by a final
    insertion sort.  The functions keep the names of the library without
    the leading underscores.  A range is a vector with two positions
    [first] and [last]; [d] fills the reads outside the vector, which a
    strict weak ordering never causes; the unguarded loops carry fuel that
    they cannot use up within the vector.  On the vectors it was run on,
    ties and heap-sort cases among them, the model returns what
    [std::sort] of GCC 12 returns. *)

Module Libstdcxx.
Local Open Scope nat_scope.
Section Sort.
Context {A : Type}.
Variable comp : A -> A -> bool.
Variable d : A.

(** [*(v + i)] and [*(v + i) = x]. *)
Definition get (v : list A) (i : nat) : A := nth i v d.
Definition put (v : list A) (i : nat) (x : A) : list A := update_at i (fun _ => x) v.
Definition iter_swap (v : list A) (i j : nat) : list A :=
  put (put v i (get v j)) j (get v i).

Definition move_median_to_first (v : list A) (result a b c : nat) : list A :=
  if comp (get v a) (get v b) then
    if comp (get v b) (get v c) then iter_swap v result b
    else if comp (get v a) (get v c) then iter_swap v result c
    else iter_swap v result a
  else if comp (get v a) (get v c) then iter_swap v result a
  else if comp (get v b) (get v c) then iter_swap v result c
  else iter_swap v result b.

(** The two inner loops of [__unguarded_partition]. *)
Fixpoint scan_up (fuel : nat) (v : list A) (first pivot : nat) : nat :=
  match fuel with
  | O => first
  | S fuel' =>
      if comp (get v first) (get v pivot) then scan_up fuel' v (S first) pivot
      else first
  end.

Fixpoint scan_down (fuel : nat) (v : list A) (last pivot : nat) : nat :=
  match fuel with
  | O => last
  | S fuel' =>
      if comp (get v pivot) (get v last) then scan_down fuel' v (pred last) pivot
      else last
  end.

Fixpoint unguarded_partition (fuel : nat) (v : list A) (first last pivot : nat)
  : nat * list A :=
  match fuel with
  | O => (first, v)
  | S fuel' =>
      let first := scan_up (S (length v)) v first pivot in
      let last := scan_down (S (length v)) v (pred last) pivot in
      if first <? last
      then unguarded_partition fuel' (iter_swap v first last) (S first) last pivot
      else (first, v)
  end.

Definition unguarded_partition_pivot (v : list A) (first last : nat) : nat * list A :=
  let mid := first + (last - first) / 2 in
  let v1 := move_median_to_first v first (first + 1) mid (last - 1) in
  unguarded_partition (length v) v1 (first + 1) last first.

(** The loop of [__adjust_heap] that moves the hole down. *)
Fixpoint sift_down (fuel : nat) (v : list A) (first hole second len : nat)
  : list A * nat * nat :=
  match fuel with
  | O => (v, hole, second)
  | S fuel' =>
      if second <? (len - 1) / 2 then
        let second1 := 2 * (second + 1) in
        let second2 :=
          if comp (get v (first + second1)) (get v (first + (second1 - 1)))
          then second1 - 1 else second1 in
        sift_down fuel' (put v (first + hole) (get v (first + second2)))
          first second2 second2 len
      else (v, hole, second)
  end.

(** [__push_heap]: the hole moves up while the parent is less than the value. *)
Fixpoint push_heap (fuel : nat) (v : list A) (first hole top : nat) (value : A)
  : list A :=
  match fuel with
  | O => put v (first + hole) value
  | S fuel' =>
      let parent := (hole - 1) / 2 in
      if (top <? hole) && comp (get v (first + parent)) value
      then push_heap fuel' (put v (first + hole) (get v (first + parent)))
             first parent top value
      else put v (first + hole) value
  end.

Definition adjust_heap (v : list A) (first hole len : nat) (value : A) : list A :=
  let '(v1, hole1, second1) := sift_down len v first hole hole len in
  if Nat.even len && (second1 =? (len - 2) / 2) then
    let second2 := 2 * (second1 + 1) in
    push_heap len (put v1 (first + hole1) (get v1 (first + (second2 - 1))))
      first (second2 - 1) hole value
  else push_heap len v1 first hole1 hole value.

(** [__make_heap], from the last parent down to the root. *)
Fixpoint make_heap_from (parent : nat) (v : list A) (first len : nat) : list A :=
  let v1 := adjust_heap v first parent len (get v (first + parent)) in
  match parent with
  | O => v1
  | S parent' => make_heap_from parent' v1 first len
  end.

Definition make_heap (v : list A) (first last : nat) : list A :=
  if last - first <? 2 then v
  else make_heap_from ((last - first - 2) / 2) v first (last - first).

(** [__sort_heap]: [__pop_heap] on ever shorter ranges; [len] is [last - first]. *)
Fixpoint sort_heap (len : nat) (v : list A) (first : nat) : list A :=
  match len with
  | O => v
  | S len' =>
      match len' with
      | O => v
      | S _ =>
          let value := get v (first + len') in
          let v1 := put v (first + len') (get v first) in
          sort_heap len' (adjust_heap v1 first 0 len' value) first
      end
  end.

(** [__partial_sort(first, last, last)]: [__heap_select] has nothing to select. *)
Definition partial_sort (v : list A) (first last : nat) : list A :=
  sort_heap (last - first) (make_heap v first last) first.

(** [__introsort_loop]: the recursive call and the next turn of the loop
    both go on with the decremented depth limit. *)
Fixpoint introsort_loop (depth_limit : nat) (v : list A) (first last : nat) : list A :=
  match depth_limit with
  | O => if 16 <? last - first then partial_sort v first last else v
  | S depth_limit' =>
      if 16 <? last - first then
        let (cut, v1) := unguarded_partition_pivot v first last in
        let v2 := introsort_loop depth_limit' v1 cut last in
        introsort_loop depth_limit' v2 first cut
      else v
  end.

(** [__unguarded_linear_insert], with [val] the element taken out at [last]. *)
Fixpoint unguarded_linear_insert (fuel : nat) (v : list A) (last : nat) (val : A)
  : list A :=
  match fuel with
  | O => put v last val
  | S fuel' =>
      if comp val (get v (last - 1))
      then unguarded_linear_insert fuel' (put v last (get v (last - 1))) (last - 1) val
      else put v last val
  end.

(** [std::move_backward(first, i, i + 1)] and [*first = val]. *)
Definition move_to_front (v : list A) (first i : nat) : list A :=
  firstn first v ++ get v i :: firstn (i - first) (skipn first v) ++ skipn (S i) v.

Fixpoint insertion_sort_from (count : nat) (v : list A) (first i : nat) : list A :=
  match count with
  | O => v
  | S count' =>
      let v1 :=
        if comp (get v i) (get v first) then move_to_front v first i
        else unguarded_linear_insert (length v) v i (get v i) in
      insertion_sort_from count' v1 first (S i)
  end.

Definition insertion_sort (v : list A) (first last : nat) : list A :=
  if first =? last then v
  else insertion_sort_from (last - first - 1) v first (first + 1).

Fixpoint unguarded_insertion_sort (count : nat) (v : list A) (i : nat) : list A :=
  match count with
  | O => v
  | S count' =>
      unguarded_insertion_sort count'
        (unguarded_linear_insert (length v) v i (get v i)) (S i)
  end.

Definition final_insertion_sort (v : list A) (first last : nat) : list A :=
  if 16 <? last - first then
    unguarded_insertion_sort (last - (first + 16))
      (insertion_sort v first (first + 16)) (first + 16)
  else insertion_sort v first last.

(** [__sort]. *)
Definition sort_range (v : list A) (first last : nat) : list A :=
  if first =? last then v
  else
    final_insertion_sort
      (introsort_loop (Nat.log2 (last - first) * 2) v first last) first last.
End Sort.

(** The algorithm on a whole vector. *)
Definition sort (A : Type) (comp : A -> A -> bool) (l : list A) : list A :=
  match l with
  | [] => []
  | d :: _ => sort_range comp d l 0 (length l)
  end.

Arguments sort A comp l : clear implicits.
End Libstdcxx.

(* ================================================================= *)
(** ** [StepTrackerApp] *)

Module StepTrackerApp.
Module T := ConceptualBPlusTree.

(** The two trees; the members [individuals_file] and [groups_file] only
    name the CSV files. *)
Record t : Type := mk {
  individuals_tree : list Individual.t;
  groups_tree : list Group.t
}.

(** [individuals_tree] is keyed by [id] under [less<int>], [groups_tree]
    by [group_id] under [less<string>]. *)
Definition ind_search : list Individual.t -> Z -> option nat :=
  T.search Z.ltb Individual.id.
Definition ind_insert : list Individual.t -> Individual.t -> list Individual.t :=
  T.insert Z.ltb Individual.id.
Definition ind_remove : list Individual.t -> Z -> bool * list Individual.t :=
  T.remove Z.eqb Individual.id.
Definition grp_search : list Group.t -> string -> option nat :=
  T.search String.ltb Group.group_id.
Definition grp_insert : list Group.t -> Group.t -> list Group.t :=
  T.insert String.ltb Group.group_id.
Definition grp_remove : list Group.t -> string -> bool * list Group.t :=
  T.remove String.eqb Group.group_id.

(** A pointer obtained from [search], together with the object it points
    to at that moment. *)
Definition find_individual (inds : list Individual.t) (id : Z)
  : option (nat * Individual.t) :=
  match ind_search inds id with
  | Some p => option_map (pair p) (nth_error inds p)
  | None => None
  end.

Definition find_group (grps : list Group.t) (gid : string)
  : option (nat * Group.t) :=
  match grp_search grps gid with
  | Some p => option_map (pair p) (nth_error grps p)
  | None => None
  end.

(** *** add_person *)
Definition add_person (id : Z) (name : string) (age daily_step_goal : Z)
    (weekly_step_count : list Z) (app : t) : bool * t :=
  match ind_search (individuals_tree app) id with
  | Some _ => (false, app)
  | None =>
      (true,
       mk (ind_insert (individuals_tree app)
             (Individual.new id name age daily_step_goal weekly_step_count))
          (groups_tree app))
  end.

(** The loop [individual->current_group_id = g] over a list of member
    ids, each found again by [search]. *)
Definition assign_group (g : string) (inds : list Individual.t) (mid : Z)
  : list Individual.t :=
  match ind_search inds mid with
  | Some p => update_at p (Individual.set_current_group_id g) inds
  | None => inds
  end.

Definition assign_group_all (g : string) (mids : list Z)
    (inds : list Individual.t) : list Individual.t :=
  fold_left (assign_group g) mids inds.

(** *** create_group

    The function returns [bool]; the result type keeps apart the four
    places it returns from, each of which prints its own message. *)
Inductive create_group_result : Type :=
| GroupCreated
| GroupAlreadyExists
| TooManyMembers
| NoValidMembers.

Definition create_group_returns (r : create_group_result) : bool :=
  match r with GroupCreated => true | _ => false end.

(** The test of the first loop: found, and not yet in a group. *)
Definition valid_candidate (inds : list Individual.t) (mid : Z) : bool :=
  match find_individual inds mid with
  | None => false
  | Some (_, individual) => string_empty (Individual.current_group_id individual)
  end.

Definition create_group (group_id group_name : string) (member_ids : list Z)
    (weekly_group_goal : Z) (app : t) : create_group_result * t :=
  match grp_search (groups_tree app) group_id with
  | Some _ => (GroupAlreadyExists, app)
  | None =>
      if (Group.MAX_MEMBERS <? length member_ids)%nat then (TooManyMembers, app)
      else
        let actual_member_ids :=
          filter (valid_candidate (individuals_tree app)) member_ids in
        match actual_member_ids with
        | [] => (NoValidMembers, app)
        | _ :: _ =>
            (GroupCreated,
             mk (assign_group_all group_id actual_member_ids (individuals_tree app))
                (grp_insert (groups_tree app)
                   (Group.new group_id group_name actual_member_ids weekly_group_goal)))
        end
  end.

(** *** get_top_3 *)

(** Pointers to the elements of a vector that pass a test, in the order
    of the vector. *)
Fixpoint pointers_where {A : Type} (test : A -> bool) (pos : nat) (l : list A)
  : list nat :=
  match l with
  | [] => []
  | x :: rest =>
      if test x then pos :: pointers_where test (S pos) rest
      else pointers_where test (S pos) rest
  end.

Definition met_daily_goal (individual : Individual.t) : bool :=
  match Individual.weekly_step_count individual with
  | [] => false
  | _ :: _ =>
      Individual.daily_step_goal individual
        <=? back (Individual.weekly_step_count individual)
  end.

Definition eligible_individuals (app : t) : list nat :=
  pointers_where met_daily_goal 0%nat (individuals_tree app).

(** [p->weekly_step_count.back()] *)
Definition current_day_steps (inds : list Individual.t) (p : nat) : Z :=
  match nth_error inds p with
  | Some individual => back (Individual.weekly_step_count individual)
  | None => 0
  end.

(** The comparison lambda of the sort. *)
Definition more_steps_today (inds : list Individual.t) (a b : nat) : bool :=
  current_day_steps inds b <? current_day_steps inds a.

Definition get_top_3 (sort : sort_algorithm) (app : t) : list nat * t :=
  let sorted :=
    sort nat (more_steps_today (individuals_tree app)) (eligible_individuals app) in
  match sorted with
  | [] => ([], app)
  | _ :: _ => (firstn (Nat.min 3 (length sorted)) sorted, app)
  end.

(** *** check_group_achievement and generate_leader_board *)

(** The two nested loops that add up the steps of the members of a group. *)
Definition add_member_steps (inds : list Individual.t) (total : Z) (member_id : Z) : Z :=
  match find_individual inds member_id with
  | Some (_, individual) =>
      fold_left Z.add (Individual.weekly_step_count individual) total
  | None => total
  end.

Definition total_group_steps (inds : list Individual.t) (group : Group.t) : Z :=
  fold_left (add_member_steps inds) (Group.member_ids group) 0.

Definition check_group_achievement (group_id : string) (app : t) : bool * t :=
  match find_group (groups_tree app) group_id with
  | None => (false, app)
  | Some (p, group) =>
      let total := total_group_steps (individuals_tree app) group in
      (Group.weekly_group_goal group <=? total,
       mk (individuals_tree app)
          (update_at p (Group.set_total_weekly_steps total) (groups_tree app)))
  end.

Definition groups_with_steps (app : t) : list (nat * Z) :=
  combine (seq 0 (length (groups_tree app)))
          (map (total_group_steps (individuals_tree app)) (groups_tree app)).

(** The function is [void]; the ranking it prints is the result here. *)
Definition generate_leader_board (sort : sort_algorithm) (app : t)
  : list (nat * Z) * t :=
  (sort (nat * Z)%type (fun a b => snd b <? snd a) (groups_with_steps app), app).

(** *** check_individual_rewards *)

(** [rewards_map[rank]]; [operator[]] yields [0] for a key not in the map. *)
Definition rewards_map (rank : nat) : Z :=
  match rank with
  | 0%nat => 100
  | 1%nat => 75
  | 2%nat => 50
  | _ => 0
  end.

Fixpoint find_rank (inds : list Individual.t) (individual_id : Z)
    (top : list nat) (i : nat) : option nat :=
  match top with
  | [] => None
  | p :: rest =>
      match nth_error inds p with
      | Some individual =>
          if Individual.id individual =? individual_id then Some i
          else find_rank inds individual_id rest (S i)
      | None => find_rank inds individual_id rest (S i)
      end
  end.

Definition check_individual_rewards (sort : sort_algorithm) (individual_id : Z)
    (app : t) : t :=
  match ind_search (individuals_tree app) individual_id with
  | None => app
  | Some p =>
      let (top_3_individuals, app1) := get_top_3 sort app in
      match find_rank (individuals_tree app1) individual_id top_3_individuals 0 with
      | Some found_rank =>
          mk (update_at p (Individual.add_points (rewards_map found_rank))
                (individuals_tree app1))
             (groups_tree app1)
      | None => app1
      end
  end.

(** *** delete_individual *)
Definition leave_group (individual_id : Z) (individual : Individual.t)
    (grps : list Group.t) : list Group.t :=
  if string_empty (Individual.current_group_id individual) then grps
  else
    match grp_search grps (Individual.current_group_id individual) with
    | Some g =>
        update_at g
          (fun group =>
             Group.set_member_ids
               (vector_remove individual_id (Group.member_ids group)) group)
          grps
    | None => grps
    end.

Definition delete_individual (individual_id : Z) (app : t) : bool * t :=
  match find_individual (individuals_tree app) individual_id with
  | None => (false, app)
  | Some (_, individual) =>
      let grps := leave_group individual_id individual (groups_tree app) in
      let (removed, inds) := ind_remove (individuals_tree app) individual_id in
      (removed, mk inds grps)
  end.

(** *** delete_group *)
Definition delete_group (group_id : string) (app : t) : bool * t :=
  match find_group (groups_tree app) group_id with
  | None => (false, app)
  | Some (_, group) =>
      let inds :=
        assign_group_all EmptyString (Group.member_ids group) (individuals_tree app) in
      let (removed, grps) := grp_remove (groups_tree app) group_id in
      (removed, mk inds grps)
  end.

(** *** merge_groups *)
Inductive merge_groups_result : Type :=
| Merged
| FirstGroupNotFound
| SecondGroupNotFound
| MergeTooManyMembers
| CouldNotDeleteFirst
| CouldNotDeleteSecond.

Definition merge_groups_returns (r : merge_groups_result) : bool :=
  match r with Merged => true | _ => false end.

Definition merged_member_set (group1 group2 : Group.t) : list Z :=
  fold_left (fun s id => set_insert id s) (Group.member_ids group2)
    (fold_left (fun s id => set_insert id s) (Group.member_ids group1) []).

Definition merge_groups (group_id_1 group_id_2 new_group_name : string)
    (new_weekly_goal : Z) (app : t) : merge_groups_result * t :=
  match find_group (groups_tree app) group_id_1,
        find_group (groups_tree app) group_id_2 with
  | None, _ => (FirstGroupNotFound, app)
  | Some _, None => (SecondGroupNotFound, app)
  | Some (_, group1), Some (_, group2) =>
      let merged_member_ids := merged_member_set group1 group2 in
      if (Group.MAX_MEMBERS <? length merged_member_ids)%nat
      then (MergeTooManyMembers, app)
      else
        let (deleted1, app1) := delete_group group_id_1 app in
        if negb deleted1 then (CouldNotDeleteFirst, app1)
        else
          let (deleted2, app2) := delete_group group_id_2 app1 in
          if negb deleted2 then (CouldNotDeleteSecond, app2)
          else
            (Merged,
             mk (assign_group_all group_id_1 merged_member_ids (individuals_tree app2))
                (grp_insert (groups_tree app2)
                   (Group.new group_id_1 new_group_name merged_member_ids
                      new_weekly_goal)))
  end.
End StepTrackerApp.

(* ================================================================= *)
(** ** Vocabulary of the properties *)

(** A sorting algorithm that meets the contract of [std::sort]: straight
    insertion, which moves an element only past elements that are less. *)
Fixpoint stable_insert {A : Type} (comp : A -> A -> bool) (x : A) (l : list A)
  : list A :=
  match l with
  | [] => [x]
  | y :: t => if comp y x then y :: stable_insert comp x t else x :: l
  end.

Definition insertion_sort : sort_algorithm :=
  fun A comp l => fold_right (stable_insert comp) [] l.

Arguments insertion_sort A comp l : clear implicits.

(** Another one: straight insertion that starts from the back of the
    range, which leaves equivalent elements in reverse order. *)
Definition insertion_sort_from_back : sort_algorithm :=
  fun A comp l => insertion_sort A comp (rev l).

(** The state is well formed when both trees satisfy the class invariant of
    the container. *)
Definition well_formed (app : StepTrackerApp.t) : Prop :=
  ConceptualBPlusTree.sorted_by_key Z.ltb Individual.id
    (StepTrackerApp.individuals_tree app) /\
  ConceptualBPlusTree.sorted_by_key String.ltb Group.group_id
    (StepTrackerApp.groups_tree app).

(** An individual up to its points, a group up to its running total. *)
Definition without_points (i : Individual.t) : Individual.t :=
  Individual.mk (Individual.id i) (Individual.name i) (Individual.age i)
    (Individual.daily_step_goal i) (Individual.weekly_step_count i)
    (Individual.current_group_id i) 0.

Definition without_total (g : Group.t) : Group.t :=
  Group.set_total_weekly_steps 0 g.

(** What the loop [assign_group_all g mids] does to one individual of a
    tree with unique ids. *)
Definition regroup (g : string) (mids : list Z) (x : Individual.t) : Individual.t :=
  if existsb (Z.eqb (Individual.id x)) mids
  then Individual.set_current_group_id g x
  else x.

(** The groups that [remove] keeps. *)
Definition other_group (group_id : string) (g : Group.t) : bool :=
  negb (String.eqb (Group.group_id g) group_id).

(** What [leave_group] does to one group of a tree with unique ids when the
    departing individual carries the group id [gid]. *)
Definition without_member (gid : string) (id : Z) (g : Group.t) : Group.t :=
  if String.eqb (Group.group_id g) gid
  then Group.set_member_ids (vector_remove id (Group.member_ids g)) g
  else g.

(* ================================================================= *)
(** ** Checking a sorting result by computation *)

Fixpoint remove_first (x : nat) (l : list nat) : option (list nat) :=
  match l with
  | [] => None
  | y :: t =>
      if Nat.eqb x y then Some t
      else option_map (cons y) (remove_first x t)
  end.

Fixpoint is_permutation (l l' : list nat) : bool :=
  match l with
  | [] => match l' with [] => true | _ :: _ => false end
  | x :: t =>
      match remove_first x l' with
      | Some rest => is_permutation t rest
      | None => false
      end
  end.

Fixpoint is_sorted_under {A : Type} (comp : A -> A -> bool) (l : list A) : bool :=
  match l with
  | [] => true
  | x :: t => forallb (fun b => negb (comp b x)) t && is_sorted_under comp t
  end.

(** The order the claim on ties asks for: more steps first, and among
    equal steps the individual stored first. *)
Definition ties_in_store_order (inds : list Individual.t) (top : list nat) : Prop :=
  StronglySorted
    (fun a b =>
       StepTrackerApp.current_day_steps inds b < StepTrackerApp.current_day_steps inds a \/
       (StepTrackerApp.current_day_steps inds b = StepTrackerApp.current_day_steps inds a /\
        (a < b)%nat))
    top.

(* ================================================================= *)
(** ** Sequences of public operations and the membership invariant *)

Inductive operation : Type :=
| AddPerson (id : Z) (name : string) (age daily_step_goal : Z) (weekly_step_count : list Z)
| CreateGroup (group_id group_name : string) (member_ids : list Z) (weekly_group_goal : Z)
| DeleteIndividual (individual_id : Z)
| DeleteGroup (group_id : string)
| MergeGroups (group_id_1 group_id_2 new_group_name : string) (new_weekly_goal : Z).

(** The state an operation leaves, whatever it returns. *)
Definition run (op : operation) (app : StepTrackerApp.t) : StepTrackerApp.t :=
  match op with
  | AddPerson id name age goal steps =>
      snd (StepTrackerApp.add_person id name age goal steps app)
  | CreateGroup group_id group_name member_ids goal =>
      snd (StepTrackerApp.create_group group_id group_name member_ids goal app)
  | DeleteIndividual individual_id =>
      snd (StepTrackerApp.delete_individual individual_id app)
  | DeleteGroup group_id =>
      snd (StepTrackerApp.delete_group group_id app)
  | MergeGroups group_id_1 group_id_2 new_group_name new_weekly_goal =>
      snd (StepTrackerApp.merge_groups group_id_1 group_id_2 new_group_name
             new_weekly_goal app)
  end.

Definition run_all (ops : list operation) (app : StepTrackerApp.t) : StepTrackerApp.t :=
  fold_left (fun a op => run op a) ops app.

(** I1: every member id of a stored group is the id of a stored individual
    whose [current_group_id] is the id of that group. *)
Definition members_point_back (app : StepTrackerApp.t) : Prop :=
  forall g m,
    In g (StepTrackerApp.groups_tree app) -> In m (Group.member_ids g) ->
    exists x,
      In x (StepTrackerApp.individuals_tree app) /\
      Individual.id x = m /\
      Individual.current_group_id x = Group.group_id g.

(** I2: a non-empty [current_group_id] is the id of a stored group that
    lists the individual. *)
Definition group_ids_resolve (app : StepTrackerApp.t) : Prop :=
  forall x,
    In x (StepTrackerApp.individuals_tree app) ->
    Individual.current_group_id x <> EmptyString ->
    exists g,
      In g (StepTrackerApp.groups_tree app) /\
      Group.group_id g = Individual.current_group_id x /\
      In (Individual.id x) (Group.member_ids g).

Definition consistent (app : StepTrackerApp.t) : Prop :=
  well_formed app /\ members_point_back app /\ group_ids_resolve app.

(** No stored group is named by the empty string, the value that
    [current_group_id] uses for "no group". *)
Definition groups_named (app : StepTrackerApp.t) : Prop :=
  forall g, In g (StepTrackerApp.groups_tree app) -> Group.group_id g <> EmptyString.

Definition names_its_group (op : operation) : Prop :=
  match op with
  | CreateGroup group_id _ _ _ => group_id <> EmptyString
  | _ => True
  end.

(** The invariant that the operations keep: the membership invariant
    together with the naming of the groups. *)
Definition sound (app : StepTrackerApp.t) : Prop :=
  consistent app /\ groups_named app.

(* ================================================================= *)
(** ** Sample data *)

(** A person whose goal is 5000 steps, with a week that ends on [today]. *)
Definition person (id today : Z) : Individual.t :=
  Individual.new id "User" 30 5000 [3000; 3000; 3000; 3000; 3000; 3000; today].

Definition people_1_3_5 : list Individual.t :=
  [person 1 6000; person 3 7000; person 5 8000].

Definition member (id today : Z) (group_id : string) : Individual.t :=
  Individual.set_current_group_id group_id (person id today).

(** Six people, none of them in a group. *)
Definition six_people : StepTrackerApp.t :=
  StepTrackerApp.mk
    [person 1 6000; person 2 7000; person 3 8000;
     person 4 4000; person 5 9000; person 6 5000]
    [].

(** G1 = {1, 2} and G2 = {3, 4}; 5 and 6 are in no group. *)
Definition two_small_groups : StepTrackerApp.t :=
  StepTrackerApp.mk
    [member 1 6000 "G1"; member 2 7000 "G1"; member 3 8000 "G2";
     member 4 4000 "G2"; person 5 9000; person 6 5000]
    [Group.new "G1" "Walkers" [1; 2] 30000; Group.new "G2" "Runners" [3; 4] 20000].

(** G1 = {1, 2, 3} and G2 = {4, 5, 6}: six members between them. *)
Definition two_full_groups : StepTrackerApp.t :=
  StepTrackerApp.mk
    [member 1 6000 "G1"; member 2 7000 "G1"; member 3 8000 "G1";
     member 4 4000 "G2"; member 5 9000 "G2"; member 6 5000 "G2"]
    [Group.new "G1" "Walkers" [1; 2; 3] 30000; Group.new "G2" "Runners" [4; 5; 6] 20000].

(** Seventeen people, ids 1 to 17, who all walked 9000 steps today. *)
Definition seventeen_tied : StepTrackerApp.t :=
  StepTrackerApp.mk (map (fun n => person (Z.of_nat n) 9000) (seq 1 17)) [].

(** One person and no group. *)
Definition one_person : StepTrackerApp.t :=
  StepTrackerApp.mk [person 1 6000] [].


(** I3, with the order the constructor gives: the member list of every
    stored group is strictly increasing and within [MAX_MEMBERS]. *)
Definition members_tidy (app : StepTrackerApp.t) : Prop :=
  forall g, In g (StepTrackerApp.groups_tree app) ->
    StronglySorted Z.lt (Group.member_ids g) /\
    (length (Group.member_ids g) <= Group.MAX_MEMBERS)%nat.


(** The steps of a week of the first stored individual with the id, [0]
    when there is none. *)
Definition steps_of (inds : list Individual.t) (member_id : Z) : Z :=
  match find (fun x => Individual.id x =? member_id) inds with
  | Some x => fold_right Z.add 0 (Individual.weekly_step_count x)
  | None => 0
  end.


(* ================================================================= *)
(** ** Text: [std::getline], [std::stoi] and [operator<<] on [int]

    A stream is the text that is still to be read. *)

Module Text.
Local Open Scope string_scope.

(** [std::getline(stream, line, delimiter)]: the characters up to the next
    delimiter, which is consumed, or up to the end of the text.  It fails
    ([None]) only when nothing at all is left to extract. *)
Fixpoint getline (stream : string) (delimiter : ascii) : option (string * string) :=
  match stream with
  | EmptyString => None
  | String c rest =>
      if Ascii.eqb c delimiter then Some (EmptyString, rest)
      else
        match getline rest delimiter with
        | Some (line, rest') => Some (String c line, rest')
        | None => Some (String c EmptyString, EmptyString)
        end
  end.

(** The loop [while (getline(stream, token, delimiter)) tokens.push_back(token)];
    every successful [getline] extracts a character, so the length of the
    text bounds the number of turns. *)
Fixpoint getline_loop (fuel : nat) (stream : string) (delimiter : ascii) : list string :=
  match fuel with
  | O => []
  | S fuel' =>
      match getline stream delimiter with
      | Some (token, rest) => token :: getline_loop fuel' rest delimiter
      | None => []
      end
  end.

(** [StepTrackerApp::split] *)
Definition split (s : string) (delimiter : ascii) : list string :=
  getline_loop (S (String.length s)) s delimiter.

(** The decimal digits of a natural number, most significant first. *)
Definition digit_char (n : N) : ascii := ascii_of_N (48 + n)%N.

Fixpoint digits_fuel (fuel : nat) (n : N) : string :=
  match fuel with
  | O => EmptyString
  | S fuel' =>
      if (n <? 10)%N then String (digit_char n) EmptyString
      else digits_fuel fuel' (n / 10)%N ++ String (digit_char (n mod 10)%N) EmptyString
  end.

Definition digits (n : N) : string := digits_fuel (S (N.to_nat (N.log2 n))) n.

(** [stream << value] and [std::to_string(value)] for an [int]. *)
Definition to_string (value : Z) : string :=
  if (value <? 0)%Z then String "-" (digits (Z.to_N (- value)%Z))
  else digits (Z.to_N value).

(** [isspace] and [isdigit] in the C locale. *)
Definition isspace (c : ascii) : bool :=
  let n := N_of_ascii c in (n =? 32)%N || ((9 <=? n)%N && (n <=? 13)%N).

Definition isdigit (c : ascii) : bool :=
  let n := N_of_ascii c in (48 <=? n)%N && (n <=? 57)%N.

Fixpoint skip_spaces (s : string) : string :=
  match s with
  | String c rest => if isspace c then skip_spaces rest else s
  | EmptyString => s
  end.

(** The value of the longest prefix of digits, with the number of digits
    read; [acc] is the value read so far. *)
Fixpoint read_digits (s : string) (acc : N) (count : nat) : N * nat :=
  match s with
  | String c rest =>
      if isdigit c then read_digits rest (10 * acc + (N_of_ascii c - 48))%N (S count)
      else (acc, count)
  | EmptyString => (acc, count)
  end.

Definition INT_MIN : Z := (- 2147483648)%Z.
Definition INT_MAX : Z := 2147483647%Z.

(** [std::stoi(s)]: white space, an optional sign, then digits; what
    follows the digits is ignored.  [None] stands for the two exceptions:
    [invalid_argument] when there is no digit to read, [out_of_range] when
    the value does not fit an [int]. *)
Definition stoi (s : string) : option Z :=
  let s1 := skip_spaces s in
  let '(negative, s2) :=
    match s1 with
    | String c rest =>
        if Ascii.eqb c "-" then (true, rest)
        else if Ascii.eqb c "+" then (false, rest)
        else (false, s1)
    | EmptyString => (false, s1)
    end in
  let '(magnitude, count) := read_digits s2 0%N 0%nat in
  match count with
  | O => None
  | S _ =>
      let value := if negative then (- Z.of_N magnitude)%Z else Z.of_N magnitude in
      if (INT_MIN <=? value)%Z && (value <=? INT_MAX)%Z then Some value else None
  end.
(** The character occurs in the text. *)
Fixpoint contains (s : string) (c : ascii) : bool :=
  match s with
  | EmptyString => false
  | String a rest => Ascii.eqb a c || contains rest c
  end.

(** The last character of a text is the delimiter. *)
Fixpoint ends_with (s : string) (d : ascii) : bool :=
  match s with
  | EmptyString => false
  | String c EmptyString => Ascii.eqb c d
  | String _ rest => ends_with rest d
  end.

End Text.


(* ================================================================= *)
(** ** The CSV files: [_save_data] and [_load_data]

    A file is the text it holds; [None] is a file that does not exist or
    cannot be opened. *)

Module Files.
Import StepTrackerApp.
Local Open Scope string_scope.

Record disk : Type := mk_disk {
  individuals_file : option string;
  groups_file : option string
}.

Definition newline : ascii := ascii_of_N 10.
Definition comma : ascii := ","%char.
Definition semicolon : ascii := ";"%char.

Definition individuals_header : string :=
  "ID,Name,Age,DailyStepGoal,WeeklyStepCount1,WeeklyStepCount2,WeeklyStepCount3,WeeklyStepCount4,WeeklyStepCount5,WeeklyStepCount6,WeeklyStepCount7"
  ++ String newline EmptyString.

Definition groups_header : string :=
  "GroupID,GroupName,MemberIDs,WeeklyGroupGoal" ++ String newline EmptyString.

(** One turn of the loop over the individuals in [_save_data]. *)
Definition individual_line (x : Individual.t) : string :=
  Text.to_string (Individual.id x) ++ "," ++ Individual.name x ++ ","
  ++ Text.to_string (Individual.age x) ++ ","
  ++ Text.to_string (Individual.daily_step_goal x)
  ++ String.concat EmptyString
       (map (fun steps => "," ++ Text.to_string steps) (Individual.weekly_step_count x))
  ++ String newline EmptyString.

(** One turn of the loop over the groups: the member ids are separated by
    semicolons, with none after the last. *)
Definition group_line (g : Group.t) : string :=
  Group.group_id g ++ "," ++ Group.group_name g ++ ","
  ++ String.concat ";" (map Text.to_string (Group.member_ids g))
  ++ "," ++ Text.to_string (Group.weekly_group_goal g)
  ++ String newline EmptyString.

Definition individuals_text (inds : list Individual.t) : string :=
  individuals_header ++ String.concat EmptyString (map individual_line inds).

Definition groups_text (grps : list Group.t) : string :=
  groups_header ++ String.concat EmptyString (map group_line grps).

(** [_save_data].  The two booleans say whether the files can be opened for
    writing; the function returns at the first one that cannot. *)
Definition _save_data (individuals_writable groups_writable : bool)
    (app : t) (d : disk) : disk :=
  if individuals_writable then
    let d1 := mk_disk (Some (individuals_text (individuals_tree app))) (groups_file d) in
    if groups_writable then
      mk_disk (individuals_file d1) (Some (groups_text (groups_tree app)))
    else d1
  else d.

(** [stoi] on each string in turn; [None] when one of the calls throws. *)
Fixpoint stoi_all (parts : list string) : option (list Z) :=
  match parts with
  | [] => Some []
  | part :: rest =>
      match Text.stoi part with
      | Some value =>
          match stoi_all rest with
          | Some values => Some (value :: values)
          | None => None
          end
      | None => None
      end
  end.

(** The body of the [try] block for a line of the individuals file; [None]
    when the line is skipped, for too few fields or for an exception. *)
Definition parse_individual (line : string) : option Individual.t :=
  let parts := Text.split line comma in
  if (length parts <? 5)%nat then None
  else
    match parts with
    | id :: name :: age :: daily_goal :: weekly_steps =>
        match Text.stoi id, Text.stoi age, Text.stoi daily_goal, stoi_all weekly_steps with
        | Some id, Some age, Some daily_goal, Some weekly_steps =>
            Some (Individual.new id name age daily_goal weekly_steps)
        | _, _, _, _ => None
        end
    | _ => None
    end.

(** The same for a line of the groups file, up to the construction of the
    [Group]; fields after the fourth are ignored. *)
Definition parse_group (line : string) : option Group.t :=
  let parts := Text.split line comma in
  if (length parts <? 4)%nat then None
  else
    match parts with
    | group_id :: group_name :: members :: goal :: _ =>
        let member_id_strings :=
          filter (fun s => negb (string_empty s)) (Text.split members semicolon) in
        match stoi_all member_id_strings, Text.stoi goal with
        | Some member_ids, Some weekly_group_goal =>
            Some (Group.new group_id group_name member_ids weekly_group_goal)
        | _, _ => None
        end
    | _ => None
    end.

(** The lines after the header: the first [getline] skips the header, the
    loop reads the rest. *)
Definition data_lines (text : string) : list string :=
  match Text.getline text newline with
  | Some (_, rest) => Text.getline_loop (S (String.length rest)) rest newline
  | None => []
  end.

Definition load_individual (inds : list Individual.t) (line : string)
  : list Individual.t :=
  match parse_individual line with
  | Some x => ind_insert inds x
  | None => inds
  end.

(** A group is inserted, then looked up again under its id; the members of
    the group found get its id as [current_group_id]. *)
Definition load_group (app : t) (line : string) : t :=
  match parse_group line with
  | Some g =>
      let grps := grp_insert (groups_tree app) g in
      match find_group grps (Group.group_id g) with
      | Some (_, found) =>
          mk (assign_group_all (Group.group_id g) (Group.member_ids found)
                (individuals_tree app))
             grps
      | None => mk (individuals_tree app) grps
      end
  | None => app
  end.

(** [_load_data] *)
Definition _load_data (d : disk) (app : t) : t :=
  let inds :=
    match individuals_file d with
    | Some text => fold_left load_individual (data_lines text) (individuals_tree app)
    | None => individuals_tree app
    end in
  match groups_file d with
  | Some text => fold_left load_group (data_lines text) (mk inds (groups_tree app))
  | None => mk inds (groups_tree app)
  end.

(** The constructor of [StepTrackerApp]: both trees start empty. *)
Definition new (d : disk) : t := _load_data d (mk [] []).

(** The strings and numbers that survive a save followed by a load. *)
Definition field_ok (s : string) : bool :=
  negb (Text.contains s comma) && negb (Text.contains s newline).

Definition is_int (value : Z) : bool :=
  (Text.INT_MIN <=? value)%Z && (value <=? Text.INT_MAX)%Z.

Definition individual_ok (x : Individual.t) : bool :=
  is_int (Individual.id x) && field_ok (Individual.name x)
  && is_int (Individual.age x) && is_int (Individual.daily_step_goal x)
  && forallb is_int (Individual.weekly_step_count x).

Definition group_ok (g : Group.t) : bool :=
  field_ok (Group.group_id g) && field_ok (Group.group_name g)
  && forallb is_int (Group.member_ids g) && is_int (Group.weekly_group_goal g).

Definition has_steps (x : Individual.t) : bool :=
  match Individual.weekly_step_count x with
  | [] => false
  | _ :: _ => true
  end.
End Files.


(** An individual as [_load_data] builds it from its line, before the
    groups file is read: no group, no points. *)
Definition as_loaded (x : Individual.t) : Individual.t :=
  Individual.new (Individual.id x) (Individual.name x) (Individual.age x)
    (Individual.daily_step_goal x) (Individual.weekly_step_count x).

(** Some group of the list has the id of the individual among its members. *)
Definition listed_in (grps : list Group.t) (x : Individual.t) : bool :=
  existsb (fun g => existsb (Z.eqb (Individual.id x)) (Group.member_ids g)) grps.

(** The texts of a line of each file, without the newline: the fields
    joined by commas. *)
Definition individual_fields (x : Individual.t) : list string :=
  Text.to_string (Individual.id x) :: Individual.name x
  :: Text.to_string (Individual.age x)
  :: Text.to_string (Individual.daily_step_goal x)
  :: map Text.to_string (Individual.weekly_step_count x).

Definition group_fields (g : Group.t) : list string :=
  [Group.group_id g; Group.group_name g;
   String.concat ";" (map Text.to_string (Group.member_ids g));
   Text.to_string (Group.weekly_group_goal g)].


(** Ann, in group G1 with 150 points, and Bob, who has no step count yet. *)
Definition ann_and_bob : StepTrackerApp.t :=
  StepTrackerApp.mk
    [Individual.mk 1 "Ann" 30 5000 [6000; 7000] "G1" 150;
     Individual.mk 2 "Bob" 41 8000 [] EmptyString 0]
    [Group.mk "G1" "Walkers" [1] 10000 13000].

Definition no_files : Files.disk := Files.mk_disk None None.

(** A group of six, and a group whose only member is unknown. *)
Definition six_in_a_group : StepTrackerApp.t :=
  StepTrackerApp.mk
    [person 1 6000]
    [Group.mk "G1" "Crowd" [1; 2; 3; 4; 5; 6] 10000 0; Group.mk "G2" "Ghost" [9] 10 0].


(** An individual while the groups file is being read: it has its group
    again once a group that lists it has been read. *)
Definition regrouped (done : list Group.t) (x : Individual.t) : Individual.t :=
  if listed_in done x then without_points x else as_loaded x.


(* ================================================================= *)
(** ** display_group_range_info

    The function prints; what it prints for each group, in the order of
    the ranks, is the result here.  It works on a copy of the groups, so
    the state is not touched. *)

Module Report.
Import StepTrackerApp.
Local Open Scope string_scope.

(** [group.group_id >= start_group_id && group.group_id <= end_group_id] *)
Definition in_id_range (start_group_id end_group_id : string) (g : Group.t) : bool :=
  negb (String.ltb (Group.group_id g) start_group_id)
  && negb (String.ltb end_group_id (Group.group_id g)).

(** [p->group_id] for a pointer into the copy. *)
Definition group_id_at (all_groups : list Group.t) (p : nat) : string :=
  match nth_error all_groups p with
  | Some g => Group.group_id g
  | None => EmptyString
  end.

Definition member_label (x : Individual.t) : string :=
  Individual.name x ++ " (ID: " ++ Text.to_string (Individual.id x) ++ ")".

(** The names of the members that are found in the individuals tree. *)
Definition member_names (inds : list Individual.t) (g : Group.t) : list string :=
  flat_map
    (fun member_id =>
       match find_individual inds member_id with
       | Some (_, individual) => [member_label individual]
       | None => []
       end)
    (Group.member_ids g).

(** What is printed under one rank. *)
Record range_row : Type := mk_row {
  row_group_id : string;
  row_group_name : string;
  row_goal : Z;
  row_steps : Z;
  row_members : list string
}.

Definition range_row_of (inds : list Individual.t) (g : Group.t) (steps : Z)
  : range_row :=
  mk_row (Group.group_id g) (Group.group_name g) (Group.weekly_group_goal g) steps
    (member_names inds g).

(** One turn of the loop that recalculates the totals: the total is stored
    in the group of the copy and pushed on [groups_with_steps]. *)
Definition add_range_total (inds : list Individual.t)
    (state : list Group.t * list (nat * Z)) (p : nat)
  : list Group.t * list (nat * Z) :=
  match nth_error (fst state) p with
  | Some group =>
      let total := total_group_steps inds group in
      (update_at p (Group.set_total_weekly_steps total) (fst state),
       (snd state ++ [(p, total)])%list)
  | None => state
  end.

Definition display_group_range_info (sort : sort_algorithm)
    (start_group_id end_group_id : string) (app : t) : list range_row :=
  let all_groups := groups_tree app in
  let relevant_groups_ptrs :=
    sort nat
      (fun a b => String.ltb (group_id_at all_groups a) (group_id_at all_groups b))
      (pointers_where (in_id_range start_group_id end_group_id) 0%nat all_groups) in
  match relevant_groups_ptrs with
  | [] => []
  | _ :: _ =>
      let state :=
        fold_left (add_range_total (individuals_tree app)) relevant_groups_ptrs
          (all_groups, []) in
      let groups_with_steps :=
        sort (nat * Z)%type (fun a b => snd b <? snd a)%Z (snd state) in
      flat_map
        (fun entry =>
           match nth_error (fst state) (fst entry) with
           | Some group => [range_row_of (individuals_tree app) group (snd entry)]
           | None => []
           end)
        groups_with_steps
  end.
End Report.


(** Every stored name, id and number survives a save followed by a load. *)
Definition storable (app : StepTrackerApp.t) : Prop :=
  forallb Files.individual_ok (StepTrackerApp.individuals_tree app) = true /\
  forallb Files.group_ok (StepTrackerApp.groups_tree app) = true.

(** The same for what an operation brings in. *)
Definition operation_ok (op : operation) : bool :=
  match op with
  | AddPerson id name age daily_step_goal weekly_step_count =>
      Files.individual_ok
        (Individual.new id name age daily_step_goal weekly_step_count)
  | CreateGroup group_id group_name _ weekly_group_goal =>
      Files.field_ok group_id && Files.field_ok group_name
      && Files.is_int weekly_group_goal
  | DeleteIndividual _ => true
  | DeleteGroup _ => true
  | MergeGroups _ _ new_group_name new_weekly_goal =>
      Files.field_ok new_group_name && Files.is_int new_weekly_goal
  end.


(** One person, the best of the day, whose points are 47 below the largest
    [int]. *)
Definition near_the_limit : StepTrackerApp.t :=
  StepTrackerApp.mk [Individual.mk 1 "User" 30 5000 [6000] EmptyString 2147483600] [].

(* ================================================================= *)
(** * Properties *)

Unset Implicit Arguments.

(** ** Lists seen as vectors *)

Lemma update_at_length {A} (f : A -> A) l : forall i, length (update_at i f l) = length l.
Proof.
  induction l as [|x t IH]; intros [|i]; simpl; auto.
Qed.

Lemma nth_error_update_at {A} (f : A -> A) l : forall i j,
  nth_error (update_at i f l) j =
  if Nat.eqb i j then option_map f (nth_error l j) else nth_error l j.
Proof.
  induction l as [|x t IH]; intros [|i] [|j]; simpl; auto.
  - destruct (Nat.eqb _ _); reflexivity.
Qed.

Lemma map_update_at_same {A B} (k : A -> B) (f : A -> A) l :
  (forall x, k (f x) = k x) -> forall i, map k (update_at i f l) = map k l.
Proof.
  intros Hk. induction l as [|x t IH]; intros [|i]; simpl; auto.
  - now rewrite Hk.
  - now rewrite IH.
Qed.

(** ** [std::lower_bound] on a partitioned range *)

Lemma div2_succ_le n : (Nat.div2 (S n) <= n)%nat.
Proof.
  rewrite Nat.div2_div. apply Nat.lt_succ_r, Nat.Div0.div_lt_upper_bound. lia.
Qed.

Section LowerBoundFacts.
Context {T : Type}.
Variable less : T -> bool.
Variable data : list T.

(** On a range whose elements "less than the value" come first, the
    bisection stops at the first element that is not. *)
Lemma lower_bound_loop_partition (p : nat) :
  (forall i x, nth_error data i = Some x -> (less x = true <-> (i < p)%nat)) ->
  forall fuel first len,
    (len <= fuel)%nat -> (first <= p <= first + len)%nat ->
    (first + len <= length data)%nat ->
    lower_bound_loop less data fuel first len = p.
Proof.
  intros Hpart. induction fuel as [|fuel IH]; intros first len Hfuel Hp Hlen.
  - simpl. lia.
  - simpl. destruct len as [|len']; [lia|].
    set (half := Nat.div2 (S len')).
    assert (Hhalf : (half <= len')%nat) by apply div2_succ_le.
    destruct (nth_error data (first + half)) as [obj|] eqn:Hnth.
    + destruct (less obj) eqn:Hless.
      * apply IH; try lia.
        apply (Hpart _ _ Hnth) in Hless. lia.
      * apply IH; try lia.
        assert (~ (first + half < p)%nat).
        { intro Hlt. apply (Hpart _ _ Hnth) in Hlt. congruence. }
        lia.
    + apply nth_error_None in Hnth. lia.
Qed.

Lemma lower_bound_partition (p : nat) :
  (p <= length data)%nat ->
  (forall i x, nth_error data i = Some x -> (less x = true <-> (i < p)%nat)) ->
  lower_bound less data = p.
Proof.
  intros Hp Hpart. unfold lower_bound.
  apply lower_bound_loop_partition; auto; lia.
Qed.

(** The bisection never leaves the range it was given. *)
Lemma lower_bound_loop_range :
  forall fuel first len,
    (first <= lower_bound_loop less data fuel first len <= first + len)%nat.
Proof.
  induction fuel as [|fuel IH]; intros first len; simpl; [lia|].
  destruct len as [|len']; [lia|].
  set (half := Nat.div2 (S len')).
  assert (Hhalf : (half <= len')%nat) by apply div2_succ_le.
  destruct (nth_error data (first + half)) as [obj|]; [|lia].
  destruct (less obj).
  - specialize (IH (first + half + 1)%nat (S len' - half - 1)%nat). lia.
  - specialize (IH first half). lia.
Qed.
End LowerBoundFacts.

(** The bisection only looks at the outcomes of the comparisons. *)
Lemma lower_bound_loop_ext {T U} (less : T -> bool) (less' : U -> bool) data data' :
  map less data = map less' data' ->
  forall fuel first len,
    lower_bound_loop less data fuel first len =
    lower_bound_loop less' data' fuel first len.
Proof.
  intros Hmap. induction fuel as [|fuel IH]; intros first len; simpl; auto.
  destruct len as [|len']; auto.
  set (half := Nat.div2 (S len')).
  assert (Hnth : option_map less (nth_error data (first + half)) =
                 option_map less' (nth_error data' (first + half))).
  { rewrite <- !nth_error_map. now rewrite Hmap. }
  destruct (nth_error data (first + half)) as [x|],
           (nth_error data' (first + half)) as [y|]; simpl in Hnth;
    try discriminate; auto.
  injection Hnth as Hxy. rewrite Hxy. destruct (less' y); apply IH.
Qed.

Lemma lower_bound_ext {T U} (less : T -> bool) (less' : U -> bool) data data' :
  map less data = map less' data' ->
  lower_bound less data = lower_bound less' data'.
Proof.
  intros Hmap. unfold lower_bound.
  assert (Hlen : length data = length data').
  { rewrite <- (length_map less data), Hmap. apply length_map. }
  rewrite Hlen. now apply lower_bound_loop_ext.
Qed.

(** ** Strictly sorted vectors *)

Lemma StronglySorted_nth {A} (R : A -> A -> Prop) l :
  StronglySorted R l ->
  forall i j x y, (i < j)%nat ->
    nth_error l i = Some x -> nth_error l j = Some y -> R x y.
Proof.
  induction 1 as [|a l Hs IH Hall]; intros i j x y Hij Hi Hj.
  - destruct i; discriminate.
  - destruct j as [|j]; [lia|]. simpl in Hj. destruct i as [|i]; simpl in Hi.
    + injection Hi as <-. rewrite Forall_forall in Hall.
      apply Hall. eapply nth_error_In; eauto.
    + apply (IH i j); auto; lia.
Qed.

Lemma StronglySorted_insert_middle {A} (R : A -> A -> Prop) l1 l2 x :
  StronglySorted R (l1 ++ l2) ->
  Forall (fun a => R a x) l1 -> Forall (R x) l2 ->
  StronglySorted R (l1 ++ x :: l2).
Proof.
  induction l1 as [|a l1 IH]; simpl; intros Hs H1 H2.
  - now constructor.
  - apply StronglySorted_inv in Hs as [Hs Ha].
    inversion H1 as [|? ? Hax H1']; subst.
    constructor; [now apply IH|].
    rewrite Forall_app in Ha |- *. destruct Ha as [Ha1 Ha2].
    split; auto.
Qed.

Lemma StronglySorted_filter {A} (R : A -> A -> Prop) (f : A -> bool) l :
  StronglySorted R l -> StronglySorted R (filter f l).
Proof.
  induction 1 as [|a l Hs IH Hall]; simpl; [constructor|].
  destruct (f a); auto. constructor; auto.
  rewrite Forall_forall in *. intros y Hy. apply filter_In in Hy as [Hy _]. auto.
Qed.

Lemma StronglySorted_map_iff {A B} (k : A -> B) (R : B -> B -> Prop) l :
  StronglySorted (fun a b => R (k a) (k b)) l <-> StronglySorted R (map k l).
Proof.
  induction l as [|a l IH]; simpl.
  - split; constructor.
  - split; intros Hs; apply StronglySorted_inv in Hs as [Hs Ha];
      constructor; try (now apply IH);
      rewrite Forall_forall in *.
    + intros y Hy. apply in_map_iff in Hy as (x & <- & Hx). auto.
    + intros x Hx. apply Ha. now apply in_map.
Qed.

(** ** The container: [find_insert_pos], [search], [insert], [remove] *)

Module TreeFacts.
Import ConceptualBPlusTree.

Section Facts.
Context {T KeyType : Type}.
Variable comp : KeyType -> KeyType -> bool.
Variable key_extractor : T -> KeyType.
Hypothesis comp_swo : strict_weak_order comp.

Local Abbreviation key := key_extractor.
Local Abbreviation sorted := (sorted_by_key comp key_extractor).
Local Abbreviation equiv := (equiv_keys comp).

Lemma comp_trans a b c : comp a b = true -> comp b c = true -> comp a c = true.
Proof. destruct comp_swo as (_ & Ht & _). apply Ht. Qed.

Lemma comp_cotrans a b c : comp a c = true -> comp a b = true \/ comp b c = true.
Proof. destruct comp_swo as (_ & _ & Hc). apply Hc. Qed.

Lemma equiv_spec a b :
equiv a b = true <-> comp a b = false /\ comp b a = false.
Proof.
unfold equiv_keys. rewrite andb_true_iff, !negb_true_iff. tauto.
Qed.

Lemma equiv_false_spec a b :
equiv a b = false <-> comp a b = true \/ comp b a = true.
Proof.
unfold equiv_keys. destruct (comp a b), (comp b a); simpl; intuition congruence.
Qed.

(** In a sorted store the elements below a key form a prefix. *)
Lemma sorted_partition data k :
sorted data ->
exists p, (p <= length data)%nat /\
forall i x, nth_error data i = Some x ->
  (comp (key x) k = true <-> (i < p)%nat).
Proof.
induction 1 as [|a l Hs IH Hall].
- exists 0%nat. split; [simpl; lia|]. intros [|i] x; discriminate.
- destruct IH as (p & Hp & Hpart).
destruct (comp (key a) k) eqn:Hak.
+ exists (S p). split; [simpl; lia|].
  intros [|i] x Hx; simpl in Hx.
  * injection Hx as <-. split; [lia | auto].
  * rewrite (Hpart _ _ Hx). lia.
+ exists 0%nat. split; [lia|].
  intros i x Hx. split; [|lia]. intros Hxk. exfalso.
  destruct i as [|i]; simpl in Hx.
  * injection Hx as <-. congruence.
  * rewrite Forall_forall in Hall.
    assert (Hax : comp (key a) (key x) = true)
      by (apply Hall; eapply nth_error_In; eauto).
    rewrite (comp_trans _ _ _ Hax Hxk) in Hak. discriminate.
Qed.

Lemma find_insert_pos_spec data k :
sorted data ->
(find_insert_pos comp key data k <= length data)%nat /\
forall i x, nth_error data i = Some x ->
(comp (key x) k = true <-> (i < find_insert_pos comp key data k)%nat).
Proof.
intros Hs. destruct (sorted_partition data k Hs) as (p & Hp & Hpart).
unfold find_insert_pos.
rewrite (lower_bound_partition (fun obj => comp (key obj) k) data p Hp Hpart).
auto.
Qed.

(** [search] answers with an element whose key is equivalent to the one
asked for, whatever the contents of the vector. *)
Lemma search_Some_inv data k p :
search comp key data k = Some p ->
exists x, nth_error data p = Some x /\ equiv k (key x) = true.
Proof.
unfold search. destruct (nth_error data (find_insert_pos comp key data k)) as [x|] eqn:Hx;
[|discriminate].
destruct (equiv k (key x)) eqn:He; [|discriminate].
intros [= <-]. eauto.
Qed.

(** In a sorted store, [search] finds every element by its key. *)
Lemma search_complete data k i x :
sorted data ->
nth_error data i = Some x -> equiv k (key x) = true ->
search comp key data k = Some i.
Proof.
intros Hs Hx He. apply equiv_spec in He as [Hkx Hxk].
destruct (find_insert_pos_spec data k Hs) as [Hp Hpart].
set (p := find_insert_pos comp key data k) in *.
assert (Hpi : p = i).
{ assert (Hge : ~ (i < p)%nat).
{ intro Hlt. apply (Hpart _ _ Hx) in Hlt. congruence. }
destruct (Nat.eq_dec p i) as [|Hne]; auto. exfalso.
assert (Hlt : (p < i)%nat) by lia.
destruct (nth_error data p) as [y|] eqn:Hy.
- assert (Hyx : comp (key y) (key x) = true)
    by apply (StronglySorted_nth _ _ Hs _ _ _ _ Hlt Hy Hx).
  destruct (comp_cotrans _ k _ Hyx) as [Hyk | Hkx']; [|congruence].
  apply (Hpart _ _ Hy) in Hyk. lia.
- apply nth_error_None in Hy.
  assert (i < length data)%nat by (apply nth_error_Some; congruence). lia. }
unfold search. fold p. rewrite Hpi, Hx.
assert (He : equiv k (key x) = true) by (apply equiv_spec; auto).
now rewrite He.
Qed.

Lemma search_None_inv data k :
sorted data -> search comp key data k = None ->
forall x, In x data -> equiv k (key x) = false.
Proof.
intros Hs Hnone x Hin. destruct (equiv k (key x)) eqn:He; auto.
apply In_nth_error in Hin as [i Hi].
rewrite (search_complete data k i x Hs Hi He) in Hnone. discriminate.
Qed.

(** [search] reads the keys only. *)
Lemma search_same_keys {U} (key' : U -> KeyType) data (data' : list U) k :
map key data = map key' data' ->
search comp key data k = search comp key' data' k.
Proof.
intros Hmap. unfold search, find_insert_pos.
assert (Hlb : lower_bound (fun obj => comp (key obj) k) data =
            lower_bound (fun obj => comp (key' obj) k) data').
{ apply lower_bound_ext.
rewrite <- (map_map key (fun kk => comp kk k)), Hmap.
apply map_map. }
rewrite Hlb. set (p := lower_bound _ data').
assert (Hnth : option_map key (nth_error data p) = option_map key' (nth_error data' p))
by (rewrite <- !nth_error_map; now rewrite Hmap).
destruct (nth_error data p), (nth_error data' p); simpl in Hnth;
try discriminate; auto.
injection Hnth as ->. reflexivity.
Qed.

(** [insert] when the key is taken: nothing changes. *)
Lemma insert_present data item :
  sorted data ->
  (exists x, In x data /\ equiv (key item) (key x) = true) ->
  insert comp key data item = data.
Proof.
  intros Hs (x & Hin & He).
  apply In_nth_error in Hin as [i Hi].
  pose proof (search_complete data (key item) i x Hs Hi He) as Hsearch.
  unfold search in Hsearch. unfold insert.
  destruct (nth_error data (find_insert_pos comp key data (key item))) as [y|];
    [|discriminate].
  destruct (equiv (key item) (key y)); [reflexivity | discriminate].
Qed.

(** [insert] when the key is free: the item goes between the elements
    below it and the elements above it. *)
Lemma insert_absent data item :
  sorted data ->
  (forall x, In x data -> equiv (key item) (key x) = false) ->
  let p := find_insert_pos comp key data (key item) in
  insert comp key data item = firstn p data ++ item :: skipn p data /\
  Forall (fun a => comp (key a) (key item) = true) (firstn p data) /\
  Forall (fun b => comp (key item) (key b) = true) (skipn p data) /\
  sorted (insert comp key data item).
Proof.
  intros Hs Hfree p.
  destruct (find_insert_pos_spec data (key item) Hs) as [Hp Hpart]. fold p in Hp, Hpart.
  assert (Hins : insert comp key data item = firstn p data ++ item :: skipn p data).
  { unfold insert. fold p. destruct (nth_error data p) as [y|] eqn:Hy; auto.
    rewrite (Hfree y (nth_error_In _ _ Hy)). reflexivity. }
  assert (Hlow : Forall (fun a => comp (key a) (key item) = true) (firstn p data)).
  { apply Forall_forall. intros a Ha. apply In_nth_error in Ha as [i Hi].
    rewrite nth_error_firstn in Hi. destruct (Nat.ltb_spec i p); [|discriminate].
    now apply (Hpart _ _ Hi). }
  assert (Hhigh : Forall (fun b => comp (key item) (key b) = true) (skipn p data)).
  { apply Forall_forall. intros b Hb. apply In_nth_error in Hb as [i Hi].
    rewrite nth_error_skipn in Hi.
    assert (Hnot : comp (key b) (key item) <> true).
    { intro Hlt. apply (Hpart _ _ Hi) in Hlt. lia. }
    pose proof (Hfree b (nth_error_In _ _ Hi)) as He.
    apply equiv_false_spec in He as [He | He]; congruence. }
  repeat split; auto.
  rewrite Hins. unfold sorted_by_key.
  apply StronglySorted_insert_middle; auto.
  rewrite firstn_skipn. exact Hs.
Qed.

Lemma insert_sorted data item :
  sorted data -> sorted (insert comp key data item).
Proof.
  intros Hs.
  destruct (search comp key data (key item)) as [p|] eqn:Hsearch.
  - apply search_Some_inv in Hsearch as (x & Hx & He).
    rewrite insert_present; auto. exists x. split; auto. eapply nth_error_In; eauto.
  - apply insert_absent; auto. now apply search_None_inv.
Qed.

Lemma insert_In data item x :
  In x (insert comp key data item) -> x = item \/ In x data.
Proof.
  unfold insert, vector_insert.
  set (p := find_insert_pos comp key data (key item)).
  assert (Hsplit : In x (firstn p data ++ item :: skipn p data) -> x = item \/ In x data).
  { rewrite in_app_iff. simpl. rewrite <- (firstn_skipn p data) at 3.
    rewrite in_app_iff. intuition. }
  destruct (nth_error data p) as [y|]; auto.
  destruct (equiv (key item) (key y)); auto.
Qed.

Lemma In_insert_old data item x :
  In x data -> In x (insert comp key data item).
Proof.
  unfold insert, vector_insert.
  set (p := find_insert_pos comp key data (key item)).
  intros Hin.
  assert (Hsplit : In x (firstn p data ++ item :: skipn p data)).
  { rewrite <- (firstn_skipn p data) in Hin.
    rewrite in_app_iff in *. simpl. intuition. }
  destruct (nth_error data p) as [y|]; auto.
  destruct (equiv (key item) (key y)); auto.
Qed.

Lemma In_insert_new data item :
  sorted data ->
  (forall x, In x data -> equiv (key item) (key x) = false) ->
  In item (insert comp key data item).
Proof.
  intros Hs Hfree. destruct (insert_absent data item Hs Hfree) as (-> & _).
  apply in_app_iff. right. now left.
Qed.

End Facts.

(** [remove]: the elements with the key go, the others stay in order. *)
Section RemoveFacts.
Context {T KeyType : Type}.
Variable key_eqb : KeyType -> KeyType -> bool.
Variable key_extractor : T -> KeyType.

Local Abbreviation key := key_extractor.

Lemma filter_length_lt (f : T -> bool) l :
  (length (filter f l) < length l)%nat <-> exists x, In x l /\ f x = false.
Proof.
  induction l as [|a l IH]; simpl.
  - split; [lia | intros (x & [] & _)].
  - pose proof (filter_length_le f l) as Hle.
    destruct (f a) eqn:Hfa; simpl.
    + rewrite <- Nat.succ_lt_mono, IH. split.
      * intros (x & Hx & Hf). eauto.
      * intros (x & [-> | Hx] & Hf); [congruence | eauto].
    + split; [eauto | lia].
Qed.

Lemma remove_snd data k :
  snd (remove key_eqb key data k) =
  filter (fun obj => negb (key_eqb (key obj) k)) data.
Proof.
  unfold remove.
  destruct (Nat.ltb_spec (length (filter (fun obj => negb (key_eqb (key obj) k)) data))
              (length data)) as [Hlt | Hge]; simpl; auto.
  symmetry. apply forallb_filter_id.
  apply filter_length_forallb.
  pose proof (filter_length_le (fun obj => negb (key_eqb (key obj) k)) data). lia.
Qed.

Lemma remove_fst data k :
  fst (remove key_eqb key data k) = true <->
  exists x, In x data /\ key_eqb (key x) k = true.
Proof.
  unfold remove.
  destruct (Nat.ltb_spec (length (filter (fun obj => negb (key_eqb (key obj) k)) data))
              (length data)) as [Hlt | Hge]; simpl.
  - apply filter_length_lt in Hlt as (x & Hx & Hf).
    apply negb_false_iff in Hf. split; eauto.
  - split; [discriminate|]. intros (x & Hx & Hf). exfalso.
    assert (length (filter (fun obj => negb (key_eqb (key obj) k)) data) < length data)%nat;
      [|lia].
    apply filter_length_lt. exists x. split; auto. now apply negb_false_iff.
Qed.

Lemma remove_sorted (comp : KeyType -> KeyType -> bool) data k :
  sorted_by_key comp key data ->
  sorted_by_key comp key (snd (remove key_eqb key data k)).
Proof.
  intros Hs. rewrite remove_snd. now apply StronglySorted_filter.
Qed.
End RemoveFacts.
End TreeFacts.

(** ** The two key orders: [less<int>] and [less<string>] *)

Lemma Z_ltb_swo : strict_weak_order Z.ltb.
Proof.
  repeat split.
  - intros a. apply Z.ltb_irrefl.
  - intros a b c Hab Hbc. apply Z.ltb_lt in Hab, Hbc. apply Z.ltb_lt. lia.
  - intros a b c Hac. apply Z.ltb_lt in Hac.
    destruct (Z.ltb_spec a b); auto. right. apply Z.ltb_lt. lia.
Qed.

Lemma Z_equiv_eq a b :
  ConceptualBPlusTree.equiv_keys Z.ltb a b = true <-> a = b.
Proof.
  unfold ConceptualBPlusTree.equiv_keys.
  rewrite andb_true_iff, !negb_true_iff, !Z.ltb_ge. lia.
Qed.

Lemma ascii_compare_refl c : Ascii.compare c c = Eq.
Proof. unfold Ascii.compare. apply N.compare_refl. Qed.

Lemma ascii_compare_lt_trans a b c :
  Ascii.compare a b = Lt -> Ascii.compare b c = Lt -> Ascii.compare a c = Lt.
Proof.
  unfold Ascii.compare. rewrite !N.compare_lt_iff. lia.
Qed.

Lemma string_compare_refl s : String.compare s s = Eq.
Proof.
  induction s as [|c s IH]; simpl; auto. now rewrite ascii_compare_refl.
Qed.

Lemma string_compare_lt_trans a : forall b c,
  String.compare a b = Lt -> String.compare b c = Lt -> String.compare a c = Lt.
Proof.
  induction a as [|x a IH]; intros [|y b] [|z c]; simpl; try congruence.
  destruct (Ascii.compare x y) eqn:Hxy; try discriminate;
    destruct (Ascii.compare y z) eqn:Hyz; try discriminate; intros Hab Hbc.
  - apply Ascii.compare_eq_iff in Hxy, Hyz. subst.
    rewrite ascii_compare_refl. eauto.
  - apply Ascii.compare_eq_iff in Hxy. subst. now rewrite Hyz.
  - apply Ascii.compare_eq_iff in Hyz. subst. now rewrite Hxy.
  - now rewrite (ascii_compare_lt_trans _ _ _ Hxy Hyz).
Qed.

Lemma string_ltb_lt a b : String.ltb a b = true <-> String.compare a b = Lt.
Proof.
  unfold String.ltb. destruct (String.compare a b); split; congruence.
Qed.

Lemma string_trichotomy a b :
  String.ltb a b = true \/ a = b \/ String.ltb b a = true.
Proof.
  rewrite !string_ltb_lt.
  destruct (String.compare a b) eqn:Hab.
  - right. left. now apply String.compare_eq_iff.
  - now left.
  - right. right. rewrite String.compare_antisym, Hab. reflexivity.
Qed.

Lemma string_ltb_irrefl a : String.ltb a a = false.
Proof. unfold String.ltb. now rewrite string_compare_refl. Qed.

Lemma string_ltb_trans a b c :
  String.ltb a b = true -> String.ltb b c = true -> String.ltb a c = true.
Proof. rewrite !string_ltb_lt. apply string_compare_lt_trans. Qed.

Lemma string_ltb_swo : strict_weak_order String.ltb.
Proof.
  repeat split.
  - apply string_ltb_irrefl.
  - apply string_ltb_trans.
  - intros a b c Hac.
    destruct (string_trichotomy a b) as [Hab | [-> | Hba]]; auto.
    right. eapply string_ltb_trans; eauto.
Qed.

Lemma string_equiv_eq a b :
  ConceptualBPlusTree.equiv_keys String.ltb a b = true <-> a = b.
Proof.
  unfold ConceptualBPlusTree.equiv_keys. rewrite andb_true_iff, !negb_true_iff. split.
  - intros [Hab Hba]. destruct (string_trichotomy a b) as [H | [H | H]]; congruence.
  - intros ->. now rewrite string_ltb_irrefl.
Qed.

Lemma string_empty_spec s : string_empty s = true <-> s = EmptyString.
Proof. destruct s; simpl; split; congruence. Qed.

(** ** The insert contract of the container *)

(** C9. For a store sorted by key under a strict weak ordering: when an
    element whose key is equivalent to the item's key (neither is less than
    the other) is present, [insert] returns the store unchanged; when there
    is none, [insert] puts exactly that item between two parts of the old
    contents and the store is still sorted by key. *)
Theorem insert_contract {T KeyType : Type}
    (comp : KeyType -> KeyType -> bool) (key_extractor : T -> KeyType)
    (data : list T) (item : T) :
  strict_weak_order comp ->
  ConceptualBPlusTree.sorted_by_key comp key_extractor data ->
  ((exists x, In x data /\
      ConceptualBPlusTree.equiv_keys comp (key_extractor item) (key_extractor x) = true) ->
   ConceptualBPlusTree.insert comp key_extractor data item = data) /\
  ((forall x, In x data ->
      ConceptualBPlusTree.equiv_keys comp (key_extractor item) (key_extractor x) = false) ->
   exists before after,
     data = before ++ after /\
     ConceptualBPlusTree.insert comp key_extractor data item = before ++ item :: after /\
     ConceptualBPlusTree.sorted_by_key comp key_extractor
       (ConceptualBPlusTree.insert comp key_extractor data item)).
Proof.
  intros Hswo Hs. split.
  - now apply TreeFacts.insert_present.
  - intros Hfree.
    destruct (TreeFacts.insert_absent comp key_extractor Hswo data item Hs Hfree)
      as (Hins & _ & _ & Hsorted).
    eexists _, _. split; [|split; [exact Hins | exact Hsorted]].
    symmetry. apply firstn_skipn.
Qed.

Lemma insert_contract_witness :
  strict_weak_order Z.ltb /\
  ConceptualBPlusTree.sorted_by_key Z.ltb Individual.id people_1_3_5 /\
  exists before after,
    people_1_3_5 = before ++ after /\
    ConceptualBPlusTree.insert Z.ltb Individual.id people_1_3_5 (person 4 9000)
      = before ++ person 4 9000 :: after /\
    ConceptualBPlusTree.sorted_by_key Z.ltb Individual.id
      (ConceptualBPlusTree.insert Z.ltb Individual.id people_1_3_5 (person 4 9000)).
Proof.
  assert (Hs : ConceptualBPlusTree.sorted_by_key Z.ltb Individual.id people_1_3_5)
    by (repeat constructor).
  split; [exact Z_ltb_swo|]. split; [exact Hs|].
  destruct (insert_contract Z.ltb Individual.id people_1_3_5 (person 4 9000)
              Z_ltb_swo Hs) as [_ Habsent].
  apply Habsent. intros x [<- | [<- | [<- | []]]]; reflexivity.
Defined.

Example insert_taken_key :
  ConceptualBPlusTree.insert Z.ltb Individual.id people_1_3_5 (person 3 100)
  = people_1_3_5.
Proof. reflexivity. Qed.

Example insert_free_key :
  map Individual.id
    (ConceptualBPlusTree.insert Z.ltb Individual.id people_1_3_5 (person 4 9000))
  = [1; 3; 4; 5].
Proof. reflexivity. Qed.

(** ** Integer vectors: [sort], [unique], [std::set<int>] *)

Lemma sorted_insert_In x l y : In y (sorted_insert x l) <-> y = x \/ In y l.
Proof.
  induction l as [|a l IH]; simpl.
  - intuition.
  - destruct (x <=? a); simpl; rewrite ?IH; intuition.
Qed.

Lemma sorted_insert_sorted x l :
  StronglySorted Z.le l -> StronglySorted Z.le (sorted_insert x l).
Proof.
  induction 1 as [|a l Hs IH Hall]; simpl.
  - repeat constructor.
  - destruct (Z.leb_spec x a).
    + constructor; [now constructor|].
      constructor; auto. eapply Forall_impl; [|exact Hall]. simpl. lia.
    + constructor; auto. rewrite Forall_forall in *.
      intros y Hy. apply sorted_insert_In in Hy as [-> | Hy]; [lia | auto].
Qed.

Lemma sort_ints_In l y : In y (sort_ints l) <-> In y l.
Proof.
  induction l as [|a l IH]; simpl; [tauto|].
  rewrite sorted_insert_In, IH. intuition.
Qed.

Lemma sort_ints_sorted l : StronglySorted Z.le (sort_ints l).
Proof.
  induction l as [|a l IH]; simpl; [constructor|]. now apply sorted_insert_sorted.
Qed.

Lemma sort_ints_length l : length (sort_ints l) = length l.
Proof.
  induction l as [|a l IH]; simpl; auto. rewrite <- IH. clear IH.
  induction (sort_ints l) as [|b s IHs]; simpl; auto.
  destruct (a <=? b); simpl; auto.
Qed.

Lemma unique_from_In prev l y : In y (unique_from prev l) -> In y l.
Proof.
  revert prev. induction l as [|a l IH]; simpl; intros prev; auto.
  destruct (prev =? a); simpl; intros H; [eauto|]. destruct H; eauto.
Qed.

Lemma In_unique_from prev l y : In y l -> y = prev \/ In y (unique_from prev l).
Proof.
  revert prev. induction l as [|a l IH]; simpl; intros prev; [tauto|].
  intros [-> | Hy].
  - destruct (Z.eqb_spec prev y); [auto | right; now left].
  - destruct (Z.eqb_spec prev a) as [-> | Hne]; [auto|].
    destruct (IH a Hy) as [-> | H]; right; simpl; auto.
Qed.

Lemma unique_In l y : In y (unique l) <-> In y l.
Proof.
  destruct l as [|a l]; simpl; [tauto|]. split.
  - intros [-> | H]; auto. right. eapply unique_from_In; eauto.
  - intros [-> | H]; auto. destruct (In_unique_from a l y H); auto.
Qed.

Lemma unique_from_sorted prev l :
  StronglySorted Z.le (prev :: l) -> StronglySorted Z.lt (prev :: unique_from prev l).
Proof.
  revert prev. induction l as [|a l IH]; simpl; intros prev Hs.
  - repeat constructor.
  - apply StronglySorted_inv in Hs as [Hs Hall].
    pose proof Hs as Hs'. apply StronglySorted_inv in Hs' as [Hl Hal].
    inversion Hall as [|? ? Hpa Hpl]; subst.
    destruct (Z.eqb_spec prev a) as [-> | Hne].
    + apply IH. now constructor.
    + specialize (IH a Hs). constructor; auto.
      apply StronglySorted_inv in IH as [_ Hau].
      constructor; [lia|]. eapply Forall_impl; [|exact Hau]. simpl. lia.
Qed.

Lemma unique_sorted l : StronglySorted Z.le l -> StronglySorted Z.lt (unique l).
Proof.
  destruct l as [|a l]; simpl; [constructor|]. apply unique_from_sorted.
Qed.

Lemma unique_from_length prev l : (length (unique_from prev l) <= length l)%nat.
Proof.
  revert prev. induction l as [|a l IH]; simpl; intros prev; auto.
  destruct (prev =? a); simpl; [specialize (IH prev) | specialize (IH a)]; lia.
Qed.

Lemma unique_length l : (length (unique l) <= length l)%nat.
Proof.
  destruct l as [|a l]; simpl; auto. pose proof (unique_from_length a l). lia.
Qed.

(** A strictly increasing vector is left as it is by the constructor of
    [Group]. *)
Lemma sort_ints_increasing l : StronglySorted Z.lt l -> sort_ints l = l.
Proof.
  induction 1 as [|a l Hs IH Hall]; simpl; auto.
  rewrite IH. destruct l as [|b l]; simpl; auto.
  inversion Hall; subst. destruct (Z.leb_spec a b); [auto | lia].
Qed.

Lemma unique_increasing l : StronglySorted Z.lt l -> unique l = l.
Proof.
  destruct l as [|a l]; simpl; auto. intros Hs. f_equal.
  revert a Hs. induction l as [|b l IH]; simpl; intros a Hs; auto.
  apply StronglySorted_inv in Hs as [Hs Hall]. inversion Hall; subst.
  destruct (Z.eqb_spec a b); [lia|]. f_equal. now apply IH.
Qed.

Lemma increasing_NoDup l : StronglySorted Z.lt l -> NoDup l.
Proof.
  induction 1 as [|a l Hs IH Hall]; constructor; auto.
  rewrite Forall_forall in Hall. intros Hin. specialize (Hall _ Hin). lia.
Qed.

Lemma set_insert_In x s y : In y (set_insert x s) <-> y = x \/ In y s.
Proof.
  induction s as [|a s IH]; simpl; [intuition|].
  destruct (Z.ltb_spec x a); simpl; [intuition|].
  destruct (Z.ltb_spec a x); simpl; [rewrite IH; intuition|].
  assert (a = x) by lia. subst. intuition.
Qed.

Lemma set_insert_sorted x s :
  StronglySorted Z.lt s -> StronglySorted Z.lt (set_insert x s).
Proof.
  induction 1 as [|a s Hs IH Hall]; simpl.
  - repeat constructor.
  - destruct (Z.ltb_spec x a).
    + constructor; [now constructor|]. constructor; auto.
      eapply Forall_impl; [|exact Hall]. simpl. lia.
    + destruct (Z.ltb_spec a x); [|now constructor].
      constructor; auto. rewrite Forall_forall in *.
      intros y Hy. apply set_insert_In in Hy as [-> | Hy]; auto.
Qed.

Lemma set_insert_all_In l : forall s y,
  In y (fold_left (fun s id => set_insert id s) l s) <-> In y l \/ In y s.
Proof.
  induction l as [|a l IH]; simpl; intros s y; [tauto|].
  rewrite IH, set_insert_In. intuition.
Qed.

Lemma set_insert_all_sorted l : forall s,
  StronglySorted Z.lt s ->
  StronglySorted Z.lt (fold_left (fun s id => set_insert id s) l s).
Proof.
  induction l as [|a l IH]; simpl; intros s Hs; auto.
  apply IH. now apply set_insert_sorted.
Qed.

Lemma merged_member_set_In g1 g2 y :
  In y (StepTrackerApp.merged_member_set g1 g2) <->
  In y (Group.member_ids g1) \/ In y (Group.member_ids g2).
Proof.
  unfold StepTrackerApp.merged_member_set.
  rewrite !set_insert_all_In. simpl. tauto.
Qed.

Lemma merged_member_set_sorted g1 g2 :
  StronglySorted Z.lt (StepTrackerApp.merged_member_set g1 g2).
Proof.
  unfold StepTrackerApp.merged_member_set.
  apply set_insert_all_sorted, set_insert_all_sorted. constructor.
Qed.

(** The size of the [set] is the number of distinct ids of the two groups. *)
Lemma merged_member_set_length g1 g2 :
  length (StepTrackerApp.merged_member_set g1 g2) =
  length (nodup Z.eq_dec (Group.member_ids g1 ++ Group.member_ids g2)).
Proof.
  apply Permutation_length, NoDup_Permutation.
  - apply increasing_NoDup, merged_member_set_sorted.
  - apply NoDup_nodup.
  - intros y. rewrite merged_member_set_In, nodup_In, in_app_iff. tauto.
Qed.

(** ** Looking up individuals and groups *)

Module AppFacts.
Import StepTrackerApp.

Abbreviation sorted_inds := (ConceptualBPlusTree.sorted_by_key Z.ltb Individual.id).
Abbreviation sorted_grps := (ConceptualBPlusTree.sorted_by_key String.ltb Group.group_id).

Lemma find_group_Some_inv grps gid p g :
  find_group grps gid = Some (p, g) ->
  grp_search grps gid = Some p /\ nth_error grps p = Some g /\ Group.group_id g = gid.
Proof.
  unfold find_group. destruct (grp_search grps gid) as [q|] eqn:Hs; [|discriminate].
  destruct (TreeFacts.search_Some_inv _ _ _ _ _ Hs) as (x & Hx & He).
  rewrite Hx. simpl. intros [= <- <-]. apply string_equiv_eq in He. auto.
Qed.

Lemma find_group_nth grps p g :
  sorted_grps grps -> nth_error grps p = Some g ->
  find_group grps (Group.group_id g) = Some (p, g).
Proof.
  intros Hs Hp. unfold find_group, grp_search.
  rewrite (TreeFacts.search_complete String.ltb Group.group_id string_ltb_swo
             grps (Group.group_id g) p g Hs Hp).
  - now rewrite Hp.
  - now apply string_equiv_eq.
Qed.

Lemma find_group_In grps g :
  sorted_grps grps -> In g grps ->
  exists p, find_group grps (Group.group_id g) = Some (p, g).
Proof.
  intros Hs Hin. apply In_nth_error in Hin as [p Hp].
  exists p. now apply find_group_nth.
Qed.

Lemma find_group_None_iff grps gid :
  sorted_grps grps ->
  (find_group grps gid = None <-> forall g, In g grps -> Group.group_id g <> gid).
Proof.
  intros Hs. split.
  - intros Hnone g Hin Heq. destruct (find_group_In grps g Hs Hin) as [p Hp].
    rewrite Heq in Hp. congruence.
  - intros Hfree. destruct (find_group grps gid) as [[p g]|] eqn:Hf; auto.
    apply find_group_Some_inv in Hf as (_ & Hp & Hg).
    exfalso. apply (Hfree g); auto. eapply nth_error_In; eauto.
Qed.

Lemma grp_search_find_group grps gid :
  grp_search grps gid = None <-> find_group grps gid = None.
Proof.
  unfold find_group. destruct (grp_search grps gid) as [p|] eqn:Hs; [|tauto].
  destruct (TreeFacts.search_Some_inv _ _ _ _ _ Hs) as (x & Hx & _).
  rewrite Hx. simpl. split; discriminate.
Qed.

Lemma find_individual_Some_inv inds id p x :
  find_individual inds id = Some (p, x) ->
  ind_search inds id = Some p /\ nth_error inds p = Some x /\ Individual.id x = id.
Proof.
  unfold find_individual. destruct (ind_search inds id) as [q|] eqn:Hs; [|discriminate].
  destruct (TreeFacts.search_Some_inv _ _ _ _ _ Hs) as (y & Hy & He).
  rewrite Hy. simpl. intros [= <- <-]. apply Z_equiv_eq in He. auto.
Qed.

Lemma find_individual_nth inds p x :
  sorted_inds inds -> nth_error inds p = Some x ->
  find_individual inds (Individual.id x) = Some (p, x).
Proof.
  intros Hs Hp. unfold find_individual, ind_search.
  rewrite (TreeFacts.search_complete Z.ltb Individual.id Z_ltb_swo
             inds (Individual.id x) p x Hs Hp).
  - now rewrite Hp.
  - now apply Z_equiv_eq.
Qed.

Lemma find_individual_In inds x :
  sorted_inds inds -> In x inds ->
  exists p, find_individual inds (Individual.id x) = Some (p, x).
Proof.
  intros Hs Hin. apply In_nth_error in Hin as [p Hp].
  exists p. now apply find_individual_nth.
Qed.

Lemma find_individual_None_iff inds id :
  sorted_inds inds ->
  (find_individual inds id = None <-> forall x, In x inds -> Individual.id x <> id).
Proof.
  intros Hs. split.
  - intros Hnone x Hin Heq. destruct (find_individual_In inds x Hs Hin) as [p Hp].
    rewrite Heq in Hp. congruence.
  - intros Hfree. destruct (find_individual inds id) as [[p x]|] eqn:Hf; auto.
    apply find_individual_Some_inv in Hf as (_ & Hp & Hx).
    exfalso. apply (Hfree x); auto. eapply nth_error_In; eauto.
Qed.

Lemma ind_search_find_individual inds id p :
  ind_search inds id = Some p ->
  exists x, find_individual inds id = Some (p, x) /\ nth_error inds p = Some x.
Proof.
  intros Hs. unfold find_individual. rewrite Hs.
  destruct (TreeFacts.search_Some_inv _ _ _ _ _ Hs) as (x & Hx & _).
  exists x. rewrite Hx. simpl. auto.
Qed.

(** Two positions of a sorted tree that hold the same id are the same. *)
Lemma sorted_inds_unique inds p q x y :
  sorted_inds inds -> nth_error inds p = Some x -> nth_error inds q = Some y ->
  Individual.id x = Individual.id y -> p = q.
Proof.
  intros Hs Hp Hq Hid.
  pose proof (find_individual_nth inds p x Hs Hp) as H1.
  pose proof (find_individual_nth inds q y Hs Hq) as H2.
  rewrite Hid in H1. congruence.
Qed.

Lemma sorted_grps_unique grps p q x y :
  sorted_grps grps -> nth_error grps p = Some x -> nth_error grps q = Some y ->
  Group.group_id x = Group.group_id y -> p = q.
Proof.
  intros Hs Hp Hq Hid.
  pose proof (find_group_nth grps p x Hs Hp) as H1.
  pose proof (find_group_nth grps q y Hs Hq) as H2.
  rewrite Hid in H1. congruence.
Qed.

End AppFacts.

(** ** Group operations *)

Import StepTrackerApp.

(** C2. When two stored groups have more than [MAX_MEMBERS] distinct member
    ids between them, [merge_groups] returns from its "too many members"
    exit and the state it leaves is the state it was given: both groups and
    all individuals are as before. *)
Theorem merge_groups_cap_atomic app g1 g2 new_group_name new_weekly_goal :
  well_formed app ->
  In g1 (groups_tree app) -> In g2 (groups_tree app) ->
  (Group.MAX_MEMBERS <
     length (nodup Z.eq_dec (Group.member_ids g1 ++ Group.member_ids g2)))%nat ->
  merge_groups (Group.group_id g1) (Group.group_id g2)
    new_group_name new_weekly_goal app
  = (MergeTooManyMembers, app).
Proof.
  intros [_ Hs] Hin1 Hin2 Hcap.
  destruct (AppFacts.find_group_In _ _ Hs Hin1) as [p1 Hf1].
  destruct (AppFacts.find_group_In _ _ Hs Hin2) as [p2 Hf2].
  unfold merge_groups. rewrite Hf1, Hf2.
  rewrite merged_member_set_length.
  apply Nat.ltb_lt in Hcap. now rewrite Hcap.
Qed.

Lemma merge_groups_cap_atomic_witness :
  well_formed two_full_groups /\
  In (Group.new "G1" "Walkers" [1; 2; 3] 30000) (groups_tree two_full_groups) /\
  In (Group.new "G2" "Runners" [4; 5; 6] 20000) (groups_tree two_full_groups) /\
  (Group.MAX_MEMBERS < length (nodup Z.eq_dec ([1; 2; 3] ++ [4; 5; 6])%Z))%nat /\
  merge_groups "G1" "G2" "Combined" 500 two_full_groups
  = (MergeTooManyMembers, two_full_groups).
Proof.
  assert (Hwf : well_formed two_full_groups) by (split; repeat constructor).
  assert (H1 : In (Group.new "G1" "Walkers" [1; 2; 3] 30000) (groups_tree two_full_groups))
    by (simpl; auto).
  assert (H2 : In (Group.new "G2" "Runners" [4; 5; 6] 20000) (groups_tree two_full_groups))
    by (simpl; auto).
  assert (Hcap : (Group.MAX_MEMBERS < length (nodup Z.eq_dec ([1; 2; 3] ++ [4; 5; 6])%Z))%nat)
    by (vm_compute; lia).
  repeat (split; [assumption|]).
  exact (merge_groups_cap_atomic two_full_groups _ _ "Combined" 500 Hwf H1 H2 Hcap).
Defined.

(** C5, as amended.  A candidate list longer than [MAX_MEMBERS] makes
    [create_group] fail and leave the state as it was, whatever filtering
    would have kept: through the "too many members" exit when no group has
    the id, through the "already exists" exit, which is tested first, when
    one has. *)
Theorem create_group_cap_on_request app group_id group_name member_ids weekly_group_goal :
  (Group.MAX_MEMBERS < length member_ids)%nat ->
  let result := create_group group_id group_name member_ids weekly_group_goal app in
  snd result = app /\
  create_group_returns (fst result) = false /\
  (find_group (groups_tree app) group_id = None -> fst result = TooManyMembers) /\
  (find_group (groups_tree app) group_id <> None -> fst result = GroupAlreadyExists).
Proof.
  intros Hcap. apply Nat.ltb_lt in Hcap. unfold create_group.
  pose proof (AppFacts.grp_search_find_group (groups_tree app) group_id) as Hsf.
  destruct (grp_search (groups_tree app) group_id) as [p|] eqn:Hs; simpl.
  - repeat split; auto. intros Hnone. apply Hsf in Hnone. discriminate.
  - rewrite Hcap. simpl. repeat split; auto.
    intros Hsome. exfalso. apply Hsome. now apply Hsf.
Qed.

Lemma create_group_cap_on_request_witness :
  (Group.MAX_MEMBERS < length [1; 1; 2; 77; 3; 4]%Z)%nat /\
  create_group "G1" "Team" [1; 1; 2; 77; 3; 4] 1000 six_people
  = (TooManyMembers, six_people).
Proof.
  assert (Hcap : (Group.MAX_MEMBERS < length [1; 1; 2; 77; 3; 4]%Z)%nat)
    by (vm_compute; lia).
  split; [exact Hcap|].
  destruct (create_group_cap_on_request six_people "G1" "Team" [1; 1; 2; 77; 3; 4] 1000 Hcap)
    as (Hstate & _ & Hfree & _).
  rewrite (surjective_pairing (create_group _ _ _ _ _)).
  rewrite Hstate, Hfree; reflexivity.
Defined.

(** C5 as stated fails where the group id is taken: the request with six
    candidates is refused because the group exists, not because of the cap. *)
Lemma create_group_cap_counterexample :
  (Group.MAX_MEMBERS < length [1; 2; 3; 4; 5; 6]%Z)%nat /\
  fst (create_group "G1" "Team" [1; 2; 3; 4; 5; 6] 1000 two_small_groups)
  = GroupAlreadyExists /\
  fst (create_group "G1" "Team" [1; 2; 3; 4; 5; 6] 1000 two_small_groups)
  <> TooManyMembers.
Proof.
  split; [vm_compute; lia|]. split; [reflexivity | discriminate].
Qed.

(** ** Ranking: who is eligible *)

Lemma pointers_where_In {A} (test : A -> bool) l : forall pos p,
  In p (pointers_where test pos l) <->
  (pos <= p)%nat /\ exists x, nth_error l (p - pos) = Some x /\ test x = true.
Proof.
  induction l as [|a l IH]; intros pos p; simpl.
  - split; [tauto|]. intros (_ & x & Hx & _). destruct (p - pos)%nat; discriminate.
  - assert (Hrest : In p (pointers_where test (S pos) l) <->
                    (pos < p)%nat /\ exists x, nth_error (a :: l) (p - pos) = Some x /\ test x = true).
    { rewrite IH. split; intros (Hle & x & Hx & Ht); (split; [lia|]); exists x; split; auto.
      - replace (p - pos)%nat with (S (p - S pos)) by lia. exact Hx.
      - replace (p - pos)%nat with (S (p - S pos)) in Hx by lia. exact Hx. }
    assert (Hhere : forall x, nth_error (a :: l) (pos - pos) = Some x -> x = a).
    { intros x. rewrite Nat.sub_diag. simpl. congruence. }
    destruct (test a) eqn:Hta; simpl; rewrite Hrest.
    + split.
      * intros [<- | (Hlt & Hx)]; [|split; [lia | exact Hx]].
        split; [lia|]. exists a. rewrite Nat.sub_diag. auto.
      * intros (Hle & Hx). destruct (Nat.eq_dec pos p); [auto|]. right. split; [lia | exact Hx].
    + split.
      * intros (Hlt & Hx). split; [lia | exact Hx].
      * intros (Hle & x & Hx & Ht). split; [|eauto].
        destruct (Nat.eq_dec pos p) as [<- | Hne]; [|lia].
        apply Hhere in Hx. congruence.
Qed.

Lemma pointers_where_increasing {A} (test : A -> bool) l : forall pos,
  StronglySorted lt (pointers_where test pos l).
Proof.
  induction l as [|a l IH]; intros pos; simpl; [constructor|].
  destruct (test a); auto. constructor; auto.
  apply Forall_forall. intros p Hp. apply pointers_where_In in Hp. lia.
Qed.

Lemma met_daily_goal_spec individual :
  met_daily_goal individual = true <->
  Individual.weekly_step_count individual <> [] /\
  Individual.daily_step_goal individual <= last (Individual.weekly_step_count individual) 0.
Proof.
  unfold met_daily_goal, back.
  destruct (Individual.weekly_step_count individual) as [|s rest].
  - split; [discriminate | intros [H _]; now elim H].
  - rewrite Z.leb_le. split; [intros H; split; [discriminate | exact H] | tauto].
Qed.

(** Scenario C of the specification. *)
Example eligible_on_last_day_only :
  met_daily_goal
    (Individual.new 7 "Late" 40 5000 [3000; 3000; 3000; 3000; 3000; 3000; 9000])
  = true.
Proof. reflexivity. Qed.

(** ** Ranking: what is written *)




(** ** Assigning and clearing group ids *)

Lemma existsb_eqb_In x l : existsb (Z.eqb x) l = true <-> In x l.
Proof.
  rewrite existsb_exists. split.
  - intros (y & Hy & He). apply Z.eqb_eq in He. now subst.
  - intros H. exists x. split; auto. apply Z.eqb_refl.
Qed.

Lemma update_at_as_map {A} (test : A -> bool) (f : A -> A) l : forall p x,
  nth_error l p = Some x -> test x = true ->
  (forall q y, nth_error l q = Some y -> test y = true -> q = p) ->
  update_at p f l = map (fun y => if test y then f y else y) l.
Proof.
  induction l as [|a l IH]; intros p x Hp Ht Huniq.
  - destruct p; discriminate.
  - destruct p as [|p]; simpl in *.
    + injection Hp as ->. rewrite Ht. f_equal.
      rewrite <- (map_id l) at 1. apply map_ext_in.
      intros y Hy. destruct (test y) eqn:Hty; auto.
      apply In_nth_error in Hy as [q Hq].
      specialize (Huniq (S q) y Hq Hty). discriminate.
    + destruct (test a) eqn:Hta.
      * specialize (Huniq 0%nat a eq_refl Hta). discriminate.
      * f_equal. apply (IH p x); auto.
        intros q y Hq Hty. specialize (Huniq (S q) y Hq Hty). lia.
Qed.

Lemma sorted_inds_same_ids inds inds' :
  map Individual.id inds' = map Individual.id inds ->
  AppFacts.sorted_inds inds -> AppFacts.sorted_inds inds'.
Proof.
  unfold ConceptualBPlusTree.sorted_by_key. intros Hmap Hs.
  apply (StronglySorted_map_iff Individual.id (fun a b => Z.ltb a b = true)) in Hs.
  apply (StronglySorted_map_iff Individual.id (fun a b => Z.ltb a b = true)).
  now rewrite Hmap.
Qed.

Lemma regroup_id g mids x : Individual.id (regroup g mids x) = Individual.id x.
Proof. unfold regroup. destruct (existsb _ _); reflexivity. Qed.

Lemma map_regroup_ids g mids inds :
  map Individual.id (map (regroup g mids) inds) = map Individual.id inds.
Proof. rewrite map_map. apply map_ext. intros x. apply regroup_id. Qed.

Lemma assign_group_as_map g inds mid :
  AppFacts.sorted_inds inds ->
  assign_group g inds mid = map (regroup g [mid]) inds.
Proof.
  intros Hs. unfold assign_group.
  assert (Htest : forall y, existsb (Z.eqb (Individual.id y)) [mid] = (Individual.id y =? mid)).
  { intros y. simpl. apply orb_false_r. }
  destruct (ind_search inds mid) as [p|] eqn:Hsearch.
  - destruct (AppFacts.ind_search_find_individual _ _ _ Hsearch) as (x & Hf & Hp).
    apply AppFacts.find_individual_Some_inv in Hf as (_ & _ & Hid).
    unfold regroup.
    rewrite (update_at_as_map (fun y => Individual.id y =? mid) _ inds p x Hp).
    + apply map_ext. intros y. now rewrite Htest.
    + now apply Z.eqb_eq.
    + intros q y Hq Hy. apply Z.eqb_eq in Hy.
      apply (AppFacts.sorted_inds_unique inds q p y x Hs Hq Hp). congruence.
  - rewrite <- (map_id inds) at 1. apply map_ext_in. intros y Hy.
    unfold regroup. rewrite Htest.
    destruct (Z.eqb_spec (Individual.id y) mid) as [Heq | Hne]; auto.
    exfalso.
    pose proof (TreeFacts.search_None_inv Z.ltb Individual.id Z_ltb_swo inds mid Hs Hsearch y Hy)
      as He.
    rewrite <- Heq in He.
    assert (ConceptualBPlusTree.equiv_keys Z.ltb (Individual.id y) (Individual.id y) = true)
      by now apply Z_equiv_eq.
    congruence.
Qed.

Lemma regroup_regroup g m1 m2 x :
  regroup g m2 (regroup g m1 x) = regroup g (m1 ++ m2) x.
Proof.
  unfold regroup. rewrite existsb_app.
  destruct (existsb (Z.eqb (Individual.id x)) m1) eqn:H1; simpl.
  - destruct (existsb _ m2); reflexivity.
  - reflexivity.
Qed.

(** On a tree with unique ids the loop sets the group id of exactly the
    individuals whose id is in the list. *)
Lemma assign_group_all_as_map g mids : forall inds,
  AppFacts.sorted_inds inds ->
  assign_group_all g mids inds = map (regroup g mids) inds.
Proof.
  unfold assign_group_all.
  induction mids as [|m mids IH]; intros inds Hs; simpl.
  - rewrite <- (map_id inds) at 1. apply map_ext. reflexivity.
  - rewrite assign_group_as_map by exact Hs.
    rewrite IH by (eapply sorted_inds_same_ids; [apply map_regroup_ids | exact Hs]).
    rewrite map_map. apply map_ext. intros x.
    now rewrite regroup_regroup.
Qed.

Lemma assign_group_all_sorted g mids inds :
  AppFacts.sorted_inds inds -> AppFacts.sorted_inds (assign_group_all g mids inds).
Proof.
  intros Hs. rewrite assign_group_all_as_map by exact Hs.
  eapply sorted_inds_same_ids; [apply map_regroup_ids | exact Hs].
Qed.

(** ** [delete_group] *)

Lemma grp_remove_found grps gid p g :
  find_group grps gid = Some (p, g) ->
  grp_remove grps gid = (true, filter (other_group gid) grps).
Proof.
  intros Hf. apply AppFacts.find_group_Some_inv in Hf as (_ & Hp & Hg).
  rewrite (surjective_pairing (grp_remove grps gid)).
  unfold grp_remove. rewrite TreeFacts.remove_snd. f_equal.
  apply TreeFacts.remove_fst. exists g. split.
  - eapply nth_error_In; eauto.
  - now apply String.eqb_eq.
Qed.

Lemma delete_group_found app gid p g :
  find_group (groups_tree app) gid = Some (p, g) ->
  delete_group gid app =
  (true, mk (assign_group_all EmptyString (Group.member_ids g) (individuals_tree app))
            (filter (other_group gid) (groups_tree app))).
Proof.
  intros Hf. unfold delete_group. rewrite Hf.
  now rewrite (grp_remove_found _ _ _ _ Hf).
Qed.

Lemma find_group_removed grps gid :
  find_group (filter (other_group gid) grps) gid = None.
Proof.
  destruct (find_group _ gid) as [[p g]|] eqn:Hf; auto.
  apply AppFacts.find_group_Some_inv in Hf as (_ & Hp & Hg).
  apply nth_error_In, filter_In in Hp as [_ Hother].
  unfold other_group in Hother. rewrite Hg, String.eqb_refl in Hother. discriminate.
Qed.

Lemma delete_group_not_found app gid :
  find_group (groups_tree app) gid = None -> delete_group gid app = (false, app).
Proof. intros Hf. unfold delete_group. now rewrite Hf. Qed.

(** ** [merge_groups] *)

Lemma merged_member_set_self_length g :
  (length (merged_member_set g g) <= length (Group.member_ids g))%nat.
Proof.
  apply NoDup_incl_length.
  - apply increasing_NoDup, merged_member_set_sorted.
  - intros y Hy. apply merged_member_set_In in Hy. tauto.
Qed.

Lemma merged_member_set_self_distinct g :
  length (merged_member_set g g) = length (nodup Z.eq_dec (Group.member_ids g)).
Proof.
  apply Permutation_length, NoDup_Permutation.
  - apply increasing_NoDup, merged_member_set_sorted.
  - apply NoDup_nodup.
  - intros y. rewrite merged_member_set_In, nodup_In. tauto.
Qed.

(** C10, as amended.  Merging a stored group with itself returns
    [false].  When the group has at most [MAX_MEMBERS] distinct members it
    fails after the fact: the first [delete_group] has removed the group
    and cleared the group id of its members, the second finds nothing to
    delete, and [merge_groups] returns from there without creating a group.
    When the group has more distinct members, as a group read from the
    groups file may have, the test of the limit comes first and the state
    stays as it is. *)
Theorem self_merge_deletes_group app g new_group_name new_weekly_goal :
  well_formed app ->
  In g (groups_tree app) ->
  let result :=
    merge_groups (Group.group_id g) (Group.group_id g) new_group_name new_weekly_goal app in
  let distinct := length (nodup Z.eq_dec (Group.member_ids g)) in
  merge_groups_returns (fst result) = false /\
  ((distinct <= Group.MAX_MEMBERS)%nat ->
   fst result = CouldNotDeleteSecond /\
   groups_tree (snd result) = filter (other_group (Group.group_id g)) (groups_tree app) /\
   find_group (groups_tree (snd result)) (Group.group_id g) = None /\
   individuals_tree (snd result)
   = map (regroup EmptyString (Group.member_ids g)) (individuals_tree app) /\
   (forall x, In x (individuals_tree (snd result)) ->
      In (Individual.id x) (Group.member_ids g) ->
      Individual.current_group_id x = EmptyString) /\
   snd result <> app) /\
  ((Group.MAX_MEMBERS < distinct)%nat -> result = (MergeTooManyMembers, app)).
Proof.
  intros [Hsi Hsg] Hin result distinct.
  destruct (AppFacts.find_group_In _ _ Hsg Hin) as [p Hf].
  pose proof (merged_member_set_self_distinct g) as Hlen. fold distinct in Hlen.
  assert (Hover : (Group.MAX_MEMBERS < distinct)%nat -> result = (MergeTooManyMembers, app)).
  { intros Hcap. subst result. unfold merge_groups. rewrite Hf, Hlen.
    apply Nat.ltb_lt in Hcap. now rewrite Hcap. }
  assert (Hunder : (distinct <= Group.MAX_MEMBERS)%nat -> result =
    (CouldNotDeleteSecond,
     mk (map (regroup EmptyString (Group.member_ids g)) (individuals_tree app))
        (filter (other_group (Group.group_id g)) (groups_tree app)))).
  { intros Hcap. subst result. unfold merge_groups. rewrite Hf, Hlen.
    destruct (Nat.ltb_spec Group.MAX_MEMBERS distinct); [lia|].
    rewrite (delete_group_found _ _ _ _ Hf). simpl negb. cbv iota.
    rewrite delete_group_not_found by (simpl; apply find_group_removed).
    simpl. now rewrite assign_group_all_as_map. }
  split; [|split; [|exact Hover]].
  - destruct (Nat.le_gt_cases distinct Group.MAX_MEMBERS) as [Hcap | Hcap].
    + now rewrite (Hunder Hcap).
    + now rewrite (Hover Hcap).
  - intros Hcap. rewrite (Hunder Hcap). simpl. repeat split; auto.
    + apply find_group_removed.
    + intros x Hx Hm. apply in_map_iff in Hx as (y & <- & Hy).
      rewrite regroup_id in Hm. unfold regroup.
      apply existsb_eqb_In in Hm. now rewrite Hm.
    + intros Heq. apply (f_equal groups_tree) in Heq. simpl in Heq.
      rewrite <- Heq in Hin. apply filter_In in Hin as [_ Hother].
      unfold other_group in Hother. rewrite String.eqb_refl in Hother. discriminate.
Qed.

Lemma self_merge_deletes_group_witness :
  well_formed two_small_groups /\
  In (Group.new "G1" "Walkers" [1; 2] 30000) (groups_tree two_small_groups) /\
  (length (nodup Z.eq_dec (Group.member_ids (Group.new "G1" "Walkers" [1; 2]%Z 30000%Z)))
   <= Group.MAX_MEMBERS)%nat /\
  fst (merge_groups "G1" "G1" "Again" 500 two_small_groups) = CouldNotDeleteSecond /\
  map Group.group_id (groups_tree (snd (merge_groups "G1" "G1" "Again" 500 two_small_groups)))
  = ["G2"%string] /\
  map Individual.current_group_id
    (individuals_tree (snd (merge_groups "G1" "G1" "Again" 500 two_small_groups)))
  = [""; ""; "G2"; "G2"; ""; ""]%string.
Proof.
  assert (Hwf : well_formed two_small_groups) by (split; repeat constructor).
  assert (Hin : In (Group.new "G1" "Walkers" [1; 2] 30000) (groups_tree two_small_groups))
    by (simpl; auto).
  assert (Hcap : (length (nodup Z.eq_dec
                            (Group.member_ids (Group.new "G1" "Walkers" [1; 2]%Z 30000%Z)))
                  <= Group.MAX_MEMBERS)%nat) by (vm_compute; lia).
  destruct (self_merge_deletes_group two_small_groups _ "Again" 500 Hwf Hin)
    as (_ & Hunder & _).
  destruct (Hunder Hcap) as (Hfst & Hgrps & _ & Hinds & _).
  split; [exact Hwf|]. split; [exact Hin|]. split; [exact Hcap|]. split; [exact Hfst|].
  split.
  - simpl Group.group_id in Hgrps. rewrite Hgrps. reflexivity.
  - simpl Group.group_id in Hinds. rewrite Hinds. reflexivity.
Defined.

(** C10 as stated fails for a group above the limit.  The groups file may
    hold a group of six, which [_load_data] stores as it is.  Merging that
    group with itself fails at the test of the limit: the group is still
    there afterwards and nothing has changed. *)
Lemma self_merge_oversized_counterexample :
  In (Group.mk "G1" "Crowd" [1; 2; 3; 4; 5; 6] 10000 0)
     (groups_tree (Files.new (Files._save_data true true six_in_a_group no_files))) /\
  merge_groups "G1" "G1" "Again" 500
    (Files.new (Files._save_data true true six_in_a_group no_files))
  = (MergeTooManyMembers, Files.new (Files._save_data true true six_in_a_group no_files)) /\
  fst (merge_groups "G1" "G1" "Again" 500
         (Files.new (Files._save_data true true six_in_a_group no_files)))
  <> CouldNotDeleteSecond /\
  find_group
    (groups_tree
       (snd (merge_groups "G1" "G1" "Again" 500
               (Files.new (Files._save_data true true six_in_a_group no_files)))))
    "G1"
  <> None.
Proof.
  split; [vm_compute; now left|]. split; [vm_compute; reflexivity|].
  split; vm_compute; discriminate.
Qed.

Lemma filter_other_group_sorted gid grps :
  AppFacts.sorted_grps grps -> AppFacts.sorted_grps (filter (other_group gid) grps).
Proof. apply StronglySorted_filter. Qed.

Lemma other_group_spec gid g : other_group gid g = true <-> Group.group_id g <> gid.
Proof.
  unfold other_group. rewrite negb_true_iff. apply String.eqb_neq.
Qed.

Lemma Group_new_increasing gid gname mids goal :
  StronglySorted Z.lt mids -> Group.new gid gname mids goal = Group.mk gid gname mids goal 0.
Proof.
  intros Hs. unfold Group.new.
  now rewrite (sort_ints_increasing mids Hs), (unique_increasing mids Hs).
Qed.

(** Inserting a group whose id is free in a sorted tree: the group is found
    under its id and the others are found as before. *)
Lemma grp_insert_free grps g :
  AppFacts.sorted_grps grps ->
  (forall x, In x grps -> Group.group_id x <> Group.group_id g) ->
  AppFacts.sorted_grps (grp_insert grps g) /\
  In g (grp_insert grps g) /\
  (forall x, In x (grp_insert grps g) <-> x = g \/ In x grps).
Proof.
  intros Hs Hfree.
  assert (Hfree' : forall x, In x grps ->
            ConceptualBPlusTree.equiv_keys String.ltb (Group.group_id g) (Group.group_id x) = false).
  { intros x Hx.
    destruct (ConceptualBPlusTree.equiv_keys String.ltb (Group.group_id g) (Group.group_id x)) eqn:He;
      auto.
    apply string_equiv_eq in He. symmetry in He. now apply Hfree in He. }
  split; [|split].
  - now apply TreeFacts.insert_sorted; [apply string_ltb_swo|].
  - now apply TreeFacts.In_insert_new; [apply string_ltb_swo| |].
  - intros x. split.
    + apply TreeFacts.insert_In.
    + intros [-> | Hx].
      * now apply TreeFacts.In_insert_new; [apply string_ltb_swo| |].
      * now apply TreeFacts.In_insert_old.
Qed.

(** C6. When two stored groups with different ids have at most
    [MAX_MEMBERS] distinct member ids between them, [merge_groups] succeeds.
    In the state it leaves, the first id names a group with the new name and
    goal whose member ids are the union of the two lists, each id once, in
    increasing order; the second id names no group; every individual whose
    id is in the union carries the first id; and the individuals are the
    same people as before. *)
Theorem merge_groups_success app g1 g2 new_group_name new_weekly_goal :
  well_formed app ->
  In g1 (groups_tree app) -> In g2 (groups_tree app) ->
  Group.group_id g1 <> Group.group_id g2 ->
  (length (nodup Z.eq_dec (Group.member_ids g1 ++ Group.member_ids g2))
     <= Group.MAX_MEMBERS)%nat ->
  let result :=
    merge_groups (Group.group_id g1) (Group.group_id g2)
      new_group_name new_weekly_goal app in
  let merged := merged_member_set g1 g2 in
  fst result = Merged /\
  merge_groups_returns (fst result) = true /\
  (exists p, find_group (groups_tree (snd result)) (Group.group_id g1)
             = Some (p, Group.mk (Group.group_id g1) new_group_name merged
                          new_weekly_goal 0)) /\
  (NoDup merged /\ StronglySorted Z.lt merged /\
   forall m, In m merged <-> In m (Group.member_ids g1) \/ In m (Group.member_ids g2)) /\
  find_group (groups_tree (snd result)) (Group.group_id g2) = None /\
  (forall x, In x (individuals_tree (snd result)) ->
     In (Individual.id x) merged ->
     Individual.current_group_id x = Group.group_id g1) /\
  map Individual.id (individuals_tree (snd result))
  = map Individual.id (individuals_tree app) /\
  well_formed (snd result).
Proof.
  intros [Hsi Hsg] Hin1 Hin2 Hne Hcap result merged.
  destruct (AppFacts.find_group_In _ _ Hsg Hin1) as [p1 Hf1].
  destruct (AppFacts.find_group_In _ _ Hsg Hin2) as [p2 Hf2].
  set (grps1 := filter (other_group (Group.group_id g1)) (groups_tree app)).
  set (inds1 := assign_group_all EmptyString (Group.member_ids g1) (individuals_tree app)).
  set (grps2 := filter (other_group (Group.group_id g2)) grps1).
  set (inds2 := assign_group_all EmptyString (Group.member_ids g2) inds1).
  set (new_group := Group.new (Group.group_id g1) new_group_name merged new_weekly_goal).
  assert (Hs1 : AppFacts.sorted_grps grps1) by now apply filter_other_group_sorted.
  assert (Hs2 : AppFacts.sorted_grps grps2) by now apply filter_other_group_sorted.
  assert (Hsi1 : AppFacts.sorted_inds inds1) by now apply assign_group_all_sorted.
  assert (Hsi2 : AppFacts.sorted_inds inds2) by now apply assign_group_all_sorted.
  assert (Hin2' : In g2 grps1).
  { apply filter_In. split; auto. apply other_group_spec. congruence. }
  destruct (AppFacts.find_group_In _ _ Hs1 Hin2') as [p2' Hf2'].
  assert (Hresult : result =
    (Merged, mk (assign_group_all (Group.group_id g1) merged inds2)
                (grp_insert grps2 new_group))).
  { subst result. unfold merge_groups. rewrite Hf1, Hf2.
    fold merged. unfold merged. rewrite merged_member_set_length.
    destruct (Nat.ltb_spec Group.MAX_MEMBERS
                (length (nodup Z.eq_dec (Group.member_ids g1 ++ Group.member_ids g2))));
      [lia|].
    rewrite (delete_group_found _ _ _ _ Hf1). simpl negb. cbv iota.
    rewrite (delete_group_found (mk inds1 grps1) _ p2' g2) by exact Hf2'.
    reflexivity. }
  assert (Hmerged : StronglySorted Z.lt merged) by apply merged_member_set_sorted.
  assert (Hnew : new_group = Group.mk (Group.group_id g1) new_group_name merged new_weekly_goal 0)
    by now apply Group_new_increasing.
  assert (Hfree : forall x, In x grps2 -> Group.group_id x <> Group.group_id new_group).
  { intros x Hx. apply filter_In in Hx as [Hx _]. apply filter_In in Hx as [_ Hx].
    rewrite Hnew. simpl. now apply other_group_spec. }
  destruct (grp_insert_free grps2 new_group Hs2 Hfree) as (Hs3 & Hin3 & Hmem3).
  rewrite Hresult. simpl.
  split; [reflexivity|]. split; [reflexivity|]. split.
  { destruct (AppFacts.find_group_In _ _ Hs3 Hin3) as [p Hp].
    exists p. rewrite <- Hnew. exact Hp. }
  split.
  { split; [now apply increasing_NoDup|]. split; [exact Hmerged|].
    intros m. apply merged_member_set_In. }
  split.
  { apply AppFacts.find_group_None_iff; auto.
    intros x Hx. apply Hmem3 in Hx as [-> | Hx].
    - rewrite Hnew. simpl. exact Hne.
    - apply filter_In in Hx as [_ Hx]. now apply other_group_spec. }
  rewrite (assign_group_all_as_map _ _ inds2 Hsi2).
  split.
  { intros x Hx Hm. apply in_map_iff in Hx as (y & <- & Hy).
    rewrite regroup_id in Hm. unfold regroup.
    apply existsb_eqb_In in Hm. now rewrite Hm. }
  assert (Hids : map Individual.id (map (regroup (Group.group_id g1) merged) inds2)
                 = map Individual.id (individuals_tree app)).
  { rewrite map_regroup_ids. unfold inds2.
    rewrite (assign_group_all_as_map _ _ inds1 Hsi1), map_regroup_ids. unfold inds1.
    rewrite (assign_group_all_as_map _ _ _ Hsi), map_regroup_ids. reflexivity. }
  split; [exact Hids|].
  split; simpl; [|exact Hs3].
  eapply sorted_inds_same_ids; [exact Hids | exact Hsi].
Qed.

(** Scenario B of the specification. *)
Lemma merge_groups_success_witness :
  well_formed two_small_groups /\
  In (Group.new "G1" "Walkers" [1; 2] 30000) (groups_tree two_small_groups) /\
  In (Group.new "G2" "Runners" [3; 4] 20000) (groups_tree two_small_groups) /\
  Group.group_id (Group.new "G1" "Walkers" [1; 2] 30000)
  <> Group.group_id (Group.new "G2" "Runners" [3; 4] 20000) /\
  (length (nodup Z.eq_dec
             (Group.member_ids (Group.new "G1" "Walkers" [1; 2]%Z 30000%Z) ++
              Group.member_ids (Group.new "G2" "Runners" [3; 4]%Z 20000%Z)))
   <= Group.MAX_MEMBERS)%nat /\
  fst (merge_groups "G1" "G2" "Combined" 500 two_small_groups) = Merged /\
  (exists p, find_group
               (groups_tree (snd (merge_groups "G1" "G2" "Combined" 500 two_small_groups)))
               "G1"
             = Some (p, Group.mk "G1" "Combined" [1; 2; 3; 4] 500 0)) /\
  find_group (groups_tree (snd (merge_groups "G1" "G2" "Combined" 500 two_small_groups))) "G2"
  = None.
Proof.
  assert (Hwf : well_formed two_small_groups) by (split; repeat constructor).
  assert (H1 : In (Group.new "G1" "Walkers" [1; 2] 30000) (groups_tree two_small_groups))
    by (simpl; auto).
  assert (H2 : In (Group.new "G2" "Runners" [3; 4] 20000) (groups_tree two_small_groups))
    by (simpl; auto).
  assert (Hne : Group.group_id (Group.new "G1" "Walkers" [1; 2] 30000)
                <> Group.group_id (Group.new "G2" "Runners" [3; 4] 20000))
    by (simpl; discriminate).
  assert (Hcap : (length (nodup Z.eq_dec
                    (Group.member_ids (Group.new "G1" "Walkers" [1; 2]%Z 30000%Z) ++
                     Group.member_ids (Group.new "G2" "Runners" [3; 4]%Z 20000%Z)))
                  <= Group.MAX_MEMBERS)%nat) by (vm_compute; lia).
  destruct (merge_groups_success two_small_groups _ _ "Combined" 500 Hwf H1 H2 Hne Hcap)
    as (Hfst & _ & Hg1 & _ & Hg2 & _).
  split; [exact Hwf|]. split; [exact H1|]. split; [exact H2|].
  split; [exact Hne|]. split; [exact Hcap|].
  split; [exact Hfst|]. split; [exact Hg1 | exact Hg2].
Defined.

Example scenario_B_members_regrouped :
  map Individual.current_group_id
    (individuals_tree (snd (merge_groups "G1" "G2" "Combined" 500 two_small_groups)))
  = ["G1"; "G1"; "G1"; "G1"; ""; ""]%string.
Proof. reflexivity. Qed.

(** ** Sorting *)

Lemma swo_asym {A} (comp : A -> A -> bool) x y :
  strict_weak_order comp -> comp x y = true -> comp y x = false.
Proof.
  intros (Hirr & Htrans & _) Hxy. destruct (comp y x) eqn:Hyx; auto.
  rewrite <- (Hirr x). symmetry. eapply Htrans; eauto.
Qed.

Lemma stable_insert_perm {A} (comp : A -> A -> bool) x l :
  Permutation (x :: l) (stable_insert comp x l).
Proof.
  induction l as [|y l IH]; simpl; auto.
  destruct (comp y x); auto.
  eapply perm_trans; [apply perm_swap|]. now constructor.
Qed.

Lemma insertion_sort_perm {A} (comp : A -> A -> bool) l :
  Permutation l (insertion_sort A comp l).
Proof.
  induction l as [|x l IH]; simpl; auto.
  eapply perm_trans; [|apply stable_insert_perm]. now constructor.
Qed.

Lemma stable_insert_sorted {A} (comp : A -> A -> bool) x l :
  strict_weak_order comp ->
  sorted_under comp l -> sorted_under comp (stable_insert comp x l).
Proof.
  intros Hswo. pose proof Hswo as (Hirr & Htrans & Hco). unfold sorted_under.
  induction 1 as [|y l Hs IH Hall]; simpl.
  - repeat constructor.
  - destruct (comp y x) eqn:Hyx.
    + constructor; auto. rewrite Forall_forall in *. intros b Hb.
      apply (Permutation_in _ (Permutation_sym (stable_insert_perm comp x l))) in Hb.
      destruct Hb as [<- | Hb]; auto. now apply swo_asym.
    + constructor; [now constructor|].
      constructor; auto. rewrite Forall_forall in *. intros b Hb.
      destruct (comp b x) eqn:Hbx; auto.
      destruct (Hco _ y _ Hbx) as [Hby | Hyx']; [|congruence].
      rewrite (Hall b Hb) in Hby. discriminate.
Qed.

Lemma stable_insert_ext {A} (c1 c2 : A -> A -> bool) x l :
  (forall y, In y l -> c1 y x = c2 y x) ->
  stable_insert c1 x l = stable_insert c2 x l.
Proof.
  induction l as [|y l IH]; simpl; intros Hc; auto.
  rewrite (Hc y) by auto. destruct (c2 y x); auto. f_equal. apply IH. auto.
Qed.

(** Straight insertion meets the contract of [std::sort]. *)
Lemma insertion_sort_contract : std_sort_contract insertion_sort.
Proof.
  split.
  - intros A comp l Hswo. split; [apply insertion_sort_perm|].
    induction l as [|x l IH]; simpl; [constructor|].
    now apply stable_insert_sorted.
  - intros A c1 c2 l. induction l as [|x l IH]; simpl; intros Hc; auto.
    rewrite IH by auto. apply stable_insert_ext.
    intros y Hy. apply Hc; auto. right.
    eapply Permutation_in; [apply Permutation_sym, insertion_sort_perm | exact Hy].
Qed.

(** A comparison of the form "more of [f]" is a strict weak ordering. *)
Lemma more_of_swo {A} (f : A -> Z) : strict_weak_order (fun a b => f b <? f a).
Proof.
  repeat split.
  - intros a. apply Z.ltb_irrefl.
  - intros a b c Hab Hbc. apply Z.ltb_lt in Hab, Hbc. apply Z.ltb_lt. lia.
  - intros a b c Hac. apply Z.ltb_lt in Hac.
    destruct (Z.ltb_spec (f b) (f a)); auto. right. apply Z.ltb_lt. lia.
Qed.

Lemma more_steps_today_swo inds : strict_weak_order (more_steps_today inds).
Proof. apply (more_of_swo (current_day_steps inds)). Qed.

Lemma StronglySorted_app_inv {A} (R : A -> A -> Prop) l1 l2 :
  StronglySorted R (l1 ++ l2) ->
  StronglySorted R l1 /\ StronglySorted R l2 /\
  forall a b, In a l1 -> In b l2 -> R a b.
Proof.
  induction l1 as [|x l1 IH]; simpl; intros Hs.
  - split; [constructor|]. split; auto. intros a b [].
  - apply StronglySorted_inv in Hs as [Hs Hall].
    destruct (IH Hs) as (H1 & H2 & H12). rewrite Forall_app in Hall.
    destruct Hall as [Hall1 Hall2]. split; [now constructor|]. split; auto.
    intros a b [<- | Ha] Hb; auto.
    rewrite Forall_forall in Hall2. auto.
Qed.

Lemma firstn_min_length {A} n (l : list A) :
  firstn (Nat.min n (length l)) l = firstn n l.
Proof.
  destruct (Nat.le_ge_cases n (length l)) as [Hle | Hge].
  - now rewrite Nat.min_l.
  - rewrite Nat.min_r by exact Hge. now rewrite !firstn_all2 by lia.
Qed.

(** ** [get_top_3] *)

Lemma get_top_3_firstn sort app :
  fst (get_top_3 sort app)
  = firstn 3 (sort nat (more_steps_today (individuals_tree app)) (eligible_individuals app)).
Proof.
  unfold get_top_3.
  destruct (sort nat _ _) as [|p rest] eqn:Hsorted; [reflexivity|].
  cbv [fst]. apply firstn_min_length.
Qed.

Lemma get_top_3_state sort app : snd (get_top_3 sort app) = app.
Proof. unfold get_top_3. destruct (sort nat _ _); reflexivity. Qed.

Lemma eligible_NoDup app : NoDup (eligible_individuals app).
Proof.
  unfold eligible_individuals.
  pose proof (pointers_where_increasing met_daily_goal (individuals_tree app) 0) as Hs.
  induction Hs as [|a l Hs IH Hall]; constructor; auto.
  rewrite Forall_forall in Hall. intros Hin. specialize (Hall _ Hin). lia.
Qed.

(** What [get_top_3] sorts is a rearrangement of the eligible pointers. *)
Lemma sorted_eligible_perm sort app :
  std_sort_contract sort ->
  Permutation (eligible_individuals app)
    (sort nat (more_steps_today (individuals_tree app)) (eligible_individuals app)).
Proof.
  intros [Hsort _]. apply Hsort, more_steps_today_swo.
Qed.

Lemma get_top_3_length sort app :
  std_sort_contract sort ->
  length (fst (get_top_3 sort app)) = Nat.min 3 (length (eligible_individuals app)).
Proof.
  intros Hsort. rewrite get_top_3_firstn, length_firstn.
  now rewrite (Permutation_length (sorted_eligible_perm sort app Hsort)).
Qed.

Lemma get_top_3_NoDup sort app :
  std_sort_contract sort -> NoDup (fst (get_top_3 sort app)).
Proof.
  intros Hsort. rewrite get_top_3_firstn.
  set (sorted := sort nat _ _).
  assert (Hnodup : NoDup sorted).
  { eapply Permutation_NoDup; [apply sorted_eligible_perm, Hsort | apply eligible_NoDup]. }
  rewrite <- (firstn_skipn 3 sorted) in Hnodup.
  now apply NoDup_app_remove_r in Hnodup.
Qed.

(** C4. The individuals [get_top_3] considers.  An individual of the
    store is among the eligible ones that [get_top_3] sorts exactly when
    its step history is not empty and its last entry reaches the daily
    goal; whatever precedes the last entry plays no part, and an empty
    history is never eligible.  With any [std::sort] that keeps the promise
    of the standard, what [get_top_3] returns is drawn from exactly these
    individuals: every one it returns is eligible, it returns three of them
    or else all of them, and so an eligible individual is left out only
    when three are returned. *)
Theorem eligible_iff_last_day_meets_goal sort app :
  std_sort_contract sort ->
  let top := fst (get_top_3 sort app) in
  let eligible p :=
    exists individual,
      nth_error (individuals_tree app) p = Some individual /\
      Individual.weekly_step_count individual <> [] /\
      Individual.daily_step_goal individual
        <= last (Individual.weekly_step_count individual) 0 in
  (forall p, In p (eligible_individuals app) <-> eligible p) /\
  NoDup (eligible_individuals app) /\
  top = firstn 3 (sort nat (more_steps_today (individuals_tree app))
                    (eligible_individuals app)) /\
  (forall p, In p top -> eligible p) /\
  length top = Nat.min 3 (length (eligible_individuals app)) /\
  (forall p, eligible p -> In p top \/ length top = 3%nat) /\
  ((length (eligible_individuals app) <= 3)%nat -> forall p, In p top <-> eligible p) /\
  (forall id name age goal earlier today group points,
     met_daily_goal (Individual.mk id name age goal (earlier ++ [today]) group points)
     = (goal <=? today)) /\
  (forall id name age goal group points,
     met_daily_goal (Individual.mk id name age goal [] group points) = false).
Proof.
  intros Hcontract top eligible.
  assert (Hiff : forall p, In p (eligible_individuals app) <-> eligible p).
  { intros p. unfold eligible_individuals. rewrite pointers_where_In, Nat.sub_0_r.
    split.
    - intros (_ & x & Hx & Ht). exists x. split; auto. now apply met_daily_goal_spec.
    - intros (x & Hx & Ht). split; [lia|]. exists x. split; auto.
      now apply met_daily_goal_spec. }
  pose proof (sorted_eligible_perm sort app Hcontract) as Hperm.
  pose proof (get_top_3_length sort app Hcontract) as Hlen. fold top in Hlen.
  pose proof (get_top_3_firstn sort app) as Htop. fold top in Htop.
  set (sorted := sort nat (more_steps_today (individuals_tree app))
                   (eligible_individuals app)) in *.
  assert (Hin : forall p, In p top -> eligible p).
  { intros p Hp. apply Hiff. apply (Permutation_in _ (Permutation_sym Hperm)).
    rewrite Htop in Hp. rewrite <- (firstn_skipn 3 sorted).
    apply in_or_app. now left. }
  assert (Hall : forall p, eligible p -> In p top \/ length top = 3%nat).
  { intros p Hp. apply Hiff in Hp. apply (Permutation_in _ Hperm) in Hp.
    destruct (Nat.le_gt_cases (length sorted) 3) as [Hshort | Hlong].
    - left. rewrite Htop, firstn_all2; [exact Hp | exact Hshort].
    - right. rewrite Hlen, (Permutation_length Hperm). lia. }
  split; [exact Hiff|]. split; [apply eligible_NoDup|]. split; [exact Htop|].
  split; [exact Hin|]. split; [exact Hlen|]. split; [exact Hall|].
  split; [|split].
  - intros Hfew p. split; [apply Hin|]. intros Hp.
    apply Hiff in Hp. apply (Permutation_in _ Hperm) in Hp.
    rewrite Htop, firstn_all2; [exact Hp|].
    now rewrite <- (Permutation_length Hperm).
  - intros. unfold met_daily_goal, back. simpl.
    rewrite last_last. destruct earlier; reflexivity.
  - reflexivity.
Qed.

(** Of the six people five reach their goal today, and the three with the
    most steps are returned. *)
Lemma eligible_iff_last_day_meets_goal_witness :
  std_sort_contract insertion_sort /\
  eligible_individuals six_people = [0; 1; 2; 4; 5]%nat /\
  fst (get_top_3 insertion_sort six_people) = [4; 2; 1]%nat /\
  length (fst (get_top_3 insertion_sort six_people))
  = Nat.min 3 (length (eligible_individuals six_people)) /\
  forall p, In p (fst (get_top_3 insertion_sort six_people)) ->
    In p (eligible_individuals six_people).
Proof.
  split; [exact insertion_sort_contract|].
  split; [reflexivity|]. split; [reflexivity|].
  destruct (eligible_iff_last_day_meets_goal insertion_sort six_people
              insertion_sort_contract) as (Hiff & _ & _ & Hin & Hlen & _).
  split; [exact Hlen|].
  intros p Hp. apply Hiff. now apply Hin.
Defined.

(** C3, as amended.  With any [std::sort] that keeps the promise of the
    standard, [get_top_3] returns at most three individuals, as many as
    there are eligible ones up to three, each of them eligible and none
    twice, in non-increasing order of last-day steps, and no eligible
    individual left out has more last-day steps than one that is returned.
    The order among individuals with equal last-day steps is the one the
    sorting algorithm leaves. *)
Theorem get_top_3_ordering sort app :
  std_sort_contract sort ->
  let top := fst (get_top_3 sort app) in
  let steps := current_day_steps (individuals_tree app) in
  (length top <= 3)%nat /\
  length top = Nat.min 3 (length (eligible_individuals app)) /\
  NoDup top /\
  (forall p, In p top -> In p (eligible_individuals app)) /\
  StronglySorted (fun a b => steps b <= steps a) top /\
  (forall p q, In p top -> In q (eligible_individuals app) -> ~ In q top ->
     steps q <= steps p).
Proof.
  intros Hcontract top steps.
  pose proof (get_top_3_length sort app Hcontract) as Hlen.
  pose proof (get_top_3_NoDup sort app Hcontract) as Hnodup.
  pose proof (sorted_eligible_perm sort app Hcontract) as Hperm.
  destruct Hcontract as [Hsort _].
  destruct (Hsort nat (more_steps_today (individuals_tree app)) (eligible_individuals app)
              (more_steps_today_swo _)) as [_ Hsorted].
  subst top. rewrite get_top_3_firstn in *.
  set (sorted := sort nat _ _) in *.
  assert (Hsplit : sorted = firstn 3 sorted ++ skipn 3 sorted)
    by (symmetry; apply firstn_skipn).
  unfold sorted_under in Hsorted. rewrite Hsplit in Hsorted.
  apply StronglySorted_app_inv in Hsorted as (Hs1 & _ & Hcross).
  assert (Hle : forall a b, more_steps_today (individuals_tree app) b a = false ->
                            steps b <= steps a).
  { intros a b H. unfold more_steps_today in H. apply Z.ltb_ge in H. exact H. }
  split; [rewrite Hlen; lia|].
  split; [exact Hlen|].
  split; [exact Hnodup|].
  split.
  { intros p Hp. apply (Permutation_in _ (Permutation_sym Hperm)).
    rewrite Hsplit. apply in_app_iff. now left. }
  split.
  { clear -Hs1 Hle. induction Hs1 as [|a l Hs IH Hall]; constructor; auto.
    eapply Forall_impl; [|exact Hall]. intros b Hb. now apply Hle. }
  intros p q Hp Hq Hnot. apply Hle, Hcross; auto.
  apply (Permutation_in _ Hperm) in Hq. rewrite Hsplit in Hq.
  apply in_app_iff in Hq as [Hq | Hq]; [contradiction | exact Hq].
Qed.

Lemma get_top_3_ordering_witness :
  std_sort_contract insertion_sort /\
  (length (fst (get_top_3 insertion_sort six_people)) <= 3)%nat /\
  StronglySorted
    (fun a b => current_day_steps (individuals_tree six_people) b
                <= current_day_steps (individuals_tree six_people) a)
    (fst (get_top_3 insertion_sort six_people)).
Proof.
  split; [exact insertion_sort_contract|].
  destruct (get_top_3_ordering insertion_sort six_people insertion_sort_contract)
    as (Hlen & _ & _ & _ & Hsorted & _).
  split; [exact Hlen | exact Hsorted].
Defined.

Example top_3_of_six_people :
  fst (get_top_3 insertion_sort six_people) = [4; 2; 1]%nat.
Proof. reflexivity. Qed.

Lemma remove_first_perm x l rest :
  remove_first x l = Some rest -> Permutation l (x :: rest).
Proof.
  revert rest. induction l as [|y l IH]; simpl; intros rest; [discriminate|].
  destruct (Nat.eqb_spec x y) as [-> | Hne].
  - intros [= ->]. apply Permutation_refl.
  - destruct (remove_first x l) as [r|]; simpl; [|discriminate].
    intros [= <-]. eapply perm_trans; [|apply perm_swap].
    constructor. now apply IH.
Qed.

Lemma is_permutation_sound l : forall l',
  is_permutation l l' = true -> Permutation l l'.
Proof.
  induction l as [|x l IH]; simpl; intros l'.
  - destruct l'; [constructor | discriminate].
  - destruct (remove_first x l') as [rest|] eqn:Hrem; [|discriminate].
    intros Hperm. apply remove_first_perm in Hrem.
    eapply perm_trans; [|apply Permutation_sym; exact Hrem].
    constructor. now apply IH.
Qed.

Lemma is_sorted_under_sound {A} (comp : A -> A -> bool) l :
  is_sorted_under comp l = true -> sorted_under comp l.
Proof.
  unfold sorted_under. induction l as [|x l IH]; simpl; [constructor|].
  rewrite andb_true_iff. intros [Hall Hs]. constructor; auto.
  rewrite forallb_forall in Hall. apply Forall_forall. intros b Hb.
  now apply negb_true_iff, Hall.
Qed.

(** C3 as stated fails on ties.  Seventeen individuals in id order all
    have 9000 steps today and all are eligible.  The library's [std::sort]
    leaves them in an order that keeps its promise (a rearrangement, nobody
    before someone with more steps), and [get_top_3] returns the individuals
    stored at positions 8, 16 and 15, not the first three of the store. *)
Lemma get_top_3_ties_counterexample :
  let inds := individuals_tree seventeen_tied in
  let sorted := Libstdcxx.sort nat (more_steps_today inds)
                  (eligible_individuals seventeen_tied) in
  eligible_individuals seventeen_tied = seq 0 17 /\
  Permutation (eligible_individuals seventeen_tied) sorted /\
  sorted_under (more_steps_today inds) sorted /\
  fst (get_top_3 Libstdcxx.sort seventeen_tied) = [8; 16; 15]%nat /\
  ~ ties_in_store_order inds (fst (get_top_3 Libstdcxx.sort seventeen_tied)).
Proof.
  intros inds sorted.
  split; [reflexivity|].
  split; [apply is_permutation_sound; vm_compute; reflexivity|].
  split; [apply is_sorted_under_sound; vm_compute; reflexivity|].
  assert (Htop : fst (get_top_3 Libstdcxx.sort seventeen_tied) = [8; 16; 15]%nat)
    by (vm_compute; reflexivity).
  split; [exact Htop|].
  rewrite Htop. unfold ties_in_store_order. intros Hs.
  apply StronglySorted_inv in Hs as [Hs _].
  apply StronglySorted_inv in Hs as [_ Hall].
  inversion Hall as [|? ? H1615 _]; subst.
  destruct H1615 as [Hlt | [_ Hlt]].
  - vm_compute in Hlt. discriminate.
  - lia.
Qed.

(** The promise of the standard alone allows such an order. *)
Lemma insertion_sort_from_back_contract : std_sort_contract insertion_sort_from_back.
Proof.
  destruct insertion_sort_contract as [Hsort Hext]. split.
  - intros A comp l Hswo. destruct (Hsort A comp (rev l) Hswo) as [Hperm Hsorted].
    split; [|exact Hsorted].
    eapply perm_trans; [apply Permutation_rev | exact Hperm].
  - intros A c1 c2 l Hc. apply Hext. intros a b Ha Hb.
    apply Hc; now apply in_rev.
Qed.

Example top_3_of_seventeen_from_back :
  fst (get_top_3 insertion_sort_from_back seventeen_tied) = [16; 15; 14]%nat.
Proof. reflexivity. Qed.

(** With a stable algorithm the same state gives the first three. *)
Example top_3_of_seventeen_stable :
  fst (get_top_3 insertion_sort seventeen_tied) = [0; 1; 2]%nat /\
  ties_in_store_order (individuals_tree seventeen_tied)
    (fst (get_top_3 insertion_sort seventeen_tied)).
Proof.
  split; [reflexivity|].
  unfold ties_in_store_order. repeat constructor; right; split; try reflexivity; lia.
Qed.

(** ** [check_individual_rewards] *)

Lemma rewards_map_table r : rewards_map r = nth r [100; 75; 50] 0.
Proof. destruct r as [|[|[|[|r]]]]; reflexivity. Qed.

(** The loop that looks for the individual in the top list stops at the
    position of its pointer. *)
Lemma find_rank_found inds individual_id p x :
  AppFacts.sorted_inds inds ->
  nth_error inds p = Some x -> Individual.id x = individual_id ->
  forall top i r, NoDup top -> nth_error top r = Some p ->
    find_rank inds individual_id top i = Some (i + r)%nat.
Proof.
  intros Hs Hp Hid. induction top as [|q top IH]; intros i r Hnd Hr.
  - destruct r; discriminate.
  - inversion Hnd as [|? ? Hq Hnd']; subst. destruct r as [|r]; simpl in *.
    + injection Hr as ->. rewrite Hp, Z.eqb_refl. f_equal. lia.
    + assert (Hqp : q <> p).
      { intros ->. apply Hq. eapply nth_error_In; eauto. }
      rewrite (IH (S i) r Hnd' Hr).
      replace (S i + r)%nat with (i + S r)%nat by lia.
      destruct (nth_error inds q) as [y|] eqn:Hy; auto.
      destruct (Z.eqb_spec (Individual.id y) (Individual.id x)) as [Heq | _]; auto.
      elim Hqp. eapply AppFacts.sorted_inds_unique; eauto.
Qed.

Lemma find_rank_absent inds individual_id p x :
  AppFacts.sorted_inds inds ->
  nth_error inds p = Some x -> Individual.id x = individual_id ->
  forall top i, ~ In p top -> find_rank inds individual_id top i = None.
Proof.
  intros Hs Hp Hid. induction top as [|q top IH]; intros i Hnot; simpl; auto.
  assert (Hqp : q <> p) by (intros ->; apply Hnot; now left).
  rewrite IH by (intros Hin; apply Hnot; now right).
  destruct (nth_error inds q) as [y|] eqn:Hy; auto.
  destruct (Z.eqb_spec (Individual.id y) individual_id) as [Heq | _]; auto.
  elim Hqp. eapply AppFacts.sorted_inds_unique; eauto. congruence.
Qed.

Lemma get_top_3_pair sort app : get_top_3 sort app = (fst (get_top_3 sort app), app).
Proof.
  rewrite <- (get_top_3_state sort app) at 3. apply surjective_pairing.
Qed.

(** One invocation, for an individual in the top list and for one that is
    not. *)
Lemma reward_awarded sort app individual_id p x r :
  std_sort_contract sort ->
  AppFacts.sorted_inds (individuals_tree app) ->
  find_individual (individuals_tree app) individual_id = Some (p, x) ->
  nth_error (fst (get_top_3 sort app)) r = Some p ->
  check_individual_rewards sort individual_id app
  = mk (update_at p (Individual.add_points (rewards_map r)) (individuals_tree app))
       (groups_tree app).
Proof.
  intros Hsort Hs Hf Hr.
  apply AppFacts.find_individual_Some_inv in Hf as (Hsearch & Hp & Hid).
  unfold check_individual_rewards. rewrite Hsearch, get_top_3_pair.
  rewrite (find_rank_found _ _ p x Hs Hp Hid _ 0%nat r (get_top_3_NoDup sort app Hsort) Hr).
  reflexivity.
Qed.

Lemma reward_not_in_top sort app individual_id p x :
  AppFacts.sorted_inds (individuals_tree app) ->
  find_individual (individuals_tree app) individual_id = Some (p, x) ->
  ~ In p (fst (get_top_3 sort app)) ->
  check_individual_rewards sort individual_id app = app.
Proof.
  intros Hs Hf Hnot.
  apply AppFacts.find_individual_Some_inv in Hf as (Hsearch & Hp & Hid).
  unfold check_individual_rewards. rewrite Hsearch, get_top_3_pair.
  now rewrite (find_rank_absent _ _ p x Hs Hp Hid _ 0%nat Hnot).
Qed.

Lemma reward_not_found sort app individual_id :
  find_individual (individuals_tree app) individual_id = None ->
  check_individual_rewards sort individual_id app = app.
Proof.
  intros Hf. unfold check_individual_rewards.
  destruct (ind_search (individuals_tree app) individual_id) as [p|] eqn:Hsearch; auto.
  destruct (AppFacts.ind_search_find_individual _ _ _ Hsearch) as (x & Hx & _). congruence.
Qed.

(** Points play no part in the ranking. *)
Lemma pointers_where_ext {A B} (t1 : A -> bool) (t2 : B -> bool) l1 : forall l2 pos,
  map t1 l1 = map t2 l2 -> pointers_where t1 pos l1 = pointers_where t2 pos l2.
Proof.
  induction l1 as [|a l1 IH]; intros [|b l2] pos Hmap; simpl in *; try discriminate; auto.
  injection Hmap as Hab Hmap. rewrite Hab, (IH l2 (S pos) Hmap). reflexivity.
Qed.

Lemma current_day_steps_after_points inds p k q :
  current_day_steps (update_at p (Individual.add_points k) inds) q
  = current_day_steps inds q.
Proof.
  unfold current_day_steps. rewrite nth_error_update_at.
  destruct (Nat.eqb p q); auto. destruct (nth_error inds q); reflexivity.
Qed.

Lemma get_top_3_after_points sort inds grps p k :
  std_sort_contract sort ->
  fst (get_top_3 sort (mk (update_at p (Individual.add_points k) inds) grps))
  = fst (get_top_3 sort (mk inds grps)).
Proof.
  intros [_ Hext]. rewrite !get_top_3_firstn. f_equal.
  unfold eligible_individuals. simpl.
  rewrite (pointers_where_ext met_daily_goal met_daily_goal _ inds 0%nat)
    by (apply map_update_at_same; reflexivity).
  apply Hext. intros a b _ _. unfold more_steps_today.
  now rewrite !current_day_steps_after_points.
Qed.

Lemma find_individual_after_points inds individual_id p x k :
  find_individual inds individual_id = Some (p, x) ->
  find_individual (update_at p (Individual.add_points k) inds) individual_id
  = Some (p, Individual.add_points k x).
Proof.
  intros Hf. apply AppFacts.find_individual_Some_inv in Hf as (Hsearch & Hp & Hid).
  unfold find_individual, ind_search in *.
  rewrite (TreeFacts.search_same_keys Z.ltb Individual.id Individual.id
             (update_at p (Individual.add_points k) inds) inds individual_id)
    by (apply map_update_at_same; reflexivity).
  rewrite Hsearch, nth_error_update_at, Nat.eqb_refl, Hp. reflexivity.
Qed.

(** Within the range of [int] nothing wraps. *)
Lemma wrap_int_small (z : Z) :
  Text.INT_MIN <= z <= Text.INT_MAX -> wrap_int z = z.
Proof.
  unfold wrap_int, Text.INT_MIN, Text.INT_MAX. intros Hz.
  rewrite Z.mod_small by lia. lia.
Qed.

Lemma wrap_int_range (z : Z) : Text.INT_MIN <= wrap_int z <= Text.INT_MAX.
Proof.
  unfold wrap_int, Text.INT_MIN, Text.INT_MAX.
  pose proof (Z.mod_pos_bound (z + 2147483648) 4294967296 ltac:(lia)). lia.
Qed.

Lemma is_int_spec (z : Z) :
  Files.is_int z = true <-> Text.INT_MIN <= z <= Text.INT_MAX.
Proof.
  unfold Files.is_int. rewrite andb_true_iff, !Z.leb_le. tauto.
Qed.

(** Points that are an [int] go up by the reward when the sum is one. *)
Lemma add_points_small (reward : Z) (x : Individual.t) :
  0 <= reward ->
  Files.is_int (Individual.points x) = true ->
  Individual.points x + reward <= Text.INT_MAX ->
  Individual.points (Individual.add_points reward x) = Individual.points x + reward.
Proof.
  intros Hr Hint Hsum. apply is_int_spec in Hint.
  cbn [Individual.add_points Individual.points]. apply wrap_int_small. lia.
Qed.

(** C8, as amended.  With any [std::sort] that keeps the promise of the
    standard, an invocation for an individual whose pointer is at index 0,
    1 or 2 of the list [get_top_3] returns adds 100, 75 or 50 to the points
    of that individual and changes nothing else; a second invocation right
    after adds the same again.  The sum is the sum of the [int] type: as
    long as it stays within the range of [int] the points go up by exactly
    the reward, so that the first of the list is 200 points up after two
    invocations; beyond the range the sum wraps around.  For an individual
    that is not in the list, or that is not found, the state stays as it
    is. *)
Theorem reward_accumulation sort app individual_id :
  std_sort_contract sort ->
  well_formed app ->
  let top := fst (get_top_3 sort app) in
  let once := check_individual_rewards sort individual_id app in
  let twice := check_individual_rewards sort individual_id once in
  (forall p individual r,
     find_individual (individuals_tree app) individual_id = Some (p, individual) ->
     nth_error top r = Some p ->
     (r < 3)%nat /\
     once = mk (update_at p (Individual.add_points (nth r [100; 75; 50] 0))
                  (individuals_tree app))
               (groups_tree app) /\
     nth_error (individuals_tree once) p
     = Some (Individual.add_points (nth r [100; 75; 50] 0) individual) /\
     nth_error (individuals_tree twice) p
     = Some (Individual.add_points (nth r [100; 75; 50] 0)
               (Individual.add_points (nth r [100; 75; 50] 0) individual)) /\
     Individual.points (Individual.add_points (nth r [100; 75; 50] 0) individual)
     = wrap_int (Individual.points individual + nth r [100; 75; 50] 0) /\
     (Files.is_int (Individual.points individual) = true ->
      Individual.points individual + nth r [100; 75; 50] 0 <= Text.INT_MAX ->
      Individual.points (Individual.add_points (nth r [100; 75; 50] 0) individual)
      = Individual.points individual + nth r [100; 75; 50] 0) /\
     (Files.is_int (Individual.points individual) = true ->
      Individual.points individual + 2 * nth r [100; 75; 50] 0 <= Text.INT_MAX ->
      Individual.points
        (Individual.add_points (nth r [100; 75; 50] 0)
           (Individual.add_points (nth r [100; 75; 50] 0) individual))
      = Individual.points individual + 2 * nth r [100; 75; 50] 0) /\
     (r = 0%nat ->
      Files.is_int (Individual.points individual) = true ->
      Individual.points individual + 200 <= Text.INT_MAX ->
      exists after,
        nth_error (individuals_tree twice) p = Some after /\
        Individual.points after = Individual.points individual + 200)) /\
  (forall p individual,
     find_individual (individuals_tree app) individual_id = Some (p, individual) ->
     ~ In p top -> once = app) /\
  (find_individual (individuals_tree app) individual_id = None -> once = app).
Proof.
  intros Hsort [Hs _] top once twice. split; [|split].
  - intros p x r Hf Hr.
    assert (Hr3 : (r < 3)%nat).
    { assert (r < length top)%nat by (apply nth_error_Some; congruence).
      pose proof (get_top_3_length sort app Hsort) as Hlen. fold top in Hlen. lia. }
    assert (Honce : once = mk (update_at p (Individual.add_points (rewards_map r))
                                 (individuals_tree app)) (groups_tree app))
      by (apply (reward_awarded sort app individual_id p x r); auto).
    pose proof Hf as Hp. apply AppFacts.find_individual_Some_inv in Hp as (_ & Hp & _).
    assert (Hnth1 : nth_error (individuals_tree once) p
                    = Some (Individual.add_points (rewards_map r) x)).
    { rewrite Honce. simpl. now rewrite nth_error_update_at, Nat.eqb_refl, Hp. }
    assert (Htwice : twice = mk (update_at p (Individual.add_points (rewards_map r))
                                   (individuals_tree once)) (groups_tree once)).
    { apply (reward_awarded sort once individual_id p
               (Individual.add_points (rewards_map r) x) r); auto.
      - rewrite Honce. simpl. eapply sorted_inds_same_ids; [|exact Hs].
        apply map_update_at_same. reflexivity.
      - rewrite Honce. simpl. now apply find_individual_after_points.
      - rewrite Honce. destruct app as [inds grps]. simpl.
        rewrite (get_top_3_after_points sort inds grps p _ Hsort). exact Hr. }
    assert (Hnth2 : nth_error (individuals_tree twice) p
                    = Some (Individual.add_points (rewards_map r)
                              (Individual.add_points (rewards_map r) x))).
    { rewrite Htwice. simpl. now rewrite nth_error_update_at, Nat.eqb_refl, Hnth1. }
    assert (Hreward : 0 <= rewards_map r <= 100)
      by (destruct r as [|[|[|r]]]; simpl; lia).
    assert (Hone : Files.is_int (Individual.points x) = true ->
                   Individual.points x + rewards_map r <= Text.INT_MAX ->
                   Individual.points (Individual.add_points (rewards_map r) x)
                   = Individual.points x + rewards_map r)
      by (intros Hint Hsum; apply add_points_small; [lia | exact Hint | exact Hsum]).
    assert (Htwo : Files.is_int (Individual.points x) = true ->
                   Individual.points x + 2 * rewards_map r <= Text.INT_MAX ->
                   Individual.points
                     (Individual.add_points (rewards_map r)
                        (Individual.add_points (rewards_map r) x))
                   = Individual.points x + 2 * rewards_map r).
    { intros Hint Hsum. pose proof (proj1 (is_int_spec _) Hint) as Hrange.
      rewrite add_points_small; [rewrite Hone; [lia | exact Hint | lia] | lia | | ].
      - apply is_int_spec. rewrite Hone; [lia | exact Hint | lia].
      - rewrite Hone; [lia | exact Hint | lia]. }
    rewrite <- rewards_map_table.
    split; [exact Hr3|]. split; [exact Honce|]. split; [exact Hnth1|].
    split; [exact Hnth2|]. split; [reflexivity|]. split; [exact Hone|].
    split; [exact Htwo|].
    intros -> Hint Hsum. eexists. split; [exact Hnth2|].
    rewrite Htwo; [reflexivity | exact Hint | exact Hsum].
  - intros p x Hf Hnot. now apply (reward_not_in_top sort app individual_id p x).
  - apply reward_not_found.
Qed.

(** Scenario D of the specification: person 5 leads with 9000 steps. *)
Lemma reward_accumulation_witness :
  std_sort_contract insertion_sort /\
  well_formed six_people /\
  find_individual (individuals_tree six_people) 5 = Some (4%nat, person 5 9000) /\
  nth_error (fst (get_top_3 insertion_sort six_people)) 0 = Some 4%nat /\
  Files.is_int (Individual.points (person 5 9000)) = true /\
  Individual.points (person 5 9000) + 200 <= Text.INT_MAX /\
  exists after,
    nth_error
      (individuals_tree
         (check_individual_rewards insertion_sort 5
            (check_individual_rewards insertion_sort 5 six_people))) 4
    = Some after /\
    Individual.points after = Individual.points (person 5 9000) + 200.
Proof.
  assert (Hwf : well_formed six_people) by (split; repeat constructor).
  assert (Hf : find_individual (individuals_tree six_people) 5 = Some (4%nat, person 5 9000))
    by reflexivity.
  assert (Hr : nth_error (fst (get_top_3 insertion_sort six_people)) 0 = Some 4%nat)
    by reflexivity.
  assert (Hint : Files.is_int (Individual.points (person 5 9000)) = true) by reflexivity.
  assert (Hsum : Individual.points (person 5 9000) + 200 <= Text.INT_MAX)
    by (vm_compute; discriminate).
  split; [exact insertion_sort_contract|]. split; [exact Hwf|].
  split; [exact Hf|]. split; [exact Hr|]. split; [exact Hint|]. split; [exact Hsum|].
  destruct (reward_accumulation insertion_sort six_people 5 insertion_sort_contract Hwf)
    as (Hin & _ & _).
  destruct (Hin 4%nat (person 5 9000) 0%nat Hf Hr) as (_ & _ & _ & _ & _ & _ & _ & H200).
  exact (H200 eq_refl Hint Hsum).
Defined.

(** C8 as stated fails at the end of the range of [int].  The best of
    the day has 2147483600 points, 47 below the largest [int]: the reward
    of 100 takes the sum out of the range, and the points that are left are
    negative, not 100 more. *)
Lemma reward_overflow_counterexample :
  find_individual (individuals_tree near_the_limit) 1
  = Some (0%nat, Individual.mk 1 "User" 30 5000 [6000] EmptyString 2147483600) /\
  nth_error (fst (get_top_3 Libstdcxx.sort near_the_limit)) 0 = Some 0%nat /\
  map Individual.points
    (individuals_tree (check_individual_rewards Libstdcxx.sort 1 near_the_limit))
  = [-2147483596] /\
  -2147483596 <> 2147483600 + 100.
Proof.
  split; [reflexivity|]. split; [reflexivity|]. split; [reflexivity | discriminate].
Qed.

Example rewards_by_rank :
  map Individual.points
    (individuals_tree
       (check_individual_rewards insertion_sort 2
          (check_individual_rewards insertion_sort 3
             (check_individual_rewards insertion_sort 5
                (check_individual_rewards insertion_sort 4 six_people)))))
  = [0; 50; 75; 0; 100; 0].
Proof. reflexivity. Qed.

(** ** The membership invariant *)

Lemma sorted_inds_In_unique inds x y :
  AppFacts.sorted_inds inds -> In x inds -> In y inds ->
  Individual.id x = Individual.id y -> x = y.
Proof.
  intros Hs Hx Hy Hid.
  destruct (AppFacts.find_individual_In inds x Hs Hx) as [p Hp].
  destruct (AppFacts.find_individual_In inds y Hs Hy) as [q Hq].
  rewrite Hid in Hp. congruence.
Qed.

Lemma sorted_grps_In_unique grps g h :
  AppFacts.sorted_grps grps -> In g grps -> In h grps ->
  Group.group_id g = Group.group_id h -> g = h.
Proof.
  intros Hs Hg Hh Hid.
  destruct (AppFacts.find_group_In grps g Hs Hg) as [p Hp].
  destruct (AppFacts.find_group_In grps h Hs Hh) as [q Hq].
  rewrite Hid in Hp. congruence.
Qed.

Lemma sorted_grps_same_ids grps grps' :
  map Group.group_id grps' = map Group.group_id grps ->
  AppFacts.sorted_grps grps -> AppFacts.sorted_grps grps'.
Proof.
  unfold ConceptualBPlusTree.sorted_by_key. intros Hmap Hs.
  apply (StronglySorted_map_iff Group.group_id (fun a b => String.ltb a b = true)) in Hs.
  apply (StronglySorted_map_iff Group.group_id (fun a b => String.ltb a b = true)).
  now rewrite Hmap.
Qed.

Lemma regroup_member g mids x :
  In (Individual.id x) mids -> regroup g mids x = Individual.set_current_group_id g x.
Proof.
  intros Hin. unfold regroup. apply existsb_eqb_In in Hin. now rewrite Hin.
Qed.

Lemma regroup_other g mids x :
  ~ In (Individual.id x) mids -> regroup g mids x = x.
Proof.
  intros Hnot. unfold regroup.
  destruct (existsb (Z.eqb (Individual.id x)) mids) eqn:He; auto.
  apply existsb_eqb_In in He. contradiction.
Qed.

Lemma In_dec_Z (m : Z) l : In m l \/ ~ In m l.
Proof. destruct (in_dec Z.eq_dec m l); auto. Qed.

(** *** delete_group keeps the invariant *)

Lemma delete_group_sound app gid : sound app -> sound (snd (delete_group gid app)).
Proof.
  intros Hsound. pose proof Hsound as (((Hsi & Hsg) & HI1 & HI2) & Hnamed).
  destruct (find_group (groups_tree app) gid) as [[p g]|] eqn:Hf.
  2:{ now rewrite delete_group_not_found. }
  rewrite (delete_group_found _ _ _ _ Hf). simpl.
  rewrite (assign_group_all_as_map _ _ _ Hsi).
  apply AppFacts.find_group_Some_inv in Hf as (_ & Hp & Hgid).
  apply nth_error_In in Hp.
  (* an individual listed by another group is not listed by [g] *)
  assert (Hkeep : forall h y, In h (groups_tree app) -> Group.group_id h <> gid ->
            In y (individuals_tree app) ->
            Individual.current_group_id y = Group.group_id h ->
            ~ In (Individual.id y) (Group.member_ids g)).
  { intros h y Hh Hne Hy Hcg Hin.
    destruct (HI1 g _ Hp Hin) as (y' & Hy' & Hid & Hcg').
    assert (y' = y) by (eapply sorted_inds_In_unique; eauto). subst y'.
    congruence. }
  repeat split.
  - simpl. eapply sorted_inds_same_ids; [apply map_regroup_ids | exact Hsi].
  - simpl. now apply filter_other_group_sorted.
  - intros h m Hh Hm. simpl in *. apply filter_In in Hh as [Hh Hother].
    apply other_group_spec in Hother.
    destruct (HI1 h m Hh Hm) as (y & Hy & Hid & Hcg).
    exists y. split; auto. apply in_map_iff. exists y. split; auto.
    apply regroup_other. eapply Hkeep; eauto.
  - intros x' Hx' Hcg. simpl in *. apply in_map_iff in Hx' as (y & <- & Hy).
    destruct (In_dec_Z (Individual.id y) (Group.member_ids g)) as [Hin | Hnot].
    + rewrite regroup_member in Hcg by exact Hin. now elim Hcg.
    + rewrite regroup_other in * by exact Hnot.
      destruct (HI2 y Hy Hcg) as (h & Hh & Hhid & Hmem).
      exists h. split; auto. apply filter_In. split; auto.
      apply other_group_spec. intros Heq. apply Hnot.
      assert (h = g) by (eapply sorted_grps_In_unique; eauto; congruence).
      now subst h.
  - intros h Hh. simpl in Hh. apply filter_In in Hh as [Hh _]. now apply Hnamed.
Qed.

Lemma delete_group_groups_subset app gid g :
  In g (groups_tree (snd (delete_group gid app))) -> In g (groups_tree app).
Proof.
  destruct (find_group (groups_tree app) gid) as [[p h]|] eqn:Hf.
  - rewrite (delete_group_found _ _ _ _ Hf). simpl. intros Hg.
    now apply filter_In in Hg as [Hg _].
  - now rewrite delete_group_not_found.
Qed.

(** *** add_person keeps the invariant *)

Lemma add_person_sound app id name age goal steps :
  sound app -> sound (snd (add_person id name age goal steps app)).
Proof.
  intros Hsound. pose proof Hsound as (((Hsi & Hsg) & HI1 & HI2) & Hnamed).
  unfold add_person.
  destruct (ind_search (individuals_tree app) id) as [p|] eqn:Hsearch; [exact Hsound|].
  simpl. repeat split; simpl.
  - apply TreeFacts.insert_sorted; [apply Z_ltb_swo | exact Hsi].
  - exact Hsg.
  - intros g m Hg Hm. destruct (HI1 g m Hg Hm) as (x & Hx & Hid & Hcg).
    exists x. split; auto. now apply TreeFacts.In_insert_old.
  - intros x Hx Hcg. apply TreeFacts.insert_In in Hx as [-> | Hx].
    + now elim Hcg.
    + now apply HI2.
  - exact Hnamed.
Qed.

(** *** Installing a group: the last step of create_group and merge_groups *)

Lemma Group_new_members gid gname mids goal m :
  In m (Group.member_ids (Group.new gid gname mids goal)) <-> In m mids.
Proof. simpl. now rewrite unique_In, sort_ints_In. Qed.

Lemma install_group_sound inds grps gid gname mids goal :
  sound (mk inds grps) ->
  gid <> EmptyString ->
  (forall g, In g grps -> Group.group_id g <> gid) ->
  (forall m, In m mids ->
     exists x, In x inds /\ Individual.id x = m /\
               Individual.current_group_id x = EmptyString) ->
  sound (mk (assign_group_all gid mids inds)
            (grp_insert grps (Group.new gid gname mids goal))).
Proof.
  intros (((Hsi & Hsg) & HI1 & HI2) & Hnamed) Hgid Hfree Hfresh. simpl in *.
  rewrite (assign_group_all_as_map _ _ _ Hsi).
  set (new_group := Group.new gid gname mids goal).
  destruct (grp_insert_free grps new_group Hsg) as (Hsg' & _ & Hmem).
  { intros g Hg. now apply Hfree. }
  (* an individual that an old group lists is not among the new members *)
  assert (Hkeep : forall y, In y inds -> Individual.current_group_id y <> EmptyString ->
            ~ In (Individual.id y) mids).
  { intros y Hy Hcg Hin. destruct (Hfresh _ Hin) as (x & Hx & Hid & Hempty).
    assert (x = y) by (eapply sorted_inds_In_unique; eauto). subst x. contradiction. }
  repeat split; simpl.
  - eapply sorted_inds_same_ids; [apply map_regroup_ids | exact Hsi].
  - exact Hsg'.
  - intros g m Hg Hm. apply Hmem in Hg as [-> | Hg].
    + apply Group_new_members in Hm.
      destruct (Hfresh m Hm) as (x & Hx & Hid & _).
      exists (Individual.set_current_group_id gid x). repeat split; auto.
      apply in_map_iff. exists x. split; auto.
      apply regroup_member. now rewrite Hid.
    + destruct (HI1 g m Hg Hm) as (y & Hy & Hid & Hcg).
      exists y. split; auto. apply in_map_iff. exists y. split; auto.
      apply regroup_other, Hkeep; auto. rewrite Hcg. now apply Hnamed.
  - intros x' Hx' Hcg. apply in_map_iff in Hx' as (y & <- & Hy).
    destruct (In_dec_Z (Individual.id y) mids) as [Hin | Hnot].
    + rewrite regroup_member by exact Hin. simpl.
      exists new_group. split; [apply Hmem; now left|]. split; [reflexivity|].
      now apply Group_new_members.
    + rewrite regroup_other in * by exact Hnot.
      destruct (HI2 y Hy Hcg) as (g & Hg & Hgid' & Hm).
      exists g. split; auto. apply Hmem. now right.
  - intros g Hg. apply Hmem in Hg as [-> | Hg]; [exact Hgid | now apply Hnamed].
Qed.

(** *** create_group keeps the invariant *)

Lemma valid_candidate_spec inds mid :
  valid_candidate inds mid = true ->
  exists x, In x inds /\ Individual.id x = mid /\
            Individual.current_group_id x = EmptyString.
Proof.
  unfold valid_candidate.
  destruct (find_individual inds mid) as [[p x]|] eqn:Hf; [|discriminate].
  intros Hempty. apply string_empty_spec in Hempty.
  apply AppFacts.find_individual_Some_inv in Hf as (_ & Hp & Hid).
  exists x. split; [eapply nth_error_In; eauto | auto].
Qed.

Lemma create_group_sound app gid gname mids goal :
  sound app -> gid <> EmptyString ->
  sound (snd (create_group gid gname mids goal app)).
Proof.
  intros Hsound Hgid. unfold create_group.
  destruct (grp_search (groups_tree app) gid) as [p|] eqn:Hsearch; [exact Hsound|].
  destruct (Group.MAX_MEMBERS <? length mids)%nat; [exact Hsound|].
  destruct (filter (valid_candidate (individuals_tree app)) mids) as [|m actual] eqn:Hactual;
    [exact Hsound|].
  rewrite <- Hactual. simpl.
  destruct app as [inds grps]. simpl in *.
  apply install_group_sound; auto.
  - apply AppFacts.grp_search_find_group in Hsearch.
    apply AppFacts.find_group_None_iff; auto. now destruct Hsound as (((_ & Hsg) & _) & _).
  - intros m' Hm'. apply filter_In in Hm' as [_ Hvalid].
    now apply valid_candidate_spec.
Qed.

(** *** delete_individual keeps the invariant *)

Lemma ind_remove_snd inds id :
  snd (ind_remove inds id) = filter (fun y => negb (Individual.id y =? id)) inds.
Proof. apply TreeFacts.remove_snd. Qed.

Lemma delete_individual_found app id p x :
  find_individual (individuals_tree app) id = Some (p, x) ->
  snd (delete_individual id app)
  = mk (filter (fun y => negb (Individual.id y =? id)) (individuals_tree app))
       (leave_group id x (groups_tree app)).
Proof.
  intros Hf. unfold delete_individual. rewrite Hf.
  rewrite (surjective_pairing (ind_remove (individuals_tree app) id)).
  simpl. now rewrite ind_remove_snd.
Qed.

Lemma without_member_id gid id g :
  Group.group_id (without_member gid id g) = Group.group_id g.
Proof. unfold without_member. destruct (String.eqb _ _); reflexivity. Qed.

Lemma without_member_members gid id g m :
  In m (Group.member_ids (without_member gid id g)) <->
  In m (Group.member_ids g) /\ ~ (Group.group_id g = gid /\ m = id).
Proof.
  unfold without_member.
  destruct (String.eqb_spec (Group.group_id g) gid) as [Heq | Hne]; simpl.
  - unfold vector_remove. rewrite filter_In, negb_true_iff, Z.eqb_neq. tauto.
  - tauto.
Qed.

Lemma leave_group_as_map id x grps :
  AppFacts.sorted_grps grps ->
  Individual.current_group_id x <> EmptyString ->
  leave_group id x grps = map (without_member (Individual.current_group_id x) id) grps.
Proof.
  intros Hs Hcg. unfold leave_group.
  destruct (string_empty (Individual.current_group_id x)) eqn:Hempty.
  { apply string_empty_spec in Hempty. contradiction. }
  set (c := Individual.current_group_id x).
  destruct (grp_search grps c) as [q|] eqn:Hsearch.
  - destruct (TreeFacts.search_Some_inv _ _ _ _ _ Hsearch) as (g & Hq & He).
    apply string_equiv_eq in He.
    unfold without_member.
    apply (update_at_as_map (fun h => String.eqb (Group.group_id h) c) _ grps q g Hq).
    + rewrite <- He. apply String.eqb_refl.
    + intros r h Hr Hh. apply String.eqb_eq in Hh.
      apply (AppFacts.sorted_grps_unique grps r q h g Hs Hr Hq). congruence.
  - rewrite <- (map_id grps) at 1. apply map_ext_in. intros h Hh.
    unfold without_member.
    destruct (String.eqb_spec (Group.group_id h) c) as [Heq | Hne]; auto.
    exfalso.
    pose proof (TreeFacts.search_None_inv String.ltb Group.group_id string_ltb_swo
                  grps c Hs Hsearch h Hh) as He.
    assert (ConceptualBPlusTree.equiv_keys String.ltb c (Group.group_id h) = true)
      by (apply string_equiv_eq; congruence).
    congruence.
Qed.

(** The groups after [leave_group], group by group. *)
Lemma leave_group_groups id x grps :
  AppFacts.sorted_grps grps ->
  (forall g, In g grps -> Group.group_id g <> EmptyString) ->
  map Group.group_id (leave_group id x grps) = map Group.group_id grps /\
  forall g', In g' (leave_group id x grps) <->
    exists g, In g grps /\ g' = without_member (Individual.current_group_id x) id g.
Proof.
  intros Hs Hnamed.
  destruct (string_dec (Individual.current_group_id x) EmptyString) as [Hempty | Hcg].
  - assert (Hsame : leave_group id x grps = grps).
    { unfold leave_group. now rewrite Hempty. }
    rewrite Hsame, Hempty. split; auto.
    assert (Hid : forall g, In g grps -> without_member EmptyString id g = g).
    { intros g Hg. unfold without_member.
      destruct (String.eqb_spec (Group.group_id g) EmptyString) as [Heq | _]; auto.
      now apply Hnamed in Heq. }
    intros g'. split.
    + intros Hg'. exists g'. split; auto. symmetry. now apply Hid.
    + intros (g & Hg & ->). now rewrite Hid.
  - rewrite (leave_group_as_map id x grps Hs Hcg). split.
    + rewrite map_map. apply map_ext. intros g. apply without_member_id.
    + intros g'. rewrite in_map_iff. split; intros (g & H1 & H2); exists g; auto.
Qed.

Lemma delete_individual_sound app id :
  sound app -> sound (snd (delete_individual id app)).
Proof.
  intros Hsound. pose proof Hsound as (((Hsi & Hsg) & HI1 & HI2) & Hnamed).
  destruct (find_individual (individuals_tree app) id) as [[p x]|] eqn:Hf.
  2:{ unfold delete_individual. now rewrite Hf. }
  rewrite (delete_individual_found _ _ _ _ Hf).
  apply AppFacts.find_individual_Some_inv in Hf as (_ & Hp & Hid).
  apply nth_error_In in Hp.
  destruct (leave_group_groups id x (groups_tree app) Hsg Hnamed) as [Hids Hgroups].
  set (c := Individual.current_group_id x) in *.
  assert (Hstay : forall y, In y (individuals_tree app) -> Individual.id y <> id ->
            In y (filter (fun y => negb (Individual.id y =? id)) (individuals_tree app))).
  { intros y Hy Hne. apply filter_In. split; auto.
    now apply negb_true_iff, Z.eqb_neq. }
  repeat split; simpl.
  - now apply StronglySorted_filter.
  - eapply sorted_grps_same_ids; eauto.
  - intros g' m Hg' Hm. apply Hgroups in Hg' as (g & Hg & ->).
    rewrite without_member_id. apply without_member_members in Hm as [Hm Hnot].
    destruct (HI1 g m Hg Hm) as (y & Hy & Hym & Hcg).
    exists y. repeat split; auto. apply Hstay; auto.
    intros Hyid. apply Hnot.
    assert (y = x) by (eapply sorted_inds_In_unique; eauto; congruence). subst y.
    subst c. split; congruence.
  - intros y Hy Hcg. apply filter_In in Hy as [Hy Hne].
    apply negb_true_iff, Z.eqb_neq in Hne.
    destruct (HI2 y Hy Hcg) as (g & Hg & Hgid & Hm).
    exists (without_member c id g). split; [apply Hgroups; eauto|].
    rewrite without_member_id. split; auto.
    apply without_member_members. split; auto. intros [_ Heq]. contradiction.
  - intros g' Hg'. apply Hgroups in Hg' as (g & Hg & ->).
    rewrite without_member_id. now apply Hnamed.
Qed.

(** *** merge_groups keeps the invariant *)

Lemma merge_groups_sound app g1 g2 gname goal :
  sound app -> sound (snd (merge_groups g1 g2 gname goal app)).
Proof.
  intros Hsound. pose proof Hsound as (((Hsi & Hsg) & HI1 & _) & Hnamed).
  unfold merge_groups.
  destruct (find_group (groups_tree app) g1) as [[p1 group1]|] eqn:Hf1; [|exact Hsound].
  destruct (find_group (groups_tree app) g2) as [[p2 group2]|] eqn:Hf2; [|exact Hsound].
  destruct (Group.MAX_MEMBERS <? length (merged_member_set group1 group2))%nat;
    [exact Hsound|].
  pose proof (delete_group_sound app g1 Hsound) as Hsound1.
  rewrite (delete_group_found _ _ _ _ Hf1) in *. simpl negb. cbv iota.
  simpl snd in Hsound1.
  set (inds1 := assign_group_all EmptyString (Group.member_ids group1) (individuals_tree app))
    in *.
  set (grps1 := filter (other_group g1) (groups_tree app)) in *.
  pose proof (delete_group_sound (mk inds1 grps1) g2 Hsound1) as Hsound2.
  destruct (find_group grps1 g2) as [[p2' group2']|] eqn:Hf2'.
  2:{ rewrite delete_group_not_found by exact Hf2'. exact Hsound1. }
  rewrite (delete_group_found (mk inds1 grps1) g2 p2' group2' Hf2') in *.
  simpl negb. cbv iota. simpl in *.
  apply AppFacts.find_group_Some_inv in Hf1 as (_ & Hin1 & Hid1).
  apply AppFacts.find_group_Some_inv in Hf2 as (_ & Hin2 & Hid2).
  apply AppFacts.find_group_Some_inv in Hf2' as (_ & Hin2' & Hid2').
  apply nth_error_In in Hin1, Hin2, Hin2'.
  assert (group2' = group2).
  { apply filter_In in Hin2' as [Hin2' _].
    eapply sorted_grps_In_unique; eauto. congruence. }
  subst group2'.
  apply install_group_sound; auto.
  - rewrite <- Hid1. now apply Hnamed.
  - intros g Hg. apply filter_In in Hg as [Hg _]. apply filter_In in Hg as [_ Hg].
    now apply other_group_spec.
  - intros m Hm. apply merged_member_set_In in Hm.
    assert (Hy : exists y, In y (individuals_tree app) /\ Individual.id y = m).
    { destruct Hm as [Hm | Hm];
        [destruct (HI1 group1 m Hin1 Hm) as (y & Hy & Hym & _)
        |destruct (HI1 group2 m Hin2 Hm) as (y & Hy & Hym & _)]; eauto. }
    destruct Hy as (y & Hy & Hym).
    assert (Hsi1 : AppFacts.sorted_inds inds1) by now apply assign_group_all_sorted.
    rewrite (assign_group_all_as_map _ _ inds1 Hsi1). unfold inds1.
    rewrite (assign_group_all_as_map _ _ _ Hsi), map_map.
    exists (regroup EmptyString (Group.member_ids group2)
              (regroup EmptyString (Group.member_ids group1) y)).
    split; [apply in_map_iff; eauto|].
    rewrite regroup_regroup, regroup_member; [simpl; auto|].
    rewrite Hym. apply in_app_iff. exact Hm.
Qed.

(** *** Every operation keeps the invariant *)

Lemma run_sound op app :
  names_its_group op -> sound app -> sound (run op app).
Proof.
  destruct op; simpl; intros Hop Hsound.
  - now apply add_person_sound.
  - now apply create_group_sound.
  - now apply delete_individual_sound.
  - now apply delete_group_sound.
  - now apply merge_groups_sound.
Qed.

(** The membership invariant survives every sequence of public operations
    that does not create a group named by the empty string. *)
Lemma run_all_sound ops : forall app,
  Forall names_its_group ops -> sound app -> sound (run_all ops app).
Proof.
  induction ops as [|op ops IH]; intros app Hops Hsound; simpl; auto.
  inversion Hops as [|? ? Hop Hrest]; subst.
  apply IH; auto. now apply run_sound.
Qed.

(** C1 on the failing input.  From a consistent state with one person and
    no group, [create_group] under the empty id puts person 1 in a group
    without marking the person as grouped; a second [create_group] then
    takes the same person.  In the state reached group [""] lists id 1 and
    the individual with id 1 carries ["G2"]: the membership invariant is
    broken.  Deleting the person after the first step leaves group [""]
    with a member that does not exist. *)
Lemma empty_group_id_breaks_membership :
  consistent one_person /\
  let app := run_all [CreateGroup "" "A" [1] 0; CreateGroup "G2" "B" [1] 0] one_person in
  map (fun g => (Group.group_id g, Group.member_ids g)) (groups_tree app)
  = [(""%string, [1]); ("G2"%string, [1])] /\
  map (fun x => (Individual.id x, Individual.current_group_id x)) (individuals_tree app)
  = [(1, "G2"%string)] /\
  ~ members_point_back app /\
  ~ members_point_back
      (run_all [CreateGroup "" "A" [1] 0; DeleteIndividual 1] one_person).
Proof.
  split.
  { split; [split; repeat constructor|]. split.
    - intros g m [].
    - intros x [<- | []] H. now elim H. }
  split; [reflexivity|]. split; [reflexivity|]. split.
  - intros HI1.
    destruct (HI1 (Group.new "" "A" [1] 0) 1) as (x & Hx & _ & Hcg);
      [vm_compute; auto | vm_compute; auto |].
    vm_compute in Hx. destruct Hx as [<- | []]. discriminate.
  - intros HI1.
    destruct (HI1 (Group.new "" "A" [1] 0) 1) as (x & Hx & _);
      [vm_compute; auto | vm_compute; auto |].
    vm_compute in Hx. exact Hx.
Qed.

(* ================================================================= *)
(** * Further properties of the container *)

(** X1. [find_insert_pos] never leaves the vector; in a store sorted by key
    it returns the position that separates the elements whose key is less
    than the one asked for from the others, so it is the number of keys
    below. *)
Theorem find_insert_pos_separates {E K : Type}
    (comp : K -> K -> bool) (key : E -> K) (data : list E) (k : K) :
  strict_weak_order comp ->
  let p := T.find_insert_pos comp key data k in
  (p <= length data)%nat /\
  (T.sorted_by_key comp key data ->
   Forall (fun x => comp (key x) k = true) (firstn p data) /\
   Forall (fun x => comp (key x) k = false) (skipn p data) /\
   p = length (filter (fun x => comp (key x) k) data)).
Proof.
  intros Hswo p. split.
  - subst p. unfold T.find_insert_pos, lower_bound.
    pose proof (lower_bound_loop_range (fun obj => comp (key obj) k) data
                  (length data) 0 (length data)). lia.
  - intros Hs.
    destruct (TreeFacts.find_insert_pos_spec comp key Hswo data k Hs) as [Hp Hpart].
    fold p in Hp, Hpart.
    assert (Hlow : Forall (fun x => comp (key x) k = true) (firstn p data)).
    { apply Forall_forall. intros x Hx. apply In_nth_error in Hx as [i Hi].
      rewrite nth_error_firstn in Hi. destruct (Nat.ltb_spec i p); [|discriminate].
      now apply (Hpart _ _ Hi). }
    assert (Hhigh : Forall (fun x => comp (key x) k = false) (skipn p data)).
    { apply Forall_forall. intros x Hx. apply In_nth_error in Hx as [i Hi].
      rewrite nth_error_skipn in Hi.
      destruct (comp (key x) k) eqn:Hc; auto.
      apply (Hpart _ _ Hi) in Hc. lia. }
    split; [exact Hlow|]. split; [exact Hhigh|].
    replace (filter (fun x => comp (key x) k) data)
      with (filter (fun x => comp (key x) k) (firstn p data ++ skipn p data))
      by (now rewrite firstn_skipn).
    rewrite filter_app, length_app.
    rewrite (forallb_filter_id (fun x => comp (key x) k) (firstn p data))
      by (apply forallb_forall; now apply Forall_forall).
    assert (Hnone : filter (fun x => comp (key x) k) (skipn p data) = []).
    { clear -Hhigh. induction Hhigh as [|x l Hx _ IH]; simpl; auto. now rewrite Hx. }
    rewrite Hnone, length_firstn. simpl. lia.
Qed.

Lemma find_insert_pos_separates_witness :
  strict_weak_order Z.ltb /\
  T.sorted_by_key Z.ltb Individual.id people_1_3_5 /\
  T.find_insert_pos Z.ltb Individual.id people_1_3_5 4
  = length (filter (fun x => Individual.id x <? 4) people_1_3_5).
Proof.
  assert (Hs : T.sorted_by_key Z.ltb Individual.id people_1_3_5) by (repeat constructor).
  split; [exact Z_ltb_swo|]. split; [exact Hs|].
  destruct (find_insert_pos_separates Z.ltb Individual.id people_1_3_5 4 Z_ltb_swo)
    as [_ H].
  now destruct (H Hs) as (_ & _ & Hp).
Defined.

(** X2. In a store sorted by key, [search] answers with a position exactly
    when the element there has a key equivalent to the one asked for, and
    with "not found" exactly when no stored key is equivalent. *)
Theorem search_finds_exactly {E K : Type}
    (comp : K -> K -> bool) (key : E -> K) (data : list E) (k : K) :
  strict_weak_order comp ->
  T.sorted_by_key comp key data ->
  (forall p, T.search comp key data k = Some p <->
     exists x, nth_error data p = Some x /\ T.equiv_keys comp k (key x) = true) /\
  (T.search comp key data k = None <->
     forall x, In x data -> T.equiv_keys comp k (key x) = false).
Proof.
  intros Hswo Hs. split.
  - intros p. split.
    + apply TreeFacts.search_Some_inv.
    + intros (x & Hx & He). now apply (TreeFacts.search_complete comp key Hswo data k p x).
  - split.
    + now apply TreeFacts.search_None_inv.
    + intros Hfree. destruct (T.search comp key data k) as [p|] eqn:Hsearch; auto.
      apply TreeFacts.search_Some_inv in Hsearch as (x & Hx & He).
      rewrite (Hfree x (nth_error_In _ _ Hx)) in He. discriminate.
Qed.

Lemma search_finds_exactly_witness :
  strict_weak_order Z.ltb /\
  T.sorted_by_key Z.ltb Individual.id people_1_3_5 /\
  T.search Z.ltb Individual.id people_1_3_5 3 = Some 1%nat /\
  T.search Z.ltb Individual.id people_1_3_5 4 = None.
Proof.
  assert (Hs : T.sorted_by_key Z.ltb Individual.id people_1_3_5) by (repeat constructor).
  split; [exact Z_ltb_swo|]. split; [exact Hs|].
  destruct (search_finds_exactly Z.ltb Individual.id people_1_3_5 3 Z_ltb_swo Hs)
    as [Hsome _].
  destruct (search_finds_exactly Z.ltb Individual.id people_1_3_5 4 Z_ltb_swo Hs)
    as [_ Hnone].
  split.
  - apply Hsome. exists (person 3 7000). split; reflexivity.
  - apply Hnone. intros x [<- | [<- | [<- | []]]]; reflexivity.
Defined.

Lemma equiv_keys_refl {K} (comp : K -> K -> bool) a :
  strict_weak_order comp -> T.equiv_keys comp a a = true.
Proof.
  intros (Hirr & _). unfold T.equiv_keys. now rewrite Hirr.
Qed.

(** In a sorted store at most one element has a key equivalent to [k]. *)
Lemma sorted_equiv_head_only {E K} (comp : K -> K -> bool) (key : E -> K) a l k :
  strict_weak_order comp ->
  T.sorted_by_key comp key (a :: l) ->
  T.equiv_keys comp k (key a) = true ->
  forall y, In y l -> T.equiv_keys comp k (key y) = false.
Proof.
  intros Hswo Hs Ha y Hy.
  apply StronglySorted_inv in Hs as [_ Hall]. rewrite Forall_forall in Hall.
  specialize (Hall y Hy). simpl in Hall.
  apply (TreeFacts.equiv_spec comp) in Ha as [Hka Hak].
  destruct (T.equiv_keys comp k (key y)) eqn:He; auto.
  apply (TreeFacts.equiv_spec comp) in He as [Hky Hyk].
  destruct (TreeFacts.comp_cotrans comp Hswo _ k _ Hall); congruence.
Qed.

Lemma insert_length {E K} (comp : K -> K -> bool) (key : E -> K) data item :
  length (T.insert comp key data item)
  = match T.search comp key data (key item) with
    | Some _ => length data
    | None => S (length data)
    end.
Proof.
  unfold T.insert, T.search, T.vector_insert.
  set (p := T.find_insert_pos comp key data (key item)).
  assert (Hlen : length (firstn p data ++ item :: skipn p data) = S (length data)).
  { rewrite length_app. simpl. rewrite Nat.add_succ_r. f_equal.
    rewrite <- length_app. now rewrite firstn_skipn. }
  destruct (nth_error data p) as [x|]; auto.
  destruct (T.equiv_keys comp (key item) (key x)); auto.
Qed.

(** X3. Lookup after insert, in a store sorted by key.  The key of the
    item is found afterwards: it leads to the item itself when the key was
    free, to the element that held the key when it was taken.  Every element
    stored before is still found under its key, and the size grows by one
    exactly when the key was free. *)
Theorem search_after_insert {E K : Type}
    (comp : K -> K -> bool) (key : E -> K) (data : list E) (item : E) :
  strict_weak_order comp ->
  T.sorted_by_key comp key data ->
  let data' := T.insert comp key data item in
  (exists p x,
     T.search comp key data' (key item) = Some p /\ nth_error data' p = Some x /\
     T.equiv_keys comp (key item) (key x) = true /\
     (T.search comp key data (key item) = None -> x = item) /\
     (T.search comp key data (key item) <> None -> In x data)) /\
  (forall q x, nth_error data q = Some x ->
     exists q', T.search comp key data' (key x) = Some q' /\ nth_error data' q' = Some x) /\
  length data' = match T.search comp key data (key item) with
                 | Some _ => length data
                 | None => S (length data)
                 end.
Proof.
  intros Hswo Hs data'.
  assert (Hs' : T.sorted_by_key comp key data') by now apply TreeFacts.insert_sorted.
  split; [|split].
  - destruct (T.search comp key data (key item)) as [p|] eqn:Hsearch.
    + pose proof Hsearch as Hx. apply TreeFacts.search_Some_inv in Hx as (x & Hx & He).
      assert (Hsame : data' = data).
      { apply TreeFacts.insert_present; auto. exists x. split; auto.
        eapply nth_error_In; eauto. }
      exists p, x. rewrite Hsame. repeat split; auto.
      * discriminate.
      * intros _. eapply nth_error_In; eauto.
    + assert (Hin : In item data').
      { apply TreeFacts.In_insert_new; auto. now apply TreeFacts.search_None_inv. }
      apply In_nth_error in Hin as [p Hp]. exists p, item.
      assert (He : T.equiv_keys comp (key item) (key item) = true)
        by now apply equiv_keys_refl.
      split; [now apply (TreeFacts.search_complete comp key Hswo data' _ p item)|].
      repeat split; auto. intros H. now elim H.
  - intros q x Hq.
    assert (Hin : In x data') by (apply TreeFacts.In_insert_old; eapply nth_error_In; eauto).
    apply In_nth_error in Hin as [q' Hq']. exists q'. split; auto.
    apply (TreeFacts.search_complete comp key Hswo data' _ q' x); auto.
    now apply equiv_keys_refl.
  - apply insert_length.
Qed.

Lemma search_after_insert_witness :
  strict_weak_order Z.ltb /\
  T.sorted_by_key Z.ltb Individual.id people_1_3_5 /\
  length (T.insert Z.ltb Individual.id people_1_3_5 (person 4 9000)) = 4%nat /\
  exists q',
    T.search Z.ltb Individual.id
      (T.insert Z.ltb Individual.id people_1_3_5 (person 4 9000)) 5 = Some q' /\
    nth_error (T.insert Z.ltb Individual.id people_1_3_5 (person 4 9000)) q'
    = Some (person 5 8000).
Proof.
  assert (Hs : T.sorted_by_key Z.ltb Individual.id people_1_3_5) by (repeat constructor).
  split; [exact Z_ltb_swo|]. split; [exact Hs|].
  destruct (search_after_insert Z.ltb Individual.id people_1_3_5 (person 4 9000)
              Z_ltb_swo Hs) as (_ & Hold & Hlen).
  split; [exact Hlen|].
  exact (Hold 2%nat (person 5 8000) eq_refl).
Defined.

Lemma remove_one_length {E K} (comp : K -> K -> bool) (key_eqb : K -> K -> bool)
    (key : E -> K) k :
  strict_weak_order comp ->
  (forall a b, key_eqb a b = true <-> T.equiv_keys comp a b = true) ->
  forall data, T.sorted_by_key comp key data ->
    (exists x, In x data /\ key_eqb (key x) k = true) ->
    length (filter (fun obj => negb (key_eqb (key obj) k)) data) = pred (length data).
Proof.
  intros Hswo Heqb. induction data as [|a l IH]; intros Hs (x & Hx & Hxk).
  - destruct Hx.
  - simpl. destruct (key_eqb (key a) k) eqn:Hak; simpl.
    + f_equal. apply forallb_filter_id, forallb_forall. intros y Hy.
      apply negb_true_iff. destruct (key_eqb (key y) k) eqn:Hyk; auto.
      assert (Ha : T.equiv_keys comp k (key a) = true).
      { apply Heqb in Hak. apply TreeFacts.equiv_spec in Hak.
        apply TreeFacts.equiv_spec. tauto. }
      pose proof (sorted_equiv_head_only comp key a l k Hswo Hs Ha y Hy) as Hno.
      apply Heqb in Hyk. apply TreeFacts.equiv_spec in Hyk.
      apply TreeFacts.equiv_false_spec in Hno. destruct Hyk, Hno; congruence.
    + destruct Hx as [-> | Hx]; [congruence|].
      apply StronglySorted_inv in Hs as [Hs _].
      rewrite IH by eauto. destruct l; [destruct Hx | reflexivity].
Qed.

(** X4. [remove] in a store sorted by key, for a key type whose [==] agrees
    with the comparator.  It returns [true] exactly when [search] finds the
    key; when it returns [false] the store is untouched.  Afterwards the
    store is still sorted, the key is not found any more, every element with
    another key is still found, and the size has gone down by one exactly
    when the key was there. *)
Theorem search_after_remove {E K : Type}
    (comp : K -> K -> bool) (key_eqb : K -> K -> bool) (key : E -> K)
    (data : list E) (k : K) :
  strict_weak_order comp ->
  (forall a b, key_eqb a b = true <-> T.equiv_keys comp a b = true) ->
  T.sorted_by_key comp key data ->
  let removed := fst (T.remove key_eqb key data k) in
  let data' := snd (T.remove key_eqb key data k) in
  (removed = true <-> T.search comp key data k <> None) /\
  (removed = false -> data' = data) /\
  T.sorted_by_key comp key data' /\
  T.search comp key data' k = None /\
  (forall q x, nth_error data q = Some x -> T.equiv_keys comp k (key x) = false ->
     exists q', T.search comp key data' (key x) = Some q' /\ nth_error data' q' = Some x) /\
  length data' = (if removed then pred (length data) else length data).
Proof.
  intros Hswo Heqb Hs removed data'.
  assert (Hsym : forall a b, T.equiv_keys comp a b = T.equiv_keys comp b a).
  { intros a b. unfold T.equiv_keys. apply andb_comm. }
  assert (Hs' : T.sorted_by_key comp key data') by now apply TreeFacts.remove_sorted.
  assert (Hdata' : data' = filter (fun obj => negb (key_eqb (key obj) k)) data)
    by apply TreeFacts.remove_snd.
  assert (Hflag : removed = true <-> exists x, In x data /\ key_eqb (key x) k = true)
    by apply TreeFacts.remove_fst.
  split; [|split; [|split; [|split; [|split]]]].
  - rewrite Hflag. split.
    + intros (x & Hx & Hk) Hnone.
      pose proof (TreeFacts.search_None_inv comp key Hswo data k Hs Hnone x Hx) as He.
      apply Heqb in Hk. rewrite Hsym in Hk. congruence.
    + intros Hsome. destruct (T.search comp key data k) as [p|] eqn:Hsearch; [|now elim Hsome].
      apply TreeFacts.search_Some_inv in Hsearch as (x & Hx & He).
      exists x. split; [eapply nth_error_In; eauto|]. apply Heqb. now rewrite Hsym.
  - intros Hfalse. subst removed data'. unfold T.remove in *.
    destruct (Nat.ltb _ _); [discriminate | reflexivity].
  - exact Hs'.
  - destruct (T.search comp key data' k) as [p|] eqn:Hsearch; auto.
    apply TreeFacts.search_Some_inv in Hsearch as (x & Hx & He).
    apply nth_error_In in Hx. rewrite Hdata' in Hx. apply filter_In in Hx as [_ Hx].
    apply negb_true_iff in Hx. rewrite Hsym in He. apply Heqb in He. congruence.
  - intros q x Hq Hne.
    assert (Hin : In x data').
    { rewrite Hdata'. apply filter_In. split; [eapply nth_error_In; eauto|].
      apply negb_true_iff. destruct (key_eqb (key x) k) eqn:Hk; auto.
      apply Heqb in Hk. rewrite Hsym in Hk. congruence. }
    apply In_nth_error in Hin as [q' Hq']. exists q'. split; auto.
    apply (TreeFacts.search_complete comp key Hswo data' _ q' x); auto.
    now apply equiv_keys_refl.
  - destruct removed eqn:Hrem.
    + pose proof (proj1 Hflag eq_refl) as Hex. rewrite Hdata'.
      now apply (remove_one_length comp key_eqb key k Hswo Heqb).
    + subst removed data'. unfold T.remove in *.
      destruct (Nat.ltb _ _); [discriminate | reflexivity].
Qed.

Lemma Z_eqb_equiv a b : (a =? b) = true <-> T.equiv_keys Z.ltb a b = true.
Proof. rewrite Z.eqb_eq. symmetry. apply Z_equiv_eq. Qed.

Lemma string_eqb_equiv a b : String.eqb a b = true <-> T.equiv_keys String.ltb a b = true.
Proof. rewrite String.eqb_eq. symmetry. apply string_equiv_eq. Qed.

Lemma search_after_remove_witness :
  strict_weak_order Z.ltb /\
  (forall a b, (a =? b) = true <-> T.equiv_keys Z.ltb a b = true) /\
  T.sorted_by_key Z.ltb Individual.id people_1_3_5 /\
  T.search Z.ltb Individual.id (snd (T.remove Z.eqb Individual.id people_1_3_5 3)) 3 = None /\
  length (snd (T.remove Z.eqb Individual.id people_1_3_5 3)) = 2%nat.
Proof.
  assert (Hs : T.sorted_by_key Z.ltb Individual.id people_1_3_5) by (repeat constructor).
  split; [exact Z_ltb_swo|]. split; [exact Z_eqb_equiv|]. split; [exact Hs|].
  destruct (search_after_remove Z.ltb Z.eqb Individual.id people_1_3_5 3
              Z_ltb_swo Z_eqb_equiv Hs) as (_ & _ & _ & Hgone & _ & Hlen).
  split; [exact Hgone | exact Hlen].
Defined.

Lemma filter_nothing {A} (f : A -> bool) l :
  (forall x, In x l -> f x = false) -> filter f l = [].
Proof.
  induction l as [|x l IH]; simpl; intros Hall; auto.
  rewrite (Hall x) by (now left). apply IH. intros y Hy. apply Hall. now right.
Qed.

Lemma range_scan_filter {E K} (comp : K -> K -> bool) (key : E -> K) b l :
  strict_weak_order comp ->
  T.sorted_by_key comp key l ->
  T.range_scan comp key b l = filter (fun x => negb (comp b (key x))) l.
Proof.
  intros Hswo. induction 1 as [|x l Hs IH Hall]; simpl; auto.
  destruct (comp b (key x)) eqn:Hbx; simpl.
  - rewrite (swo_asym comp b (key x) Hswo Hbx). simpl.
    symmetry. rewrite Forall_forall in Hall.
    clear IH Hs. induction l as [|y l IHl]; simpl; auto.
    rewrite (TreeFacts.comp_trans comp Hswo _ _ _ Hbx (Hall y (or_introl eq_refl))).
    simpl. apply IHl. intros z Hz. apply Hall. now right.
  - now rewrite IH.
Qed.

(** X5. [getRange] on a store sorted by key returns, in the order of the
    store, exactly the elements whose key is neither below [start_key] nor
    above [end_key]: both bounds are included.  What it returns is sorted,
    and [search] finds every element of it under its key. *)
Theorem getRange_inclusive {E K : Type}
    (comp : K -> K -> bool) (key : E -> K) (data : list E) (start_key end_key : K) :
  strict_weak_order comp ->
  T.sorted_by_key comp key data ->
  T.getRange comp key data start_key end_key
  = filter (fun x => negb (comp (key x) start_key) && negb (comp end_key (key x))) data /\
  T.sorted_by_key comp key (T.getRange comp key data start_key end_key) /\
  (forall x, In x (T.getRange comp key data start_key end_key) ->
     exists p, T.search comp key data (key x) = Some p /\ nth_error data p = Some x).
Proof.
  intros Hswo Hs.
  destruct (TreeFacts.find_insert_pos_spec comp key Hswo data start_key Hs) as [Hp Hpart].
  set (p := T.find_insert_pos comp key data start_key) in *.
  assert (Hsplit : data = firstn p data ++ skipn p data) by (symmetry; apply firstn_skipn).
  assert (Hs2 : T.sorted_by_key comp key (skipn p data)).
  { unfold T.sorted_by_key in *. rewrite Hsplit in Hs.
    now apply StronglySorted_app_inv in Hs as (_ & Hs2 & _). }
  assert (Heq : T.getRange comp key data start_key end_key
                = filter (fun x => negb (comp (key x) start_key) && negb (comp end_key (key x)))
                    data).
  { unfold T.getRange. fold p. rewrite (range_scan_filter comp key end_key _ Hswo Hs2).
    rewrite Hsplit at 2. rewrite filter_app.
    assert (Hlow : filter (fun x => negb (comp (key x) start_key) && negb (comp end_key (key x)))
                     (firstn p data) = []).
    { assert (Hall : forall x, In x (firstn p data) -> comp (key x) start_key = true).
      { intros x Hx. apply In_nth_error in Hx as [i Hi].
        rewrite nth_error_firstn in Hi. destruct (Nat.ltb_spec i p); [|discriminate].
        now apply (Hpart _ _ Hi). }
      apply filter_nothing. intros x Hx. now rewrite (Hall x Hx). }
    rewrite Hlow. simpl. apply filter_ext_in. intros x Hx.
    apply In_nth_error in Hx as [i Hi]. rewrite nth_error_skipn in Hi.
    destruct (comp (key x) start_key) eqn:Hc; auto.
    apply (Hpart _ _ Hi) in Hc. lia. }
  split; [exact Heq|]. split.
  - rewrite Heq. now apply StronglySorted_filter.
  - intros x Hx. rewrite Heq in Hx. apply filter_In in Hx as [Hx _].
    apply In_nth_error in Hx as [q Hq]. exists q. split; auto.
    apply (TreeFacts.search_complete comp key Hswo data _ q x); auto.
    now apply equiv_keys_refl.
Qed.

Lemma getRange_inclusive_witness :
  strict_weak_order Z.ltb /\
  T.sorted_by_key Z.ltb Individual.id people_1_3_5 /\
  T.getRange Z.ltb Individual.id people_1_3_5 3 5 = [person 3 7000; person 5 8000] /\
  T.getRange Z.ltb Individual.id people_1_3_5 4 2 = [].
Proof.
  assert (Hs : T.sorted_by_key Z.ltb Individual.id people_1_3_5) by (repeat constructor).
  split; [exact Z_ltb_swo|]. split; [exact Hs|].
  destruct (getRange_inclusive Z.ltb Individual.id people_1_3_5 3 5 Z_ltb_swo Hs) as [H35 _].
  destruct (getRange_inclusive Z.ltb Individual.id people_1_3_5 4 2 Z_ltb_swo Hs) as [H42 _].
  split; [rewrite H35 | rewrite H42]; reflexivity.
Defined.

(* ================================================================= *)
(** * Further properties of the operations *)

Lemma ind_insert_free inds x :
  AppFacts.sorted_inds inds ->
  (forall y, In y inds -> Individual.id y <> Individual.id x) ->
  AppFacts.sorted_inds (ind_insert inds x) /\
  (forall y, In y (ind_insert inds x) <-> y = x \/ In y inds).
Proof.
  intros Hs Hfree.
  assert (Hfree' : forall y, In y inds ->
            T.equiv_keys Z.ltb (Individual.id x) (Individual.id y) = false).
  { intros y Hy. destruct (T.equiv_keys Z.ltb (Individual.id x) (Individual.id y)) eqn:He; auto.
    apply Z_equiv_eq in He. symmetry in He. now apply Hfree in He. }
  split.
  - apply TreeFacts.insert_sorted; [apply Z_ltb_swo | exact Hs].
  - intros y. split.
    + apply TreeFacts.insert_In.
    + intros [-> | Hy].
      * now apply TreeFacts.In_insert_new; [apply Z_ltb_swo| |].
      * now apply TreeFacts.In_insert_old.
Qed.

(** X6. [add_person] on a tree sorted by id returns [false] exactly when
    an individual with the id is stored, and then changes nothing.
    Otherwise the new individual is stored with no group and no points and
    is found under its id, the individuals stored before are all still
    there, the groups are untouched and the tree is still sorted. *)
Theorem add_person_semantics id name age goal steps app :
  AppFacts.sorted_inds (individuals_tree app) ->
  let result := add_person id name age goal steps app in
  (fst result = false <-> exists x, In x (individuals_tree app) /\ Individual.id x = id) /\
  (fst result = false -> snd result = app) /\
  (fst result = true ->
     (exists p, find_individual (individuals_tree (snd result)) id
                = Some (p, Individual.mk id name age goal steps EmptyString 0)) /\
     (forall y, In y (individuals_tree (snd result)) <->
                y = Individual.mk id name age goal steps EmptyString 0 \/
                In y (individuals_tree app)) /\
     length (individuals_tree (snd result)) = S (length (individuals_tree app)) /\
     groups_tree (snd result) = groups_tree app /\
     AppFacts.sorted_inds (individuals_tree (snd result))).
Proof.
  intros Hs result. subst result. unfold add_person.
  pose proof (AppFacts.find_individual_None_iff (individuals_tree app) id Hs) as Hnone.
  destruct (ind_search (individuals_tree app) id) as [p|] eqn:Hsearch; simpl.
  - destruct (AppFacts.ind_search_find_individual _ _ _ Hsearch) as (x & Hx & Hp).
    apply AppFacts.find_individual_Some_inv in Hx as (_ & _ & Hid).
    split; [|split]; auto; try discriminate.
    split; auto. intros _. exists x. split; auto. eapply nth_error_In; eauto.
  - assert (Hfree : forall y, In y (individuals_tree app) -> Individual.id y <> id).
    { apply Hnone. unfold find_individual. now rewrite Hsearch. }
    set (x := Individual.new id name age goal steps).
    destruct (ind_insert_free (individuals_tree app) x Hs Hfree) as [Hs' Hmem].
    split; [|split]; try discriminate.
    + split; [discriminate|]. intros (y & Hy & Hid). now apply Hfree in Hy.
    + intros _. repeat split.
      * apply (AppFacts.find_individual_In _ x Hs'). apply Hmem. now left.
      * apply Hmem.
      * apply Hmem.
      * unfold ind_insert. rewrite insert_length. fold (ind_search (individuals_tree app) id).
        simpl Individual.id. unfold ind_search in Hsearch. now rewrite Hsearch.
      * exact Hs'.
Qed.

Lemma add_person_semantics_witness :
  AppFacts.sorted_inds (individuals_tree six_people) /\
  fst (add_person 3 "Again" 20 4000 [1; 2] six_people) = false /\
  fst (add_person 7 "Seventh" 20 4000 [1; 2] six_people) = true /\
  length (individuals_tree (snd (add_person 7 "Seventh" 20 4000 [1; 2] six_people))) = 7%nat.
Proof.
  assert (Hs : AppFacts.sorted_inds (individuals_tree six_people)) by (repeat constructor).
  split; [exact Hs|].
  destruct (add_person_semantics 3 "Again" 20 4000 [1; 2] six_people Hs) as (Hfalse & _).
  destruct (add_person_semantics 7 "Seventh" 20 4000 [1; 2] six_people Hs) as (_ & _ & Htrue).
  split.
  - apply Hfalse. exists (person 3 8000). split; [simpl; auto | reflexivity].
  - split; [reflexivity|]. now destruct (Htrue eq_refl) as (_ & _ & Hlen & _).
Defined.

Lemma valid_candidate_iff inds mid :
  AppFacts.sorted_inds inds ->
  (valid_candidate inds mid = true <->
   exists x, In x inds /\ Individual.id x = mid /\
             Individual.current_group_id x = EmptyString).
Proof.
  intros Hs. split; [apply valid_candidate_spec|].
  intros (x & Hx & Hid & Hcg).
  destruct (AppFacts.find_individual_In inds x Hs Hx) as [p Hp].
  unfold valid_candidate. rewrite <- Hid, Hp. now apply string_empty_spec.
Qed.

Lemma regroup_same_members g l1 l2 x :
  (forall m, In m l1 <-> In m l2) -> regroup g l1 x = regroup g l2 x.
Proof.
  intros Hl. destruct (In_dec_Z (Individual.id x) l1) as [Hin | Hnot].
  - rewrite !regroup_member; auto. now apply Hl.
  - rewrite !regroup_other; auto. intros H. now apply Hl in H.
Qed.

Lemma grp_insert_length grps g :
  grp_search grps (Group.group_id g) = None ->
  length (grp_insert grps g) = S (length grps).
Proof.
  intros Hsearch. unfold grp_insert. rewrite insert_length.
  unfold grp_search in Hsearch. now rewrite Hsearch.
Qed.

(** X7. [create_group] on a well-formed state succeeds exactly when no
    group has the id, at most [MAX_MEMBERS] candidates are given and at
    least one candidate is a stored individual without a group; in every
    other case the state stays as it is.  On success the new group is found
    under its id with the given name and goal, its members are the
    candidates that were stored and without a group, each once and in
    increasing order; exactly these individuals now carry the group id; the
    other groups are all still there. *)
Theorem create_group_semantics gid gname mids goal app :
  well_formed app ->
  let result := create_group gid gname mids goal app in
  let free x := Individual.current_group_id x = EmptyString in
  (fst result = GroupCreated <->
     (forall g, In g (groups_tree app) -> Group.group_id g <> gid) /\
     (length mids <= Group.MAX_MEMBERS)%nat /\
     (exists m x, In m mids /\ In x (individuals_tree app) /\
                  Individual.id x = m /\ free x)) /\
  (fst result <> GroupCreated -> snd result = app) /\
  (fst result = GroupCreated ->
     exists p members,
       find_group (groups_tree (snd result)) gid
       = Some (p, Group.mk gid gname members goal 0) /\
       StronglySorted Z.lt members /\
       (forall m, In m members <->
          In m mids /\ exists x, In x (individuals_tree app) /\
                                 Individual.id x = m /\ free x) /\
       individuals_tree (snd result) = map (regroup gid members) (individuals_tree app) /\
       (forall g, In g (groups_tree app) -> In g (groups_tree (snd result))) /\
       length (groups_tree (snd result)) = S (length (groups_tree app)) /\
       well_formed (snd result)).
Proof.
  intros [Hsi Hsg] result free. subst result. unfold create_group.
  pose proof (AppFacts.grp_search_find_group (groups_tree app) gid) as Hsf.
  pose proof (AppFacts.find_group_None_iff (groups_tree app) gid Hsg) as Hnone.
  assert (Hactual : forall m, In m (filter (valid_candidate (individuals_tree app)) mids) <->
            In m mids /\ exists x, In x (individuals_tree app) /\
                                   Individual.id x = m /\ free x).
  { intros m. rewrite filter_In, (valid_candidate_iff _ _ Hsi). reflexivity. }
  destruct (grp_search (groups_tree app) gid) as [p|] eqn:Hsearch.
  { simpl. split; [|split]; auto; try discriminate.
    split; [discriminate|]. intros (Hfree & _).
    apply Hnone, Hsf in Hfree. discriminate. }
  assert (Hfree : forall g, In g (groups_tree app) -> Group.group_id g <> gid)
    by (apply Hnone, Hsf; reflexivity).
  destruct (Nat.ltb_spec Group.MAX_MEMBERS (length mids)) as [Hbig | Hsmall].
  { simpl. split; [|split]; auto; try discriminate.
    split; [discriminate|]. intros (_ & Hle & _). lia. }
  destruct (filter (valid_candidate (individuals_tree app)) mids) as [|m0 rest] eqn:Hfilter.
  { simpl. split; [|split]; auto; try discriminate.
    split; [discriminate|]. intros (_ & _ & m & x & Hm & Hx & Hid & Hcg).
    assert (Hin : In m []) by (apply Hactual; eauto). destruct Hin. }
  cbn [fst snd].
  set (actual := m0 :: rest) in *.
  set (new_group := Group.new gid gname actual goal).
  destruct (grp_insert_free (groups_tree app) new_group Hsg Hfree) as (Hsg' & Hin' & Hmem).
  split; [|split].
  - split; auto. intros _. split; auto. split; auto.
    destruct (proj1 (Hactual m0) (or_introl eq_refl)) as (Hm0 & x & Hx).
    exists m0, x. tauto.
  - intros H. now elim H.
  - intros _.
    destruct (AppFacts.find_group_In _ _ Hsg' Hin') as [p Hp].
    exists p, (unique (sort_ints actual)).
    assert (Hmembers : forall m, In m (unique (sort_ints actual)) <-> In m actual).
    { intros m. now rewrite unique_In, sort_ints_In. }
    split; [exact Hp|].
    split; [apply unique_sorted, sort_ints_sorted|].
    split; [intros m; rewrite Hmembers; apply Hactual|].
    split.
    { cbn [individuals_tree]. rewrite (assign_group_all_as_map _ _ _ Hsi).
      apply map_ext. intros x. apply regroup_same_members.
      intros m. symmetry. apply Hmembers. }
    split; [intros g Hg; apply Hmem; now right|].
    split; [now apply grp_insert_length|].
    split; cbn [individuals_tree groups_tree];
      [now apply assign_group_all_sorted | exact Hsg'].
Qed.

Lemma create_group_semantics_witness :
  well_formed two_small_groups /\
  fst (create_group "G3" "Late" [1; 5; 99; 6; 5] 100 two_small_groups) = GroupCreated /\
  exists p members,
    find_group
      (groups_tree (snd (create_group "G3" "Late" [1; 5; 99; 6; 5] 100 two_small_groups)))
      "G3"
    = Some (p, Group.mk "G3" "Late" members 100 0) /\
    StronglySorted Z.lt members.
Proof.
  assert (Hwf : well_formed two_small_groups) by (split; repeat constructor).
  split; [exact Hwf|].
  destruct (create_group_semantics "G3" "Late" [1; 5; 99; 6; 5] 100 two_small_groups Hwf)
    as (_ & _ & Hok).
  assert (Hfst : fst (create_group "G3" "Late" [1; 5; 99; 6; 5] 100 two_small_groups)
                 = GroupCreated) by reflexivity.
  split; [exact Hfst|].
  destruct (Hok Hfst) as (p & members & Hp & Hsorted & _).
  exists p, members. split; [exact Hp | exact Hsorted].
Defined.

Example create_group_filters_candidates :
  map (fun g => (Group.group_id g, Group.member_ids g))
    (groups_tree (snd (create_group "G3" "Late" [1; 5; 99; 6; 5] 100 two_small_groups)))
  = [("G1"%string, [1; 2]); ("G2"%string, [3; 4]); ("G3"%string, [5; 6])].
Proof. reflexivity. Qed.

Lemma find_group_Some_iff grps gid :
  AppFacts.sorted_grps grps ->
  ((exists g, In g grps /\ Group.group_id g = gid) <->
   exists p g, find_group grps gid = Some (p, g)).
Proof.
  intros Hs. split.
  - intros (g & Hg & <-). destruct (AppFacts.find_group_In grps g Hs Hg) as [p Hp]. eauto.
  - intros (p & g & Hf). apply AppFacts.find_group_Some_inv in Hf as (_ & Hp & Hid).
    exists g. split; auto. eapply nth_error_In; eauto.
Qed.

(** X8. [delete_group] on a well-formed state returns [true] exactly when
    a group has the id; otherwise it changes nothing.  When the group is
    there it is removed and only it, the id is not found afterwards, and
    exactly the individuals whose id is in its member list have their
    [current_group_id] cleared; nobody is deleted. *)
Theorem delete_group_semantics gid app :
  well_formed app ->
  let result := delete_group gid app in
  (fst result = true <-> exists g, In g (groups_tree app) /\ Group.group_id g = gid) /\
  (fst result = false -> snd result = app) /\
  (forall g, In g (groups_tree app) -> Group.group_id g = gid ->
     groups_tree (snd result) = filter (other_group gid) (groups_tree app) /\
     find_group (groups_tree (snd result)) gid = None /\
     (forall h, In h (groups_tree app) -> Group.group_id h <> gid ->
        In h (groups_tree (snd result))) /\
     length (groups_tree (snd result)) = pred (length (groups_tree app)) /\
     individuals_tree (snd result)
     = map (regroup EmptyString (Group.member_ids g)) (individuals_tree app) /\
     well_formed (snd result)).
Proof.
  intros [Hsi Hsg] result. subst result.
  pose proof (find_group_Some_iff (groups_tree app) gid Hsg) as Hiff.
  destruct (find_group (groups_tree app) gid) as [[p g0]|] eqn:Hf.
  - rewrite (delete_group_found _ _ _ _ Hf). cbn [fst snd].
    split; [|split].
    + split; auto. intros _. apply Hiff. eauto.
    + discriminate.
    + intros g Hg Hid.
      pose proof Hf as Hf'. apply AppFacts.find_group_Some_inv in Hf' as (_ & Hp0 & Hid0).
      assert (g0 = g).
      { apply (sorted_grps_In_unique (groups_tree app)); auto; [|congruence].
        eapply nth_error_In; eauto. }
      subst g0. cbn [groups_tree individuals_tree].
      split; [reflexivity|]. split; [apply find_group_removed|].
      split; [intros h Hh Hne; apply filter_In; split; auto; now apply other_group_spec|].
      split.
      { apply (remove_one_length String.ltb String.eqb Group.group_id gid
                 string_ltb_swo string_eqb_equiv _ Hsg).
        exists g. split; auto. now apply String.eqb_eq. }
      split; [now apply assign_group_all_as_map|].
      split; cbn [groups_tree individuals_tree];
        [now apply assign_group_all_sorted | now apply filter_other_group_sorted].
  - rewrite (delete_group_not_found _ _ Hf). cbn [fst snd].
    split; [|split]; auto.
    + split; [discriminate|]. intros Hex. apply Hiff in Hex as (p & g & Hpg). discriminate.
    + intros g Hg Hid. exfalso.
      assert (Hex : exists p g, @None (nat * Group.t) = Some (p, g)) by (apply Hiff; eauto).
      destruct Hex as (p & g' & Hpg). discriminate.
Qed.

Lemma delete_group_semantics_witness :
  well_formed two_small_groups /\
  fst (delete_group "G2" two_small_groups) = true /\
  fst (delete_group "G9" two_small_groups) = false /\
  map Individual.current_group_id
    (individuals_tree (snd (delete_group "G2" two_small_groups)))
  = ["G1"; "G1"; ""; ""; ""; ""]%string.
Proof.
  assert (Hwf : well_formed two_small_groups) by (split; repeat constructor).
  split; [exact Hwf|].
  destruct (delete_group_semantics "G2" two_small_groups Hwf) as (Htrue & _ & Heffect).
  split; [apply Htrue; exists (Group.new "G2" "Runners" [3; 4] 20000); simpl; auto|].
  split; [reflexivity|].
  destruct (Heffect (Group.new "G2" "Runners" [3; 4] 20000)) as (_ & _ & _ & _ & Hinds & _);
    [simpl; auto | reflexivity |].
  rewrite Hinds. reflexivity.
Defined.

Lemma find_individual_Some_iff inds id :
  AppFacts.sorted_inds inds ->
  ((exists x, In x inds /\ Individual.id x = id) <->
   exists p x, find_individual inds id = Some (p, x)).
Proof.
  intros Hs. split.
  - intros (x & Hx & <-). destruct (AppFacts.find_individual_In inds x Hs Hx) as [p Hp]. eauto.
  - intros (p & x & Hf). apply AppFacts.find_individual_Some_inv in Hf as (_ & Hp & Hid).
    exists x. split; auto. eapply nth_error_In; eauto.
Qed.

Lemma delete_individual_returns app id p x :
  find_individual (individuals_tree app) id = Some (p, x) ->
  fst (delete_individual id app) = true.
Proof.
  intros Hf. unfold delete_individual. rewrite Hf.
  rewrite (surjective_pairing (ind_remove (individuals_tree app) id)). cbn [fst].
  apply TreeFacts.remove_fst.
  apply AppFacts.find_individual_Some_inv in Hf as (_ & Hp & Hid).
  exists x. split; [eapply nth_error_In; eauto | now apply Z.eqb_eq].
Qed.

(** X9. [delete_individual] on a well-formed state returns [true] exactly
    when an individual has the id; otherwise it changes nothing.  When the
    individual is there it is removed and only it, the id is not found
    afterwards, and the group named by its [current_group_id], if any,
    loses that id from its member list and nothing else; the other groups,
    and all groups when the individual carries no group id, are untouched. *)
Theorem delete_individual_semantics id app :
  well_formed app ->
  let result := delete_individual id app in
  (fst result = true <-> exists x, In x (individuals_tree app) /\ Individual.id x = id) /\
  (fst result = false -> snd result = app) /\
  (forall x, In x (individuals_tree app) -> Individual.id x = id ->
     individuals_tree (snd result)
     = filter (fun y => negb (Individual.id y =? id)) (individuals_tree app) /\
     find_individual (individuals_tree (snd result)) id = None /\
     (forall y, In y (individuals_tree app) -> Individual.id y <> id ->
        In y (individuals_tree (snd result))) /\
     length (individuals_tree (snd result)) = pred (length (individuals_tree app)) /\
     (Individual.current_group_id x = EmptyString ->
        groups_tree (snd result) = groups_tree app) /\
     (Individual.current_group_id x <> EmptyString ->
        groups_tree (snd result)
        = map (without_member (Individual.current_group_id x) id) (groups_tree app)) /\
     well_formed (snd result)).
Proof.
  intros [Hsi Hsg] result. subst result.
  pose proof (find_individual_Some_iff (individuals_tree app) id Hsi) as Hiff.
  destruct (find_individual (individuals_tree app) id) as [[p x0]|] eqn:Hf.
  - rewrite (delete_individual_returns _ _ _ _ Hf), (delete_individual_found _ _ _ _ Hf).
    split; [|split].
    + split; auto. intros _. apply Hiff. eauto.
    + discriminate.
    + intros x Hx Hid.
      pose proof Hf as Hf'. apply AppFacts.find_individual_Some_inv in Hf' as (_ & Hp0 & Hid0).
      assert (x0 = x).
      { apply (sorted_inds_In_unique (individuals_tree app)); auto; [|congruence].
        eapply nth_error_In; eauto. }
      subst x0. cbn [groups_tree individuals_tree].
      set (inds' := filter (fun y => negb (Individual.id y =? id)) (individuals_tree app)).
      assert (Hsi' : AppFacts.sorted_inds inds') by now apply StronglySorted_filter.
      split; [reflexivity|]. split.
      { apply AppFacts.find_individual_None_iff; auto.
        intros y Hy. apply filter_In in Hy as [_ Hy].
        now apply negb_true_iff, Z.eqb_neq in Hy. }
      split.
      { intros y Hy Hne. apply filter_In. split; auto. now apply negb_true_iff, Z.eqb_neq. }
      split.
      { apply (remove_one_length Z.ltb Z.eqb Individual.id id Z_ltb_swo Z_eqb_equiv _ Hsi).
        exists x. split; auto. now apply Z.eqb_eq. }
      split.
      { intros Hempty. unfold leave_group. now rewrite Hempty. }
      split; [now apply leave_group_as_map|].
      split; cbn [groups_tree individuals_tree]; [exact Hsi'|].
      destruct (string_dec (Individual.current_group_id x) EmptyString) as [Hempty | Hcg].
      * unfold leave_group. now rewrite Hempty.
      * rewrite (leave_group_as_map id x _ Hsg Hcg).
        eapply sorted_grps_same_ids; [|exact Hsg].
        rewrite map_map. apply map_ext. intros g. apply without_member_id.
  - assert (Hsame : delete_individual id app = (false, app)).
    { unfold delete_individual. now rewrite Hf. }
    rewrite Hsame. cbn [fst snd]. split; [|split]; auto.
    + split; [discriminate|]. intros Hex. apply Hiff in Hex as (p & x & Hpx). discriminate.
    + intros x Hx Hid. exfalso.
      assert (Hex : exists p x, @None (nat * Individual.t) = Some (p, x))
        by (apply Hiff; eauto).
      destruct Hex as (p & x' & Hpx). discriminate.
Qed.

Lemma delete_individual_semantics_witness :
  well_formed two_small_groups /\
  fst (delete_individual 3 two_small_groups) = true /\
  fst (delete_individual 33 two_small_groups) = false /\
  groups_tree (snd (delete_individual 3 two_small_groups))
  = map (without_member "G2" 3) (groups_tree two_small_groups).
Proof.
  assert (Hwf : well_formed two_small_groups) by (split; repeat constructor).
  split; [exact Hwf|].
  destruct (delete_individual_semantics 3 two_small_groups Hwf) as (Htrue & _ & Heffect).
  split; [apply Htrue; exists (member 3 8000 "G2"); simpl; auto|].
  split; [reflexivity|].
  destruct (Heffect (member 3 8000 "G2")) as (_ & _ & _ & _ & _ & Hgrps & _);
    [simpl; auto | reflexivity |].
  apply Hgrps. discriminate.
Defined.

Example delete_individual_cascade :
  map (fun g => (Group.group_id g, Group.member_ids g))
    (groups_tree (snd (delete_individual 3 two_small_groups)))
  = [("G1"%string, [1; 2]); ("G2"%string, [4])].
Proof. reflexivity. Qed.

(* ================================================================= *)
(** * Invariants over sequences of operations *)

Lemma sorted_keys_NoDup {E K} (comp : K -> K -> bool) (key : E -> K) data :
  strict_weak_order comp -> T.sorted_by_key comp key data -> NoDup (map key data).
Proof.
  intros (Hirr & _). induction 1 as [|a l Hs IH Hall]; simpl; constructor; auto.
  rewrite Forall_forall in Hall. intros Hin. apply in_map_iff in Hin as (y & Hy & Hin).
  specialize (Hall y Hin). simpl in Hall. rewrite Hy, Hirr in Hall. discriminate.
Qed.

Lemma leave_group_ids id x grps :
  map Group.group_id (leave_group id x grps) = map Group.group_id grps.
Proof.
  unfold leave_group. destruct (string_empty _); auto.
  destruct (grp_search grps _); auto.
  apply map_update_at_same. reflexivity.
Qed.

Lemma delete_group_well_formed gid app :
  well_formed app -> well_formed (snd (delete_group gid app)).
Proof.
  intros [Hsi Hsg].
  destruct (find_group (groups_tree app) gid) as [[p g]|] eqn:Hf.
  - rewrite (delete_group_found _ _ _ _ Hf). split; cbn [snd groups_tree individuals_tree].
    + now apply assign_group_all_sorted.
    + now apply filter_other_group_sorted.
  - rewrite (delete_group_not_found _ _ Hf). now split.
Qed.

Lemma install_group_well_formed inds grps gid gname mids goal :
  well_formed (mk inds grps) ->
  well_formed (mk (assign_group_all gid mids inds)
                  (grp_insert grps (Group.new gid gname mids goal))).
Proof.
  intros [Hsi Hsg]. split; cbn [groups_tree individuals_tree] in *.
  - now apply assign_group_all_sorted.
  - apply TreeFacts.insert_sorted; [apply string_ltb_swo | exact Hsg].
Qed.

Lemma run_well_formed op app : well_formed app -> well_formed (run op app).
Proof.
  intros Hwf. pose proof Hwf as [Hsi Hsg]. destruct op; simpl.
  - unfold add_person. destruct (ind_search _ _); [exact Hwf|].
    split; cbn [snd groups_tree individuals_tree]; auto.
    apply TreeFacts.insert_sorted; [apply Z_ltb_swo | exact Hsi].
  - unfold create_group. destruct (grp_search _ _); [exact Hwf|].
    destruct (Nat.ltb _ _); [exact Hwf|].
    destruct (filter _ member_ids) as [|m rest]; [exact Hwf|].
    cbn [snd]. destruct app as [inds grps]. now apply install_group_well_formed.
  - destruct (find_individual (individuals_tree app) individual_id) as [[p x]|] eqn:Hf.
    + rewrite (delete_individual_found _ _ _ _ Hf).
      split; cbn [groups_tree individuals_tree].
      * now apply StronglySorted_filter.
      * eapply sorted_grps_same_ids; [apply leave_group_ids | exact Hsg].
    + unfold delete_individual. now rewrite Hf.
  - now apply delete_group_well_formed.
  - unfold merge_groups.
    destruct (find_group (groups_tree app) group_id_1) as [[p1 g1]|]; [|exact Hwf].
    destruct (find_group (groups_tree app) group_id_2) as [[p2 g2]|]; [|exact Hwf].
    destruct (Nat.ltb _ _); [exact Hwf|].
    pose proof (delete_group_well_formed group_id_1 app Hwf) as Hwf1.
    destruct (delete_group group_id_1 app) as [d1 app1]. cbn [snd] in Hwf1.
    destruct (negb d1); [exact Hwf1|].
    pose proof (delete_group_well_formed group_id_2 app1 Hwf1) as Hwf2.
    destruct (delete_group group_id_2 app1) as [d2 app2]. cbn [snd] in Hwf2.
    destruct (negb d2); [exact Hwf2|].
    cbn [snd]. destruct app2 as [inds2 grps2]. now apply install_group_well_formed.
Qed.

(** X10. Whatever the arguments, the five operations keep both trees
    sorted by key: after any sequence of operations from a well-formed
    state, and at every step on the way, no two stored individuals share an
    id and no two stored groups share a group id. *)
Theorem ids_stay_unique ops app :
  well_formed app ->
  forall n,
    let app' := run_all (firstn n ops) app in
    well_formed app' /\
    NoDup (map Individual.id (individuals_tree app')) /\
    NoDup (map Group.group_id (groups_tree app')).
Proof.
  intros Hwf n app'.
  assert (Hwf' : well_formed app').
  { subst app'. generalize (firstn n ops). intros l. revert app Hwf.
    induction l as [|op l IH]; intros app Hwf; simpl; auto.
    apply IH. now apply run_well_formed. }
  split; [exact Hwf'|]. destruct Hwf' as [Hsi Hsg]. split.
  - apply (sorted_keys_NoDup Z.ltb); [apply Z_ltb_swo | exact Hsi].
  - apply (sorted_keys_NoDup String.ltb); [apply string_ltb_swo | exact Hsg].
Qed.

Lemma ids_stay_unique_witness :
  well_formed one_person /\
  NoDup (map Group.group_id
           (groups_tree
              (run_all [CreateGroup "" "A" [1] 0; CreateGroup "" "B" [1] 0;
                        AddPerson 1 "Twin" 20 100 []; MergeGroups "" "" "C" 5] one_person))).
Proof.
  assert (Hwf : well_formed one_person) by (split; repeat constructor).
  split; [exact Hwf|].
  destruct (ids_stay_unique
              [CreateGroup "" "A" [1] 0; CreateGroup "" "B" [1] 0;
               AddPerson 1 "Twin" 20 100 []; MergeGroups "" "" "C" 5]
              one_person Hwf 4) as (_ & _ & Hgroups).
  exact Hgroups.
Defined.

(** X11. From a consistent state whose groups all have a non-empty id,
    every sequence of operations that creates no group under the empty id
    keeps the membership invariant at every step: each member id of a group
    belongs to a stored individual that carries the id of that group, and
    each non-empty [current_group_id] names a stored group that lists the
    individual. *)
Theorem membership_kept_with_named_groups ops app :
  consistent app -> groups_named app ->
  Forall names_its_group ops ->
  forall n,
    let app' := run_all (firstn n ops) app in
    members_point_back app' /\ group_ids_resolve app' /\
    well_formed app' /\ groups_named app'.
Proof.
  intros Hcons Hnamed Hops n app'.
  assert (Hprefix : Forall names_its_group (firstn n ops)).
  { apply Forall_forall. intros op Hop. rewrite Forall_forall in Hops.
    apply Hops. rewrite <- (firstn_skipn n ops). apply in_app_iff. now left. }
  assert (Hsound : sound app').
  { subst app'. revert Hprefix. generalize (firstn n ops). intros l Hl.
    assert (Hstart : sound app) by (split; assumption). clear Hcons Hnamed.
    revert app Hstart. induction Hl as [|op l Hop _ IH]; intros app Hstart; simpl; auto.
    apply IH. now apply run_sound. }
  destruct Hsound as ((Hwf & HI1 & HI2) & Hnamed'). auto.
Qed.

Lemma membership_kept_with_named_groups_witness :
  consistent two_small_groups /\ groups_named two_small_groups /\
  Forall names_its_group
    [DeleteIndividual 1; CreateGroup "G3" "Late" [5; 6; 1] 10; MergeGroups "G3" "G1" "All" 7;
     DeleteGroup "G2"] /\
  members_point_back
    (run_all [DeleteIndividual 1; CreateGroup "G3" "Late" [5; 6; 1] 10;
              MergeGroups "G3" "G1" "All" 7; DeleteGroup "G2"] two_small_groups).
Proof.
  assert (Hcons : consistent two_small_groups).
  { split; [split; repeat constructor|]. split.
    - intros g m [<- | [<- | []]] Hm; simpl in Hm.
      + destruct Hm as [<- | [<- | []]];
          [exists (member 1 6000 "G1") | exists (member 2 7000 "G1")];
          simpl; repeat split; auto 8.
      + destruct Hm as [<- | [<- | []]];
          [exists (member 3 8000 "G2") | exists (member 4 4000 "G2")];
          simpl; repeat split; auto 8.
    - intros x [<- | [<- | [<- | [<- | [<- | [<- | []]]]]]] Hcg; simpl in Hcg;
        try (now elim Hcg).
      + exists (Group.new "G1" "Walkers" [1; 2] 30000). simpl. auto.
      + exists (Group.new "G1" "Walkers" [1; 2] 30000). simpl. auto.
      + exists (Group.new "G2" "Runners" [3; 4] 20000). simpl. auto.
      + exists (Group.new "G2" "Runners" [3; 4] 20000). simpl. auto. }
  assert (Hnamed : groups_named two_small_groups).
  { intros g [<- | [<- | []]]; discriminate. }
  assert (Hops : Forall names_its_group
            [DeleteIndividual 1; CreateGroup "G3" "Late" [5; 6; 1] 10;
             MergeGroups "G3" "G1" "All" 7; DeleteGroup "G2"]).
  { repeat constructor. discriminate. }
  split; [exact Hcons|]. split; [exact Hnamed|]. split; [exact Hops|].
  destruct (membership_kept_with_named_groups _ _ Hcons Hnamed Hops 4) as (HI1 & _).
  exact HI1.
Defined.

Lemma In_update_at {A} (f : A -> A) l : forall p y,
  In y (update_at p f l) -> In y l \/ exists x, In x l /\ y = f x.
Proof.
  induction l as [|a l IH]; intros [|p] y; simpl; auto.
  - intros [<- | Hy]; eauto.
  - intros [<- | Hy]; auto. destruct (IH p y Hy) as [H | (x & Hx & ->)]; eauto.
Qed.

Lemma Group_new_tidy gid gname mids goal :
  (length mids <= Group.MAX_MEMBERS)%nat ->
  StronglySorted Z.lt (Group.member_ids (Group.new gid gname mids goal)) /\
  (length (Group.member_ids (Group.new gid gname mids goal)) <= Group.MAX_MEMBERS)%nat.
Proof.
  intros Hlen. simpl. split; [apply unique_sorted, sort_ints_sorted|].
  pose proof (unique_length (sort_ints mids)). rewrite sort_ints_length in *. lia.
Qed.

Lemma delete_group_tidy gid app :
  members_tidy app -> members_tidy (snd (delete_group gid app)).
Proof.
  intros Htidy g Hg. apply Htidy. eapply delete_group_groups_subset; eauto.
Qed.

Lemma run_tidy op app : members_tidy app -> members_tidy (run op app).
Proof.
  intros Htidy. destruct op; simpl.
  - unfold add_person. destruct (ind_search _ _); exact Htidy.
  - unfold create_group. destruct (grp_search _ _); [exact Htidy|].
    destruct (Nat.ltb_spec Group.MAX_MEMBERS (length member_ids)); [exact Htidy|].
    destruct (filter _ member_ids) as [|m rest] eqn:Hfilter; [exact Htidy|].
    cbn [snd]. intros g Hg. cbn [groups_tree] in Hg.
    apply TreeFacts.insert_In in Hg as [-> | Hg]; [|now apply Htidy].
    apply Group_new_tidy. rewrite <- Hfilter.
    pose proof (filter_length_le (valid_candidate (individuals_tree app)) member_ids). lia.
  - destruct (find_individual (individuals_tree app) individual_id) as [[p x]|] eqn:Hf.
    + rewrite (delete_individual_found _ _ _ _ Hf). intros g Hg. cbn [groups_tree] in Hg.
      unfold leave_group in Hg. destruct (string_empty _); [now apply Htidy|].
      destruct (grp_search _ _); [|now apply Htidy].
      apply In_update_at in Hg as [Hg | (h & Hh & ->)]; [now apply Htidy|].
      destruct (Htidy h Hh) as [Hsorted Hlen]. simpl. split.
      * now apply StronglySorted_filter.
      * pose proof (filter_length_le (fun y => negb (y =? individual_id)) (Group.member_ids h)).
        unfold vector_remove. lia.
    + unfold delete_individual. now rewrite Hf.
  - now apply delete_group_tidy.
  - unfold merge_groups.
    destruct (find_group (groups_tree app) group_id_1) as [[p1 g1]|]; [|exact Htidy].
    destruct (find_group (groups_tree app) group_id_2) as [[p2 g2]|]; [|exact Htidy].
    destruct (Nat.ltb_spec Group.MAX_MEMBERS (length (merged_member_set g1 g2)));
      [exact Htidy|].
    pose proof (delete_group_tidy group_id_1 app Htidy) as Htidy1.
    destruct (delete_group group_id_1 app) as [d1 app1]. cbn [snd] in Htidy1.
    destruct (negb d1); [exact Htidy1|].
    pose proof (delete_group_tidy group_id_2 app1 Htidy1) as Htidy2.
    destruct (delete_group group_id_2 app1) as [d2 app2]. cbn [snd] in Htidy2.
    destruct (negb d2); [exact Htidy2|].
    cbn [snd]. intros g Hg. cbn [groups_tree] in Hg.
    apply TreeFacts.insert_In in Hg as [-> | Hg]; [|now apply Htidy2].
    now apply Group_new_tidy.
Qed.

(** X12. Whatever the arguments, the five operations keep the member list
    of every group strictly increasing, hence free of duplicates, and within
    [MAX_MEMBERS]: this holds after any sequence of operations from a state
    where it holds, and at every step on the way. *)
Theorem member_lists_stay_tidy ops app :
  members_tidy app ->
  forall n g,
    In g (groups_tree (run_all (firstn n ops) app)) ->
    StronglySorted Z.lt (Group.member_ids g) /\
    NoDup (Group.member_ids g) /\
    (length (Group.member_ids g) <= Group.MAX_MEMBERS)%nat.
Proof.
  intros Htidy n.
  assert (Htidy' : members_tidy (run_all (firstn n ops) app)).
  { generalize (firstn n ops). intros l. revert app Htidy.
    induction l as [|op l IH]; intros app Htidy; simpl; auto.
    apply IH. now apply run_tidy. }
  intros g Hg. destruct (Htidy' g Hg) as [Hsorted Hlen].
  split; [exact Hsorted|]. split; [now apply increasing_NoDup | exact Hlen].
Qed.

Lemma member_lists_stay_tidy_witness :
  members_tidy six_people /\
  forall g,
    In g (groups_tree
            (run_all [CreateGroup "A" "a" [3; 1; 3; 2] 0; CreateGroup "B" "b" [6; 5; 4] 0;
                      MergeGroups "A" "B" "ab" 0; DeleteIndividual 2;
                      MergeGroups "A" "B" "ab" 0] six_people)) ->
    (length (Group.member_ids g) <= Group.MAX_MEMBERS)%nat.
Proof.
  assert (Htidy : members_tidy six_people) by (intros g []).
  split; [exact Htidy|]. intros g Hg.
  destruct (member_lists_stay_tidy
              [CreateGroup "A" "a" [3; 1; 3; 2] 0; CreateGroup "B" "b" [6; 5; 4] 0;
               MergeGroups "A" "B" "ab" 0; DeleteIndividual 2;
               MergeGroups "A" "B" "ab" 0] six_people Htidy 5 g Hg) as (_ & _ & Hlen).
  exact Hlen.
Defined.

Example merge_after_a_member_left :
  map (fun g => (Group.group_id g, Group.member_ids g))
    (groups_tree
       (run_all [CreateGroup "A" "a" [3; 1; 3; 2] 0; CreateGroup "B" "b" [6; 5; 4] 0;
                 MergeGroups "A" "B" "ab" 0; DeleteIndividual 2;
                 MergeGroups "A" "B" "ab" 0] six_people))
  = [("A"%string, [1; 3; 4; 5; 6])].
Proof. reflexivity. Qed.

(* ================================================================= *)
(** * How the operations compose *)

Lemma filter_everything {A} (f : A -> bool) l :
  (forall x, In x l -> f x = true) -> filter f l = l.
Proof.
  intros Hall. apply forallb_filter_id, forallb_forall. exact Hall.
Qed.

(** Removing by key what [insert] has just put in a free place gives the
    store back. *)
Lemma filter_insert_free {E K} (comp : K -> K -> bool) (key_eqb : K -> K -> bool)
    (key : E -> K) data item :
  strict_weak_order comp ->
  (forall a b, key_eqb a b = true <-> T.equiv_keys comp a b = true) ->
  T.sorted_by_key comp key data ->
  (forall x, In x data -> T.equiv_keys comp (key item) (key x) = false) ->
  filter (fun obj => negb (key_eqb (key obj) (key item))) (T.insert comp key data item)
  = data.
Proof.
  intros Hswo Heqb Hs Hfree.
  destruct (TreeFacts.insert_absent comp key Hswo data item Hs Hfree) as (Hins & _).
  rewrite Hins, filter_app. simpl.
  assert (Hitem : key_eqb (key item) (key item) = true)
    by (apply Heqb; now apply equiv_keys_refl).
  rewrite Hitem. simpl. rewrite <- filter_app, firstn_skipn.
  apply filter_everything. intros x Hx. apply negb_true_iff.
  destruct (key_eqb (key x) (key item)) eqn:He; auto.
  apply Heqb in He. unfold T.equiv_keys in He. rewrite andb_comm in He.
  specialize (Hfree x Hx). unfold T.equiv_keys in Hfree. congruence.
Qed.

(** X13. Deleting an individual right after adding it, under an id that
    was free, gives back the state as it was: both calls return [true] and
    nothing else has moved. *)
Theorem add_person_then_delete id name age goal steps app :
  AppFacts.sorted_inds (individuals_tree app) ->
  (forall x, In x (individuals_tree app) -> Individual.id x <> id) ->
  fst (add_person id name age goal steps app) = true /\
  delete_individual id (snd (add_person id name age goal steps app)) = (true, app).
Proof.
  intros Hs Hfree.
  assert (Hnone : ind_search (individuals_tree app) id = None).
  { destruct (ind_search (individuals_tree app) id) as [p|] eqn:Hsearch; auto.
    destruct (AppFacts.ind_search_find_individual _ _ _ Hsearch) as (x & Hx & Hp).
    apply AppFacts.find_individual_Some_inv in Hx as (_ & _ & Hid).
    apply nth_error_In in Hp. now apply Hfree in Hp. }
  unfold add_person. rewrite Hnone. cbn [fst snd]. split; [reflexivity|].
  set (x := Individual.new id name age goal steps).
  destruct (ind_insert_free (individuals_tree app) x Hs Hfree) as [Hs' Hmem].
  destruct (AppFacts.find_individual_In _ x Hs' (proj2 (Hmem x) (or_introl eq_refl)))
    as [p Hp].
  cbn [Individual.id x Individual.new] in Hp.
  set (app1 := mk (ind_insert (individuals_tree app) x) (groups_tree app)).
  rewrite (surjective_pairing (delete_individual id app1)).
  rewrite (delete_individual_returns app1 id p x Hp),
          (delete_individual_found app1 id p x Hp).
  f_equal. destruct app as [inds grps]. cbn [individuals_tree groups_tree app1] in *.
  f_equal.
  apply (filter_insert_free Z.ltb Z.eqb Individual.id inds x Z_ltb_swo Z_eqb_equiv Hs).
  intros y Hy. destruct (T.equiv_keys Z.ltb (Individual.id x) (Individual.id y)) eqn:He; auto.
  apply Z_equiv_eq in He. symmetry in He. now apply Hfree in He.
Qed.

Lemma add_person_then_delete_witness :
  AppFacts.sorted_inds (individuals_tree two_small_groups) /\
  (forall x, In x (individuals_tree two_small_groups) -> Individual.id x <> 0) /\
  delete_individual 0 (snd (add_person 0 "Zero" 9 1 [] two_small_groups))
  = (true, two_small_groups).
Proof.
  assert (Hs : AppFacts.sorted_inds (individuals_tree two_small_groups))
    by (repeat constructor).
  assert (Hfree : forall x, In x (individuals_tree two_small_groups) -> Individual.id x <> 0).
  { intros x [<- | [<- | [<- | [<- | [<- | [<- | []]]]]]]; discriminate. }
  split; [exact Hs|]. split; [exact Hfree|].
  now destruct (add_person_then_delete 0 "Zero" 9 1 [] two_small_groups Hs Hfree).
Defined.

Lemma set_group_id_back g x :
  Individual.current_group_id x = EmptyString ->
  Individual.set_current_group_id EmptyString (Individual.set_current_group_id g x) = x.
Proof. destruct x. simpl. now intros ->. Qed.

(** X14. Deleting a group right after creating it gives back the state as
    it was: in a well-formed state, when [create_group] succeeds, the
    following [delete_group] of the same id returns [true] and leaves every
    individual and every group exactly as before the creation. *)
Theorem create_group_then_delete gid gname mids goal app :
  well_formed app ->
  fst (create_group gid gname mids goal app) = GroupCreated ->
  delete_group gid (snd (create_group gid gname mids goal app)) = (true, app).
Proof.
  intros [Hsi Hsg]. unfold create_group.
  pose proof (AppFacts.grp_search_find_group (groups_tree app) gid) as Hsf.
  destruct (grp_search (groups_tree app) gid) as [p|] eqn:Hsearch; [discriminate|].
  destruct (Nat.ltb _ _); [discriminate|].
  destruct (filter (valid_candidate (individuals_tree app)) mids) as [|m0 rest] eqn:Hfilter;
    [discriminate|].
  intros _. cbn [snd]. rewrite <- Hfilter.
  set (actual := filter (valid_candidate (individuals_tree app)) mids).
  set (new_group := Group.new gid gname actual goal).
  assert (Hfree : forall g, In g (groups_tree app) -> Group.group_id g <> gid).
  { apply AppFacts.find_group_None_iff; auto. now apply Hsf. }
  destruct (grp_insert_free (groups_tree app) new_group Hsg Hfree) as (Hsg' & Hin' & _).
  destruct (AppFacts.find_group_In _ _ Hsg' Hin') as [p Hp].
  rewrite (delete_group_found
             (mk (assign_group_all gid actual (individuals_tree app))
                 (grp_insert (groups_tree app) new_group))
             gid p new_group Hp). f_equal.
  destruct app as [inds grps]. cbn [individuals_tree groups_tree] in *. f_equal.
  - rewrite (assign_group_all_as_map _ _ inds Hsi).
    rewrite assign_group_all_as_map
      by (eapply sorted_inds_same_ids; [apply map_regroup_ids | exact Hsi]).
    rewrite map_map. rewrite <- (map_id inds) at 2. apply map_ext_in. intros x Hx.
    assert (Hmembers : forall m, In m (Group.member_ids new_group) <-> In m actual)
      by (intros m; apply Group_new_members).
    destruct (In_dec_Z (Individual.id x) actual) as [Hin | Hnot].
    + rewrite (regroup_member gid actual x Hin).
      rewrite regroup_member by (now apply Hmembers).
      apply set_group_id_back.
      apply filter_In in Hin as [_ Hvalid].
      apply valid_candidate_spec in Hvalid as (y & Hy & Hid & Hcg).
      assert (y = x) by (eapply sorted_inds_In_unique; eauto). now subst y.
    + rewrite (regroup_other gid actual x Hnot).
      apply regroup_other. intros H. now apply Hmembers in H.
  - apply (filter_insert_free String.ltb String.eqb Group.group_id grps new_group
             string_ltb_swo string_eqb_equiv Hsg).
    intros g Hg.
    destruct (T.equiv_keys String.ltb (Group.group_id new_group) (Group.group_id g)) eqn:He;
      auto.
    apply string_equiv_eq in He. symmetry in He. now apply Hfree in He.
Qed.

Lemma create_group_then_delete_witness :
  well_formed two_small_groups /\
  fst (create_group "G3" "Late" [1; 5; 99; 6; 5] 100 two_small_groups) = GroupCreated /\
  delete_group "G3" (snd (create_group "G3" "Late" [1; 5; 99; 6; 5] 100 two_small_groups))
  = (true, two_small_groups).
Proof.
  assert (Hwf : well_formed two_small_groups) by (split; repeat constructor).
  assert (Hok : fst (create_group "G3" "Late" [1; 5; 99; 6; 5] 100 two_small_groups)
                = GroupCreated) by reflexivity.
  split; [exact Hwf|]. split; [exact Hok|].
  exact (create_group_then_delete "G3" "Late" [1; 5; 99; 6; 5] 100 two_small_groups Hwf Hok).
Defined.

(** X15. The ways [merge_groups] can end on a well-formed state.  It
    reports the first group missing exactly when no group has the first id,
    and the second missing exactly when the first is there and the second is
    not.  The first internal deletion never fails.  The second fails only
    when both ids are the same, and a merge never succeeds then.  So for two
    different ids [merge_groups] either succeeds or leaves the state exactly
    as it was. *)
Theorem merge_groups_outcomes g1 g2 gname goal app :
  well_formed app ->
  let result := merge_groups g1 g2 gname goal app in
  (fst result = FirstGroupNotFound <->
     forall g, In g (groups_tree app) -> Group.group_id g <> g1) /\
  (fst result = SecondGroupNotFound <->
     (exists g, In g (groups_tree app) /\ Group.group_id g = g1) /\
     (forall g, In g (groups_tree app) -> Group.group_id g <> g2)) /\
  fst result <> CouldNotDeleteFirst /\
  (fst result = CouldNotDeleteSecond -> g1 = g2) /\
  (fst result = Merged -> g1 <> g2) /\
  (g1 <> g2 -> fst result <> Merged -> snd result = app).
Proof.
  intros [Hsi Hsg] result. subst result. unfold merge_groups.
  pose proof (AppFacts.find_group_None_iff (groups_tree app) g1 Hsg) as Hnone1.
  pose proof (AppFacts.find_group_None_iff (groups_tree app) g2 Hsg) as Hnone2.
  pose proof (find_group_Some_iff (groups_tree app) g1 Hsg) as Hsome1.
  destruct (find_group (groups_tree app) g1) as [[p1 group1]|] eqn:Hf1.
  2:{ cbn [fst snd].
      split; [split; [intros _; now apply Hnone1 | reflexivity]|].
      split; [split; [discriminate|]|].
      { intros ((g & Hg & Hid) & _). exfalso. revert Hid. apply Hnone1; auto. }
      split; [discriminate|]. split; [discriminate|]. split; [discriminate | reflexivity]. }
  assert (Hex1 : exists g, In g (groups_tree app) /\ Group.group_id g = g1)
    by (apply Hsome1; eauto).
  assert (Hno1 : ~ (forall g, In g (groups_tree app) -> Group.group_id g <> g1)).
  { intros H. apply Hnone1 in H. discriminate. }
  destruct (find_group (groups_tree app) g2) as [[p2 group2]|] eqn:Hf2.
  2:{ cbn [fst snd].
      split; [split; [discriminate | intros H; now apply Hno1 in H]|].
      split; [split; [intros _; split; [exact Hex1 | now apply Hnone2] | reflexivity]|].
      split; [discriminate|]. split; [discriminate|]. split; [discriminate | reflexivity]. }
  assert (Hno2 : ~ (forall g, In g (groups_tree app) -> Group.group_id g <> g2)).
  { intros H. apply Hnone2 in H. discriminate. }
  assert (Hleft1 : forall r : merge_groups_result, r <> FirstGroupNotFound ->
            (r = FirstGroupNotFound <->
             forall g, In g (groups_tree app) -> Group.group_id g <> g1)).
  { intros r Hr. split; [intros H; now elim Hr | intros H; now apply Hno1 in H]. }
  assert (Hleft2 : forall r : merge_groups_result, r <> SecondGroupNotFound ->
            (r = SecondGroupNotFound <->
             (exists g, In g (groups_tree app) /\ Group.group_id g = g1) /\
             (forall g, In g (groups_tree app) -> Group.group_id g <> g2))).
  { intros r Hr. split; [intros H; now elim Hr | intros [_ H]; now apply Hno2 in H]. }
  destruct (Nat.ltb _ _).
  { cbn [fst snd].
    split; [apply Hleft1; discriminate|]. split; [apply Hleft2; discriminate|].
    split; [discriminate|]. split; [discriminate|]. split; [discriminate | reflexivity]. }
  rewrite (delete_group_found _ _ _ _ Hf1). simpl negb. cbv iota.
  set (app1 := mk _ (filter (other_group g1) (groups_tree app))).
  destruct (String.eqb_spec g1 g2) as [Heq | Hne].
  - subst g2. rewrite (delete_group_not_found app1 g1) by apply find_group_removed.
    cbn [fst snd negb].
    split; [apply Hleft1; discriminate|]. split; [apply Hleft2; discriminate|].
    split; [discriminate|]. split; [reflexivity|]. split; [discriminate|].
    intros H. now elim H.
  - assert (Hin2 : In group2 (groups_tree app1)).
    { apply AppFacts.find_group_Some_inv in Hf2 as (_ & Hp2 & Hid2).
      apply filter_In. split; [eapply nth_error_In; eauto|].
      apply other_group_spec. congruence. }
    assert (Hs1 : AppFacts.sorted_grps (groups_tree app1))
      by now apply filter_other_group_sorted.
    destruct (AppFacts.find_group_In _ _ Hs1 Hin2) as [p2' Hf2'].
    apply AppFacts.find_group_Some_inv in Hf2 as (_ & _ & Hid2). rewrite Hid2 in Hf2'.
    rewrite (delete_group_found app1 g2 p2' group2 Hf2').
    cbn [fst snd negb].
    split; [apply Hleft1; discriminate|]. split; [apply Hleft2; discriminate|].
    split; [discriminate|]. split; [discriminate|]. split; [intros _; exact Hne|].
    intros _ H. now elim H.
Qed.

Lemma merge_groups_outcomes_witness :
  well_formed two_small_groups /\
  fst (merge_groups "G7" "G1" "x" 0 two_small_groups) = FirstGroupNotFound /\
  fst (merge_groups "G1" "G7" "x" 0 two_small_groups) = SecondGroupNotFound /\
  snd (merge_groups "G1" "G7" "x" 0 two_small_groups) = two_small_groups.
Proof.
  assert (Hwf : well_formed two_small_groups) by (split; repeat constructor).
  split; [exact Hwf|].
  destruct (merge_groups_outcomes "G7" "G1" "x" 0 two_small_groups Hwf) as (Hfirst & _).
  destruct (merge_groups_outcomes "G1" "G7" "x" 0 two_small_groups Hwf)
    as (_ & Hsecond & _ & _ & _ & Hsame).
  split; [apply Hfirst; intros g [<- | [<- | []]]; discriminate|].
  assert (H2 : fst (merge_groups "G1" "G7" "x" 0 two_small_groups) = SecondGroupNotFound).
  { apply Hsecond. split.
    - exists (Group.new "G1" "Walkers" [1; 2] 30000). simpl. auto.
    - intros g [<- | [<- | []]]; discriminate. }
  split; [exact H2|]. apply Hsame; [discriminate|]. rewrite H2. discriminate.
Defined.

(* ================================================================= *)
(** * Further properties of the ranking operations *)

Lemma fold_left_add_total l : forall total,
  fold_left Z.add l total = total + fold_right Z.add 0 l.
Proof.
  induction l as [|a l IH]; intros total; simpl; [lia|]. rewrite IH. lia.
Qed.

(** On a tree sorted by id the lookup by bisection finds what a scan from
    the front finds. *)
Lemma find_individual_as_find inds id :
  AppFacts.sorted_inds inds ->
  option_map snd (find_individual inds id) = find (fun x => Individual.id x =? id) inds.
Proof.
  intros Hs. destruct (find (fun x => Individual.id x =? id) inds) as [x|] eqn:Hfind.
  - apply find_some in Hfind as [Hx Hid]. apply Z.eqb_eq in Hid.
    destruct (AppFacts.find_individual_In inds x Hs Hx) as [p Hp].
    rewrite Hid in Hp. now rewrite Hp.
  - assert (Hnone : find_individual inds id = None).
    { apply AppFacts.find_individual_None_iff; auto. intros x Hx Hid.
      apply (find_none _ _ Hfind) in Hx. apply Z.eqb_neq in Hx. contradiction. }
    now rewrite Hnone.
Qed.

Lemma total_group_steps_sum inds g :
  AppFacts.sorted_inds inds ->
  total_group_steps inds g
  = fold_right Z.add 0 (map (steps_of inds) (Group.member_ids g)).
Proof.
  intros Hs. unfold total_group_steps.
  assert (Hgen : forall l total,
            fold_left (add_member_steps inds) l total
            = total + fold_right Z.add 0 (map (steps_of inds) l)).
  { induction l as [|m l IH]; intros total; simpl; [lia|].
    rewrite IH. unfold add_member_steps, steps_of.
    rewrite <- (find_individual_as_find inds m Hs).
    destruct (find_individual inds m) as [[p x]|]; simpl; [|lia].
    rewrite fold_left_add_total. lia. }
  rewrite Hgen. lia.
Qed.

Lemma find_group_after_total grps gid p g total :
  find_group grps gid = Some (p, g) ->
  find_group (update_at p (Group.set_total_weekly_steps total) grps) gid
  = Some (p, Group.set_total_weekly_steps total g).
Proof.
  intros Hf. apply AppFacts.find_group_Some_inv in Hf as (Hsearch & Hp & Hid).
  unfold find_group, grp_search in *.
  rewrite (TreeFacts.search_same_keys String.ltb Group.group_id Group.group_id
             (update_at p (Group.set_total_weekly_steps total) grps) grps gid)
    by (apply map_update_at_same; reflexivity).
  rewrite Hsearch, nth_error_update_at, Nat.eqb_refl, Hp. reflexivity.
Qed.

Lemma update_at_twice {A} (f : A -> A) l :
  (forall x, f (f x) = f x) -> forall p, update_at p f (update_at p f l) = update_at p f l.
Proof.
  intros Hf. induction l as [|a l IH]; intros [|p]; simpl; auto.
  - now rewrite Hf.
  - now rewrite IH.
Qed.

(** X16. [check_group_achievement] on a well-formed state.  For an id that
    no group has it returns [false] and changes nothing.  For a stored group
    the total it compares with the goal is the sum, over the member ids, of
    all the steps of the week of the individual with that id; a member id
    without individual and an individual without steps count for nothing.
    It returns whether the total reaches the goal and stores the total in
    the group.  Asking again right away gives the same answer and the same
    state. *)
Theorem check_group_achievement_semantics gid app :
  well_formed app ->
  let result := check_group_achievement gid app in
  ((forall g, In g (groups_tree app) -> Group.group_id g <> gid) ->
   result = (false, app)) /\
  (forall g, In g (groups_tree app) -> Group.group_id g = gid ->
     let total :=
       fold_right Z.add 0 (map (steps_of (individuals_tree app)) (Group.member_ids g)) in
     fst result = (Group.weekly_group_goal g <=? total) /\
     exists p, nth_error (groups_tree app) p = Some g /\
       snd result
       = mk (individuals_tree app)
            (update_at p (Group.set_total_weekly_steps total) (groups_tree app))) /\
  check_group_achievement gid (snd result) = result.
Proof.
  intros [Hsi Hsg] result. subst result. unfold check_group_achievement.
  pose proof (AppFacts.find_group_None_iff (groups_tree app) gid Hsg) as Hnone.
  destruct (find_group (groups_tree app) gid) as [[p g0]|] eqn:Hf.
  - cbn [fst snd]. split; [|split].
    + intros Hfree. apply Hnone in Hfree. discriminate.
    + intros g Hg Hid. cbv zeta.
      pose proof Hf as Hf'. apply AppFacts.find_group_Some_inv in Hf' as (_ & Hp & Hid0).
      assert (g0 = g).
      { apply (sorted_grps_In_unique (groups_tree app)); auto; [|congruence].
        eapply nth_error_In; eauto. }
      subst g0. rewrite (total_group_steps_sum _ g Hsi).
      split; [reflexivity|]. exists p. split; [exact Hp | reflexivity].
    + cbn [groups_tree individuals_tree].
      rewrite (find_group_after_total _ _ _ _ _ Hf).
      assert (Hsame : total_group_steps (individuals_tree app)
                        (Group.set_total_weekly_steps
                           (total_group_steps (individuals_tree app) g0) g0)
                      = total_group_steps (individuals_tree app) g0) by reflexivity.
      rewrite Hsame. cbn [Group.weekly_group_goal Group.set_total_weekly_steps].
      f_equal. f_equal. apply update_at_twice. reflexivity.
  - cbn [fst snd]. rewrite Hf. split; [|split]; auto.
    intros g Hg Hid. exfalso. revert Hid. now apply Hnone.
Qed.

Lemma check_group_achievement_semantics_witness :
  well_formed two_small_groups /\
  fst (check_group_achievement "G1" two_small_groups) = (30000 <=? 24000 + (25000 + 0)) /\
  check_group_achievement "G5" two_small_groups = (false, two_small_groups).
Proof.
  assert (Hwf : well_formed two_small_groups) by (split; repeat constructor).
  split; [exact Hwf|].
  destruct (check_group_achievement_semantics "G1" two_small_groups Hwf) as (_ & Hfound & _).
  destruct (check_group_achievement_semantics "G5" two_small_groups Hwf) as (Hmissing & _).
  split.
  - destruct (Hfound (Group.new "G1" "Walkers" [1; 2] 30000)) as [Hfst _];
      [simpl; auto | reflexivity |].
    exact Hfst.
  - apply Hmissing. intros g [<- | [<- | []]]; discriminate.
Defined.

Lemma In_combine_seq {A B} (f : A -> B) l : forall s p t,
  In (p, t) (combine (seq s (length l)) (map f l)) <->
  (s <= p)%nat /\ exists g, nth_error l (p - s) = Some g /\ t = f g.
Proof.
  induction l as [|a l IH]; intros s p t; simpl.
  - split; [tauto|]. intros (_ & g & Hg & _). destruct (p - s)%nat; discriminate.
  - rewrite IH. split.
    + intros [Heq | (Hle & g & Hg & Ht)].
      * injection Heq as <- <-. split; [lia|]. exists a. rewrite Nat.sub_diag. auto.
      * split; [lia|]. exists g. replace (p - s)%nat with (S (p - S s)) by lia. auto.
    + intros (Hle & g & Hg & Ht). destruct (Nat.eq_dec s p) as [<- | Hne].
      * left. rewrite Nat.sub_diag in Hg. simpl in Hg. congruence.
      * right. split; [lia|]. exists g.
        replace (p - s)%nat with (S (p - S s)) in Hg by lia. auto.
Qed.

Lemma map_fst_combine_seq {A B} (f : A -> B) l : forall s,
  map fst (combine (seq s (length l)) (map f l)) = seq s (length l).
Proof.
  induction l as [|a l IH]; intros s; simpl; auto. now rewrite IH.
Qed.

(** X17. With any [std::sort] that keeps the promise of the standard, the
    leaderboard lists every stored group exactly once, each with the total
    of the steps of its members, in non-increasing order of that total; it
    is empty exactly when no group is stored. *)
Theorem leader_board_ranking sort app :
  std_sort_contract sort ->
  let board := fst (generate_leader_board sort app) in
  let total := total_group_steps (individuals_tree app) in
  (forall p t, In (p, t) board <->
     exists g, nth_error (groups_tree app) p = Some g /\ t = total g) /\
  NoDup (map fst board) /\
  length board = length (groups_tree app) /\
  StronglySorted (fun a b => snd b <= snd a) board.
Proof.
  intros [Hsort _] board total.
  assert (Hswo : strict_weak_order (fun a b : nat * Z => snd b <? snd a))
    by apply (more_of_swo (@snd nat Z)).
  destruct (Hsort (nat * Z)%type (fun a b => snd b <? snd a) (groups_with_steps app) Hswo)
    as [Hperm Hsorted].
  change (sort (nat * Z)%type (fun a b => snd b <? snd a) (groups_with_steps app))
    with board in Hperm, Hsorted.
  split; [|split; [|split]].
  - intros p t. split.
    + intros Hin. apply (Permutation_in _ (Permutation_sym Hperm)) in Hin.
      unfold groups_with_steps in Hin. apply In_combine_seq in Hin as (_ & g & Hg & Ht).
      rewrite Nat.sub_0_r in Hg. eauto.
    + intros (g & Hg & Ht). apply (Permutation_in _ Hperm).
      unfold groups_with_steps. apply In_combine_seq. split; [lia|].
      exists g. rewrite Nat.sub_0_r. auto.
  - apply (Permutation_NoDup (Permutation_map fst Hperm)).
    unfold groups_with_steps. rewrite map_fst_combine_seq. apply seq_NoDup.
  - rewrite <- (Permutation_length Hperm). unfold groups_with_steps.
    rewrite length_combine, length_seq, length_map. apply Nat.min_id.
  - unfold sorted_under in Hsorted. clear -Hsorted.
    induction Hsorted as [|a l Hs IH Hall]; constructor; auto.
    eapply Forall_impl; [|exact Hall]. intros b Hb. simpl in Hb. now apply Z.ltb_ge in Hb.
Qed.

Lemma leader_board_ranking_witness :
  std_sort_contract insertion_sort /\
  length (fst (generate_leader_board insertion_sort two_small_groups)) = 2%nat /\
  StronglySorted (fun a b => snd b <= snd a)
    (fst (generate_leader_board insertion_sort two_small_groups)).
Proof.
  split; [exact insertion_sort_contract|].
  destruct (leader_board_ranking insertion_sort two_small_groups insertion_sort_contract)
    as (_ & _ & Hlen & Hsorted).
  split; [exact Hlen | exact Hsorted].
Defined.

Example leader_board_of_two_groups :
  fst (generate_leader_board insertion_sort two_small_groups)
  = [(0%nat, 49000); (1%nat, 48000)].
Proof. reflexivity. Qed.

(** The rank that the loop finds is a position of the list. *)
Lemma find_rank_bound inds individual_id : forall top i r,
  find_rank inds individual_id top i = Some r -> (i <= r < i + length top)%nat.
Proof.
  induction top as [|q top IH]; intros i r Hr; [discriminate|].
  cbn [find_rank length] in *.
  destruct (nth_error inds q) as [y|].
  - destruct (Individual.id y =? individual_id).
    + injection Hr as <-. lia.
    + apply IH in Hr. lia.
  - apply IH in Hr. lia.
Qed.

(** X18. Whatever the sorting algorithm does, [check_individual_rewards]
    keeps the groups and the number of individuals, and changes at most the
    points of an individual with the id it was asked about: every stored
    individual is afterwards either as before or has had 100, 75 or 50
    added to its points, in the arithmetic of [int].  When the points are
    an [int] and 100 more is one too, they have not gone down and have gone
    up by at most 100. *)
Theorem rewards_only_add_points sort individual_id app :
  let app' := check_individual_rewards sort individual_id app in
  groups_tree app' = groups_tree app /\
  length (individuals_tree app') = length (individuals_tree app) /\
  forall p x, nth_error (individuals_tree app) p = Some x ->
    exists x', nth_error (individuals_tree app') p = Some x' /\
      without_points x' = without_points x /\
      (x' = x \/
       exists reward, In reward [100; 75; 50] /\ x' = Individual.add_points reward x) /\
      (Files.is_int (Individual.points x) = true ->
       Individual.points x + 100 <= Text.INT_MAX ->
       Individual.points x <= Individual.points x' <= Individual.points x + 100) /\
      (Individual.id x <> individual_id -> x' = x).
Proof.
  intros app'. subst app'. unfold check_individual_rewards.
  assert (Hsame : forall p x, nth_error (individuals_tree app) p = Some x ->
            exists x', nth_error (individuals_tree app) p = Some x' /\
              without_points x' = without_points x /\
              (x' = x \/
               exists reward, In reward [100; 75; 50] /\
                              x' = Individual.add_points reward x) /\
              (Files.is_int (Individual.points x) = true ->
               Individual.points x + 100 <= Text.INT_MAX ->
               Individual.points x <= Individual.points x' <= Individual.points x + 100) /\
              (Individual.id x <> individual_id -> x' = x)).
  { intros p x Hx. exists x. repeat split; auto; lia. }
  destruct (ind_search (individuals_tree app) individual_id) as [q|] eqn:Hsearch;
    [|now repeat split].
  rewrite get_top_3_pair.
  destruct (find_rank (individuals_tree app) individual_id _ 0) as [r|] eqn:Hrank;
    [|now repeat split].
  assert (Hr3 : (r < 3)%nat).
  { apply find_rank_bound in Hrank. rewrite get_top_3_firstn, length_firstn in Hrank. lia. }
  cbn [groups_tree individuals_tree]. split; [reflexivity|].
  split; [apply update_at_length|].
  intros p x Hx. rewrite nth_error_update_at.
  destruct (Nat.eqb_spec q p) as [-> | Hne]; [|now apply Hsame].
  rewrite Hx. cbn [option_map]. eexists. split; [reflexivity|].
  destruct (TreeFacts.search_Some_inv _ _ _ _ _ Hsearch) as (y & Hy & He).
  apply Z_equiv_eq in He. rewrite Hx in Hy. injection Hy as <-.
  assert (Hreward : In (rewards_map r) [100; 75; 50] /\ 0 <= rewards_map r <= 100).
  { destruct r as [|[|[|r]]]; [| | |lia]; cbn [rewards_map In]; split; auto; lia. }
  destruct Hreward as [Hin Hbound].
  split; [reflexivity|]. split; [|split].
  - right. exists (rewards_map r). split; [exact Hin | reflexivity].
  - intros Hint Hsum.
    rewrite (add_points_small (rewards_map r) x); [lia | lia | exact Hint | lia].
  - intros Hid. congruence.
Qed.

Lemma rewards_only_add_points_witness :
  nth_error (individuals_tree six_people) 4 = Some (person 5 9000) /\
  Files.is_int (Individual.points (person 5 9000)) = true /\
  Individual.points (person 5 9000) + 100 <= Text.INT_MAX /\
  exists x',
    nth_error (individuals_tree (check_individual_rewards insertion_sort 5 six_people)) 4
    = Some x' /\
    Individual.points (person 5 9000) <= Individual.points x'
    <= Individual.points (person 5 9000) + 100.
Proof.
  assert (Hx : nth_error (individuals_tree six_people) 4 = Some (person 5 9000))
    by reflexivity.
  assert (Hint : Files.is_int (Individual.points (person 5 9000)) = true) by reflexivity.
  assert (Hsum : Individual.points (person 5 9000) + 100 <= Text.INT_MAX)
    by (vm_compute; discriminate).
  split; [exact Hx|]. split; [exact Hint|]. split; [exact Hsum|].
  destruct (rewards_only_add_points insertion_sort 5 six_people) as (_ & _ & Hall).
  destruct (Hall 4%nat (person 5 9000) Hx) as (x' & Hx' & _ & _ & Hbound & _).
  exists x'. split; [exact Hx' | exact (Hbound Hint Hsum)].
Defined.

(* ================================================================= *)
(** ** The text primitives *)

Lemma append_nil_r (s : string) : (s ++ EmptyString)%string = s.
Proof. induction s as [|c s IH]; simpl; [reflexivity | now rewrite IH]. Qed.

Lemma append_assoc (a b c : string) : ((a ++ b) ++ c = a ++ (b ++ c))%string.
Proof. induction a as [|x a IH]; simpl; [reflexivity | now rewrite IH]. Qed.

Lemma append_length (a b : string) :
  String.length (a ++ b) = (String.length a + String.length b)%nat.
Proof. induction a as [|x a IH]; simpl; [reflexivity | now rewrite IH]. Qed.

Lemma contains_append (a b : string) (c : ascii) :
  Text.contains (a ++ b) c = Text.contains a c || Text.contains b c.
Proof.
  induction a as [|x a IH]; simpl; [reflexivity|].
  rewrite IH. now rewrite orb_assoc.
Qed.

Lemma ends_with_contains (s : string) (d : ascii) :
  Text.contains s d = false -> Text.ends_with s d = false.
Proof.
  induction s as [|c s IH]; simpl; [reflexivity|].
  intros H. apply orb_false_iff in H. destruct H as [Hc Hs].
  destruct s; [exact Hc | now apply IH].
Qed.

(** What one [getline] extracts: a line free of the delimiter, which is
    followed in the text either by a delimiter and the rest, or by the end
    of the text. *)
Lemma getline_spec (s : string) (d : ascii) :
  match Text.getline s d with
  | None => s = EmptyString
  | Some (line, rest) =>
      Text.contains line d = false /\
      (s = (line ++ String d rest)%string \/
       (s = line /\ rest = EmptyString /\ line <> EmptyString))
  end.
Proof.
  induction s as [|c s IH]; simpl; [reflexivity|].
  destruct (Ascii.eqb c d) eqn:Hc.
  - apply Ascii.eqb_eq in Hc. subst c. split; [reflexivity | now left].
  - destruct (Text.getline s d) as [[line rest]|].
    + destruct IH as [Hline Hs]. split.
      * simpl. now rewrite Hc.
      * destruct Hs as [Hs | (Hs & Hr & _)].
        -- left. simpl. now rewrite <- Hs.
        -- right. subst. repeat split; congruence.
    + subst s. split.
      * simpl. now rewrite Hc.
      * right. repeat split; congruence.
Qed.

Lemma getline_upto (line rest : string) (d : ascii) :
  Text.contains line d = false ->
  Text.getline (line ++ String d rest) d = Some (line, rest).
Proof.
  induction line as [|c line IH]; simpl; intros H.
  - now rewrite Ascii.eqb_refl.
  - apply orb_false_iff in H. destruct H as [Hc Hl].
    rewrite Hc, (IH Hl). reflexivity.
Qed.

Lemma getline_to_end (line : string) (d : ascii) :
  Text.contains line d = false -> line <> EmptyString ->
  Text.getline line d = Some (line, EmptyString).
Proof.
  induction line as [|c line IH]; simpl; intros H Hne; [congruence|].
  apply orb_false_iff in H. destruct H as [Hc Hl]. rewrite Hc.
  destruct line as [|c' line']; [reflexivity|].
  rewrite (IH Hl); [reflexivity | discriminate].
Qed.

Lemma getline_loop_nil (fuel : nat) (d : ascii) :
  Text.getline_loop fuel EmptyString d = [].
Proof. destruct fuel; reflexivity. Qed.

(** With enough fuel the loop stops because the text is used up, and then
    the tokens rebuild the text. *)
Lemma getline_loop_spec (d : ascii) (fuel : nat) :
  forall s, (String.length s < fuel)%nat ->
    Forall (fun token => Text.contains token d = false) (Text.getline_loop fuel s d) /\
    (String.concat (String d EmptyString) (Text.getline_loop fuel s d)
     ++ (if Text.ends_with s d then String d EmptyString else EmptyString))%string = s /\
    (s <> EmptyString -> Text.getline_loop fuel s d <> []).
Proof.
  induction fuel as [|fuel IH]; intros s Hlen; [lia|].
  simpl. pose proof (getline_spec s d) as Hg.
  destruct (Text.getline s d) as [[line rest]|].
  - destruct Hg as [Hline Hs].
    assert (Hrest : (String.length rest < fuel)%nat).
    { destruct Hs as [Hs | (Hs & Hr & Hne)].
      - subst s. rewrite append_length in Hlen. simpl in Hlen. lia.
      - subst rest line. destruct s; simpl in *; [congruence | lia]. }
    destruct (IH rest Hrest) as (Hclean & Hjoin & Hnonempty).
    split; [now constructor|]. split; [|discriminate].
    destruct Hs as [Hs | (Hs & Hr & Hne)].
    + destruct rest as [|c rest'].
      * rewrite getline_loop_nil. simpl. subst s.
        assert (He : Text.ends_with (line ++ String d EmptyString) d = true).
        { clear. induction line as [|c line IHl]; simpl.
          - apply Ascii.eqb_refl.
          - destruct (line ++ String d EmptyString)%string eqn:E; [|exact IHl].
            destruct line; discriminate. }
        now rewrite He.
      * assert (He : Text.ends_with s d = Text.ends_with (String c rest') d).
        { subst s. clear. induction line as [|x line IHl]; simpl; [reflexivity|].
          destruct (line ++ String d (String c rest'))%string eqn:E; [|exact IHl].
          destruct line; discriminate. }
        rewrite He.
        destruct (Text.getline_loop fuel (String c rest') d) as [|t ts] eqn:El.
        { exfalso. apply Hnonempty; [discriminate | reflexivity]. }
        change (String.concat (String d EmptyString) (line :: t :: ts)) with
          (line ++ String d EmptyString
           ++ String.concat (String d EmptyString) (t :: ts))%string.
        rewrite !append_assoc, Hjoin. subst s. reflexivity.
    + subst rest. rewrite getline_loop_nil. simpl. subst s.
      rewrite (ends_with_contains _ _ Hline). apply append_nil_r.
  - subst s. simpl. repeat split; [constructor | congruence].
Qed.

Lemma getline_loop_join (d : ascii) (fields : list string) :
  Forall (fun field => Text.contains field d = false) fields ->
  last fields (String d EmptyString) <> EmptyString ->
  forall fuel,
    (String.length (String.concat (String d EmptyString) fields) < fuel)%nat ->
    Text.getline_loop fuel (String.concat (String d EmptyString) fields) d = fields.
Proof.
  induction fields as [|x fields IH]; intros Hclean Hlast fuel Hfuel.
  - apply getline_loop_nil.
  - destruct fuel as [|fuel]; [lia|].
    inversion Hclean as [|? ? Hx Hrest]; subst.
    destruct fields as [|y fields].
    + simpl in *. rewrite (getline_to_end _ _ Hx Hlast).
      now rewrite getline_loop_nil.
    + change (String.concat (String d EmptyString) (x :: y :: fields)) with
        (x ++ String d (String.concat (String d EmptyString) (y :: fields)))%string
        in *.
      cbn [Text.getline_loop]. rewrite (getline_upto _ _ _ Hx).
      f_equal. apply IH; [exact Hrest | exact Hlast |].
      rewrite append_length in Hfuel. cbn [String.length] in Hfuel. lia.
Qed.

(** X19. [split] cuts the text at every delimiter and nowhere else: no
    token contains the delimiter, and the tokens joined by the delimiter
    give the text back, up to one delimiter at the very end of the text,
    which [split] swallows.  Only the empty text has no token. *)
Theorem split_rebuilds_text (s : string) (delimiter : ascii) :
  let tokens := Text.split s delimiter in
  let separator := String delimiter EmptyString in
  Forall (fun token => Text.contains token delimiter = false) tokens /\
  (String.concat separator tokens
   ++ (if Text.ends_with s delimiter then separator else EmptyString))%string = s /\
  (tokens = [] <-> s = EmptyString).
Proof.
  intros tokens separator. unfold tokens, Text.split.
  destruct (getline_loop_spec delimiter (S (String.length s)) s (Nat.lt_succ_diag_r _))
    as (Hclean & Hjoin & Hnonempty).
  split; [exact Hclean|]. split; [exact Hjoin|].
  split.
  - intros Hnil. destruct s as [|c s]; [reflexivity|].
    exfalso. apply Hnonempty; [discriminate | exact Hnil].
  - intros ->. reflexivity.
Qed.

(** X20. [split] undoes a join: fields that are free of the delimiter,
    joined by it, are returned as they were, provided the last field is
    not empty. *)
Theorem split_of_joined_fields (fields : list string) (delimiter : ascii) :
  Forall (fun field => Text.contains field delimiter = false) fields ->
  last fields (String delimiter EmptyString) <> EmptyString ->
  Text.split (String.concat (String delimiter EmptyString) fields) delimiter = fields.
Proof.
  intros Hclean Hlast. unfold Text.split.
  apply getline_loop_join; [exact Hclean | exact Hlast | lia].
Qed.

Lemma split_of_joined_fields_witness :
  let fields := ["G1"; "Walkers"; "1;2"; "70000"]%string in
  Forall (fun field => Text.contains field Files.comma = false) fields /\
  last fields (String Files.comma EmptyString) <> EmptyString /\
  Text.split "G1,Walkers,1;2,70000" Files.comma = fields.
Proof.
  intros fields.
  assert (Hclean : Forall (fun field => Text.contains field Files.comma = false) fields)
    by (repeat constructor).
  assert (Hlast : last fields (String Files.comma EmptyString) <> EmptyString)
    by discriminate.
  split; [exact Hclean|]. split; [exact Hlast|].
  exact (split_of_joined_fields fields Files.comma Hclean Hlast).
Defined.

(** A trailing empty field is lost, an empty field elsewhere is kept. *)
Example split_drops_last_empty_field :
  Text.split "a,,b," Files.comma = ["a"; ""; "b"]%string /\
  Text.split "," Files.comma = [EmptyString] /\
  Text.split "" Files.comma = [].
Proof. repeat split. Qed.

(** *** Decimal numbers *)

Lemma digit_char_spec (n : N) :
  (n < 10)%N ->
  Text.isdigit (Text.digit_char n) = true /\
  (N_of_ascii (Text.digit_char n) - 48)%N = n.
Proof.
  intros Hn.
  assert (H : n = 0%N \/ n = 1%N \/ n = 2%N \/ n = 3%N \/ n = 4%N \/ n = 5%N \/
              n = 6%N \/ n = 7%N \/ n = 8%N \/ n = 9%N) by lia.
  repeat (destruct H as [-> | H]; [split; reflexivity|]).
  subst n. split; reflexivity.
Qed.

Lemma isdigit_not_other (c : ascii) :
  Text.isdigit c = true ->
  Text.isspace c = false /\ Ascii.eqb c "-" = false /\ Ascii.eqb c "+" = false.
Proof.
  unfold Text.isdigit, Text.isspace. intros H.
  apply andb_true_iff in H. destruct H as [H1 H2].
  apply N.leb_le in H1. apply N.leb_le in H2.
  assert (Hm : Ascii.eqb c "-" = false).
  { destruct (Ascii.eqb c "-") eqn:E; [|reflexivity].
    apply Ascii.eqb_eq in E. subst c. vm_compute in H1. congruence. }
  assert (Hp : Ascii.eqb c "+" = false).
  { destruct (Ascii.eqb c "+") eqn:E; [|reflexivity].
    apply Ascii.eqb_eq in E. subst c. vm_compute in H1. congruence. }
  repeat split; try assumption.
  apply orb_false_iff. split.
  - apply N.eqb_neq. lia.
  - apply andb_false_iff. right. apply N.leb_gt. lia.
Qed.

(** Reading the digits that [digits_fuel] wrote yields the number. *)
Lemma read_digits_of_digits (fuel : nat) :
  forall n, (n < 2 ^ N.of_nat (S fuel))%N ->
    exists m k, forall rest acc count,
      Text.read_digits (Text.digits_fuel (S fuel) n ++ rest) acc count
      = Text.read_digits rest (acc * m + n)%N (count + S k)%nat.
Proof.
  induction fuel as [|fuel IH]; intros n Hn.
  - assert (Hlt : (n < 10)%N) by (change (2 ^ N.of_nat 1)%N with 2%N in Hn; lia).
    exists 10%N, 0%nat. intros rest acc count.
    cbn [Text.digits_fuel]. apply N.ltb_lt in Hlt. rewrite Hlt.
    apply N.ltb_lt in Hlt. destruct (digit_char_spec n Hlt) as [Hd Hv].
    cbn [String.append Text.read_digits]. rewrite Hd, Hv.
    f_equal; lia.
  - destruct (n <? 10)%N eqn:Hlt.
    + exists 10%N, 0%nat. intros rest acc count.
      change (Text.digits_fuel (S (S fuel)) n) with
        (if (n <? 10)%N then String (Text.digit_char n) EmptyString
         else (Text.digits_fuel (S fuel) (n / 10)
               ++ String (Text.digit_char (n mod 10)) EmptyString)%string).
      rewrite Hlt. apply N.ltb_lt in Hlt. destruct (digit_char_spec n Hlt) as [Hd Hv].
      cbn [String.append Text.read_digits]. rewrite Hd, Hv.
      f_equal; lia.
    + apply N.ltb_ge in Hlt.
      assert (Hdiv : (n / 10 < 2 ^ N.of_nat (S fuel))%N).
      { apply N.Div0.div_lt_upper_bound.
        rewrite Nat2N.inj_succ, N.pow_succ_r' in Hn. lia. }
      destruct (IH _ Hdiv) as (m & k & Hread).
      exists (m * 10)%N, (S k). intros rest acc count.
      change (Text.digits_fuel (S (S fuel)) n) with
        (if (n <? 10)%N then String (Text.digit_char n) EmptyString
         else (Text.digits_fuel (S fuel) (n / 10)
               ++ String (Text.digit_char (n mod 10)) EmptyString)%string).
      apply N.ltb_ge in Hlt. rewrite Hlt.
      rewrite append_assoc, Hread.
      assert (Hmod : (n mod 10 < 10)%N) by (apply N.mod_lt; lia).
      destruct (digit_char_spec _ Hmod) as [Hd Hv].
      cbn [String.append Text.read_digits]. rewrite Hd, Hv.
      pose proof (N.div_mod n 10 ltac:(lia)) as Hdm.
      f_equal; [|lia].
      transitivity (acc * m * 10 + (10 * (n / 10) + n mod 10))%N; [lia|].
      rewrite <- Hdm. lia.
Qed.

Lemma digits_fuel_enough (n : N) : (n < 2 ^ N.of_nat (S (N.to_nat (N.log2 n))))%N.
Proof.
  rewrite Nat2N.inj_succ, N2Nat.id.
  destruct n as [|p]; [reflexivity|].
  apply N.log2_spec. lia.
Qed.

Lemma digits_head (fuel : nat) (n : N) :
  exists c rest, Text.digits_fuel (S fuel) n = String c rest /\ Text.isdigit c = true.
Proof.
  revert n. induction fuel as [|fuel IH]; intros n.
  - cbn [Text.digits_fuel]. destruct (n <? 10)%N eqn:Hlt.
    + apply N.ltb_lt in Hlt. destruct (digit_char_spec n Hlt) as [Hd _].
      now exists (Text.digit_char n), EmptyString.
    + simpl. assert (Hmod : (n mod 10 < 10)%N) by (apply N.mod_lt; lia).
      destruct (digit_char_spec _ Hmod) as [Hd _].
      now exists (Text.digit_char (n mod 10)), EmptyString.
  - change (Text.digits_fuel (S (S fuel)) n) with
      (if (n <? 10)%N then String (Text.digit_char n) EmptyString
       else (Text.digits_fuel (S fuel) (n / 10)
             ++ String (Text.digit_char (n mod 10)) EmptyString)%string).
    destruct (n <? 10)%N eqn:Hlt.
    + apply N.ltb_lt in Hlt. destruct (digit_char_spec n Hlt) as [Hd _].
      now exists (Text.digit_char n), EmptyString.
    + destruct (IH (n / 10)%N) as (c & rest & Heq & Hc).
      rewrite Heq. simpl. eauto.
Qed.

Lemma digits_fuel_chars (fuel : nat) (c : ascii) :
  Text.isdigit c = false ->
  forall n, Text.contains (Text.digits_fuel fuel n) c = false.
Proof.
  intros Hc.
  assert (Hdigit : forall n, (n < 10)%N -> Ascii.eqb (Text.digit_char n) c = false).
  { intros n Hn. destruct (digit_char_spec n Hn) as [Hd _].
    destruct (Ascii.eqb (Text.digit_char n) c) eqn:E; [|reflexivity].
    apply Ascii.eqb_eq in E. congruence. }
  induction fuel as [|fuel IH]; intros n; [reflexivity|].
  cbn [Text.digits_fuel]. destruct (n <? 10)%N eqn:Hlt.
  - apply N.ltb_lt in Hlt. simpl. now rewrite (Hdigit n Hlt).
  - rewrite contains_append, IH. simpl.
    rewrite Hdigit; [reflexivity | apply N.mod_lt; lia].
Qed.

Lemma read_digits_stop (rest : string) (acc : N) (count : nat) :
  match rest with
  | String c _ => Text.isdigit c = false
  | EmptyString => True
  end ->
  Text.read_digits rest acc count = (acc, count).
Proof. destruct rest as [|c rest]; simpl; [reflexivity | now intros ->]. Qed.

Lemma read_digits_digits (n : N) (rest : string) :
  match rest with
  | String c _ => Text.isdigit c = false
  | EmptyString => True
  end ->
  exists k, Text.read_digits (Text.digits n ++ rest) 0 0 = (n, S k).
Proof.
  intros Hrest. unfold Text.digits.
  destruct (read_digits_of_digits _ n (digits_fuel_enough n)) as (m & k & Hread).
  exists k. rewrite Hread, (read_digits_stop _ _ _ Hrest). f_equal; lia.
Qed.

Lemma stoi_unsigned (c : ascii) (s : string) :
  Text.isdigit c = true ->
  Text.stoi (String c s)
  = let '(magnitude, count) := Text.read_digits (String c s) 0 0 in
    match count with
    | O => None
    | S _ =>
        if (Text.INT_MIN <=? Z.of_N magnitude) && (Z.of_N magnitude <=? Text.INT_MAX)
        then Some (Z.of_N magnitude) else None
    end.
Proof.
  intros Hc. destruct (isdigit_not_other c Hc) as (Hs & Hm & Hp).
  unfold Text.stoi. cbn [Text.skip_spaces]. now rewrite Hs, Hm, Hp.
Qed.

Lemma stoi_negative (s : string) :
  Text.stoi (String "-" s)
  = let '(magnitude, count) := Text.read_digits s 0 0 in
    match count with
    | O => None
    | S _ =>
        if (Text.INT_MIN <=? - Z.of_N magnitude) && (- Z.of_N magnitude <=? Text.INT_MAX)
        then Some (- Z.of_N magnitude) else None
    end.
Proof. reflexivity. Qed.

Lemma stoi_digits (n : N) (rest : string) :
  match rest with
  | String c _ => Text.isdigit c = false
  | EmptyString => True
  end ->
  Text.stoi (Text.digits n ++ rest)
  = if Files.is_int (Z.of_N n) then Some (Z.of_N n) else None.
Proof.
  intros Hrest.
  destruct (read_digits_digits n rest Hrest) as [k Hread].
  destruct (digits_head (N.to_nat (N.log2 n)) n) as (c & tail & Hhead & Hc).
  fold (Text.digits n) in Hhead.
  rewrite Hhead in *. cbn [String.append] in *.
  rewrite (stoi_unsigned _ _ Hc), Hread. reflexivity.
Qed.

Lemma stoi_minus_digits (n : N) (rest : string) :
  match rest with
  | String c _ => Text.isdigit c = false
  | EmptyString => True
  end ->
  Text.stoi (String "-" (Text.digits n ++ rest))
  = if Files.is_int (- Z.of_N n) then Some (- Z.of_N n) else None.
Proof.
  intros Hrest. rewrite stoi_negative.
  destruct (read_digits_digits n rest Hrest) as [k ->]. reflexivity.
Qed.

Lemma stoi_to_string (value : Z) :
  Files.is_int value = true -> Text.stoi (Text.to_string value) = Some value.
Proof.
  intros Hint. unfold Text.to_string.
  destruct (value <? 0) eqn:Hneg.
  - apply Z.ltb_lt in Hneg.
    rewrite <- (append_nil_r (Text.digits _)), (stoi_minus_digits _ EmptyString I).
    rewrite Z2N.id by lia. rewrite Z.opp_involutive. now rewrite Hint.
  - apply Z.ltb_ge in Hneg.
    rewrite <- (append_nil_r (Text.digits _)), (stoi_digits _ EmptyString I).
    rewrite Z2N.id by lia. now rewrite Hint.
Qed.

(** [stoi] reads back what [operator<<] and [to_string] write: for
    every [int] value, the decimal text of the value, followed by nothing
    or by anything that does not start with a digit, converts to the
    value. *)
Theorem stoi_of_to_string (value : Z) (rest : string) :
  Files.is_int value = true ->
  match rest with
  | String c _ => Text.isdigit c = false
  | EmptyString => True
  end ->
  Text.stoi (Text.to_string value ++ rest) = Some value.
Proof.
  intros Hint Hrest. unfold Text.to_string.
  destruct (value <? 0) eqn:Hneg.
  - apply Z.ltb_lt in Hneg.
    change (String "-" (Text.digits (Z.to_N (- value))) ++ rest)%string
      with (String "-" (Text.digits (Z.to_N (- value)) ++ rest)).
    rewrite (stoi_minus_digits _ _ Hrest).
    rewrite Z2N.id by lia. rewrite Z.opp_involutive. now rewrite Hint.
  - apply Z.ltb_ge in Hneg.
    rewrite (stoi_digits _ _ Hrest).
    rewrite Z2N.id by lia. now rewrite Hint.
Qed.

Lemma stoi_of_to_string_witness :
  Files.is_int (- 2147483648) = true /\
  Text.isdigit "," = false /\
  Text.stoi (Text.to_string (- 2147483648) ++ ",Ann") = Some (- 2147483648).
Proof.
  split; [reflexivity|]. split; [reflexivity|].
  apply (stoi_of_to_string (- 2147483648) ",Ann"); reflexivity.
Defined.

(** What [stoi] accepts and what it refuses. *)
Example stoi_examples :
  Text.stoi "  42abc" = Some 42 /\ Text.stoi "+7" = Some 7 /\
  Text.stoi "-0" = Some 0 /\ Text.stoi "" = None /\ Text.stoi "abc" = None /\
  Text.stoi "- 1" = None /\ Text.stoi "2147483648" = None /\
  Text.stoi "-2147483648" = Some (- 2147483648) /\
  Text.to_string 0 = "0"%string /\ Text.to_string (- 120) = "-120"%string /\
  Text.to_string 9000 = "9000"%string.
Proof. repeat split. Qed.

Lemma to_string_chars (value : Z) (c : ascii) :
  Text.isdigit c = false -> Ascii.eqb c "-" = false ->
  Text.contains (Text.to_string value) c = false.
Proof.
  intros Hc Hm. unfold Text.to_string, Text.digits.
  destruct (value <? 0).
  - cbn [Text.contains]. rewrite (digits_fuel_chars _ c Hc).
    destruct (Ascii.eqb "-" c) eqn:E; [|reflexivity].
    apply Ascii.eqb_eq in E. subst c. discriminate.
  - apply (digits_fuel_chars _ c Hc).
Qed.

Lemma to_string_nonempty (value : Z) : Text.to_string value <> EmptyString.
Proof.
  unfold Text.to_string. destruct (value <? 0); [discriminate|].
  destruct (digits_head (N.to_nat (N.log2 (Z.to_N value))) (Z.to_N value))
    as (c & tail & Hhead & _).
  unfold Text.digits. rewrite Hhead. discriminate.
Qed.

(* ================================================================= *)
(** ** Loading the CSV files *)

Lemma parse_individual_new line x :
  Files.parse_individual line = Some x ->
  exists id name age goal steps, x = Individual.new id name age goal steps.
Proof.
  unfold Files.parse_individual.
  destruct (length (Text.split line Files.comma) <? 5)%nat; [discriminate|].
  destruct (Text.split line Files.comma) as [|p0 [|p1 [|p2 [|p3 steps]]]];
    try discriminate.
  destruct (Text.stoi p0) as [id|]; [|discriminate].
  destruct (Text.stoi p2) as [age|]; [|discriminate].
  destruct (Text.stoi p3) as [goal|]; [|discriminate].
  destruct (Files.stoi_all steps) as [ws|]; [|discriminate].
  intros [= <-]. now exists id, p1, age, goal, ws.
Qed.

Lemma parse_group_new line g :
  Files.parse_group line = Some g ->
  exists gid gname mids goal, g = Group.new gid gname mids goal.
Proof.
  unfold Files.parse_group.
  destruct (length (Text.split line Files.comma) <? 4)%nat; [discriminate|].
  destruct (Text.split line Files.comma) as [|p0 [|p1 [|p2 [|p3 rest]]]];
    try discriminate.
  destruct (Files.stoi_all _) as [mids|]; [|discriminate].
  destruct (Text.stoi p3) as [goal|]; [|discriminate].
  intros [= <-]. now exists p0, p1, mids, goal.
Qed.

Lemma load_individuals_fresh lines : forall inds,
  AppFacts.sorted_inds inds ->
  (forall x, In x inds ->
     Individual.current_group_id x = EmptyString /\ Individual.points x = 0) ->
  AppFacts.sorted_inds (fold_left Files.load_individual lines inds) /\
  (forall x, In x (fold_left Files.load_individual lines inds) ->
     Individual.current_group_id x = EmptyString /\ Individual.points x = 0).
Proof.
  induction lines as [|line lines IH]; intros inds Hs Hfresh; [now split|].
  cbn [fold_left]. apply IH.
  - unfold Files.load_individual. destruct (Files.parse_individual line); [|exact Hs].
    apply TreeFacts.insert_sorted; [apply Z_ltb_swo | exact Hs].
  - unfold Files.load_individual. intros x Hx.
    destruct (Files.parse_individual line) as [y|] eqn:Hp; [|now apply Hfresh].
    apply TreeFacts.insert_In in Hx. destruct Hx as [-> | Hx]; [|now apply Hfresh].
    destruct (parse_individual_new _ _ Hp) as (id & name & age & goal & steps & ->).
    now split.
Qed.

(** What holds of the state all the way through the loop over the lines of
    the groups file. *)
Lemma load_group_invariant app line :
  well_formed app -> group_ids_resolve app ->
  (forall x, In x (individuals_tree app) -> Individual.points x = 0) ->
  (forall g, In g (groups_tree app) ->
     Group.total_weekly_steps g = 0 /\ StronglySorted Z.lt (Group.member_ids g)) ->
  let app' := Files.load_group app line in
  well_formed app' /\ group_ids_resolve app' /\
  (forall x, In x (individuals_tree app') -> Individual.points x = 0) /\
  (forall g, In g (groups_tree app') ->
     Group.total_weekly_steps g = 0 /\ StronglySorted Z.lt (Group.member_ids g)).
Proof.
  intros Hwf Hres Hpts Hgrp app'. subst app'. unfold Files.load_group.
  destruct (Files.parse_group line) as [g|] eqn:Hp;
    [|exact (conj Hwf (conj Hres (conj Hpts Hgrp)))].
  destruct (parse_group_new _ _ Hp) as (gid & gname & mids & goal & Hg).
  destruct app as [inds grps]. destruct Hwf as [Hsi Hsg].
  cbn [individuals_tree groups_tree] in *.
  assert (Hsg' : AppFacts.sorted_grps (grp_insert grps g))
    by (apply TreeFacts.insert_sorted; [apply string_ltb_swo | exact Hsg]).
  assert (Hgrp' : forall h, In h (grp_insert grps g) ->
            Group.total_weekly_steps h = 0 /\ StronglySorted Z.lt (Group.member_ids h)).
  { intros h Hh. apply TreeFacts.insert_In in Hh. destruct Hh as [-> | Hh]; [|now apply Hgrp].
    subst g. split; [reflexivity|]. simpl. apply unique_sorted, sort_ints_sorted. }
  destruct (find_group (grp_insert grps g) (Group.group_id g)) as [[p found]|] eqn:Hf.
  - apply AppFacts.find_group_Some_inv in Hf. destruct Hf as (_ & Hnth & Hid).
    apply nth_error_In in Hnth.
    rewrite (assign_group_all_as_map _ _ _ Hsi).
    split; [|split; [|split]]; cbn [individuals_tree groups_tree].
    + split; cbn [individuals_tree groups_tree]; [|exact Hsg'].
      apply (sorted_inds_same_ids inds); [apply map_regroup_ids | exact Hsi].
    + intros x' Hx' Hne. cbn [individuals_tree groups_tree] in *.
      apply in_map_iff in Hx'. destruct Hx' as (x & <- & Hx).
      unfold regroup in *.
      destruct (existsb (Z.eqb (Individual.id x)) (Group.member_ids found)) eqn:He.
      * exists found. cbn. repeat split; [exact Hnth | exact Hid |].
        apply existsb_exists in He. destruct He as (m & Hm & Heq).
        apply Z.eqb_eq in Heq. now rewrite Heq.
      * destruct (Hres x Hx Hne) as (h & Hh & Hhid & Hin).
        exists h. repeat split; try assumption.
        now apply TreeFacts.In_insert_old.
    + intros x' Hx'. apply in_map_iff in Hx'. destruct Hx' as (x & <- & Hx).
      unfold regroup. destruct (existsb _ _); cbn; now apply Hpts.
    + exact Hgrp'.
  - split; [|split; [|split]]; cbn [individuals_tree groups_tree].
    + now split.
    + intros x Hx Hne. cbn [individuals_tree groups_tree] in *.
      destruct (Hres x Hx Hne) as (h & Hh & Hhid & Hin).
      exists h. repeat split; try assumption. now apply TreeFacts.In_insert_old.
    + exact Hpts.
    + exact Hgrp'.
Qed.

Lemma load_groups_invariant lines : forall app,
  well_formed app -> group_ids_resolve app ->
  (forall x, In x (individuals_tree app) -> Individual.points x = 0) ->
  (forall g, In g (groups_tree app) ->
     Group.total_weekly_steps g = 0 /\ StronglySorted Z.lt (Group.member_ids g)) ->
  let app' := fold_left Files.load_group lines app in
  well_formed app' /\ group_ids_resolve app' /\
  (forall x, In x (individuals_tree app') -> Individual.points x = 0) /\
  (forall g, In g (groups_tree app') ->
     Group.total_weekly_steps g = 0 /\ StronglySorted Z.lt (Group.member_ids g)).
Proof.
  induction lines as [|line lines IH]; intros app Hwf Hres Hpts Hgrp;
    [exact (conj Hwf (conj Hres (conj Hpts Hgrp)))|].
  cbn [fold_left].
  destruct (load_group_invariant app line Hwf Hres Hpts Hgrp) as (H1 & H2 & H3 & H4).
  now apply IH.
Qed.

(** X21. Whatever the two files hold, or when they are missing, the
    constructor leaves a state in which both trees are sorted by key, so
    ids are unique, every non-empty [current_group_id] names a stored group
    that lists the individual, every member list is strictly increasing,
    and all points and stored totals are zero. *)
Theorem loaded_state_invariants (d : Files.disk) :
  let app := Files.new d in
  well_formed app /\ group_ids_resolve app /\
  (forall x, In x (individuals_tree app) -> Individual.points x = 0) /\
  (forall g, In g (groups_tree app) ->
     Group.total_weekly_steps g = 0 /\ StronglySorted Z.lt (Group.member_ids g)).
Proof.
  intros app. subst app. unfold Files.new, Files._load_data.
  cbn [individuals_tree groups_tree].
  set (inds := match Files.individuals_file d with
               | Some text => fold_left Files.load_individual (Files.data_lines text) []
               | None => []
               end).
  assert (Hinds : AppFacts.sorted_inds inds /\
            forall x, In x inds ->
              Individual.current_group_id x = EmptyString /\ Individual.points x = 0).
  { subst inds. destruct (Files.individuals_file d) as [text|].
    - apply load_individuals_fresh; [constructor | intros x []].
    - split; [constructor | intros x []]. }
  destruct Hinds as [Hs Hfresh].
  assert (Hwf : well_formed (mk inds [])) by (split; [exact Hs | constructor]).
  assert (Hres : group_ids_resolve (mk inds [])).
  { intros x Hx Hne. cbn in Hx. now destruct (Hfresh x Hx). }
  assert (Hpts : forall x, In x (individuals_tree (mk inds [])) -> Individual.points x = 0)
    by (intros x Hx; now destruct (Hfresh x Hx)).
  assert (Hgrp : forall g, In g (groups_tree (mk inds [])) ->
            Group.total_weekly_steps g = 0 /\ StronglySorted Z.lt (Group.member_ids g))
    by (intros g []).
  destruct (Files.groups_file d) as [text|].
  - now apply load_groups_invariant.
  - exact (conj Hwf (conj Hres (conj Hpts Hgrp))).
Qed.

(* ================================================================= *)
(** ** Saving, then loading *)

Lemma concat_empty_cons (x : string) (xs : list string) :
  String.concat EmptyString (x :: xs) = (x ++ String.concat EmptyString xs)%string.
Proof. destruct xs; simpl; [now rewrite append_nil_r | reflexivity]. Qed.

Lemma concat_sep_cons (sep x : string) (xs : list string) :
  String.concat sep (x :: xs)
  = (x ++ String.concat EmptyString (map (fun y => sep ++ y) xs))%string.
Proof.
  revert x. induction xs as [|y xs IH]; intros x.
  - simpl. now rewrite append_nil_r.
  - change (String.concat sep (x :: y :: xs)) with (x ++ sep ++ String.concat sep (y :: xs))%string.
    rewrite IH. cbn [map]. rewrite concat_empty_cons, append_assoc. reflexivity.
Qed.

Lemma contains_concat (sep : string) (c : ascii) (l : list string) :
  Text.contains sep c = false ->
  Forall (fun s => Text.contains s c = false) l ->
  Text.contains (String.concat sep l) c = false.
Proof.
  intros Hsep. induction 1 as [|x l Hx Hl IH]; [reflexivity|].
  destruct l as [|y l]; [exact Hx|].
  change (String.concat sep (x :: y :: l)) with (x ++ sep ++ String.concat sep (y :: l))%string.
  now rewrite !contains_append, Hx, Hsep, IH.
Qed.

(** The lines of a text in which every line ends with a newline. *)
Lemma lines_of_text (bodies : list string) :
  Forall (fun b => Text.contains b Files.newline = false) bodies ->
  forall fuel,
    let text := String.concat EmptyString
                  (map (fun b => b ++ String Files.newline EmptyString)%string bodies) in
    (String.length text < fuel)%nat ->
    Text.getline_loop fuel text Files.newline = bodies.
Proof.
  induction 1 as [|b bodies Hb Hrest IH]; intros fuel text Hfuel.
  - apply getline_loop_nil.
  - subst text. cbn [map] in *. rewrite concat_empty_cons in *.
    rewrite append_assoc in *. cbn [String.append] in *.
    destruct fuel as [|fuel]; [lia|].
    cbn [Text.getline_loop]. rewrite (getline_upto _ _ _ Hb). f_equal.
    apply IH. rewrite append_length in Hfuel. cbn [String.length] in Hfuel. lia.
Qed.

Lemma data_lines_text (header : string) (bodies : list string) :
  Text.contains header Files.newline = false ->
  Forall (fun b => Text.contains b Files.newline = false) bodies ->
  Files.data_lines
    ((header ++ String Files.newline EmptyString)
     ++ String.concat EmptyString
          (map (fun b => b ++ String Files.newline EmptyString) bodies))%string
  = bodies.
Proof.
  intros Hh Hb. unfold Files.data_lines.
  rewrite append_assoc. cbn [String.append].
  rewrite (getline_upto _ _ _ Hh). apply lines_of_text; [exact Hb | cbv zeta; lia].
Qed.

Lemma individual_line_fields (x : Individual.t) :
  Files.individual_line x
  = (String.concat "," (individual_fields x) ++ String Files.newline EmptyString)%string.
Proof.
  unfold Files.individual_line, individual_fields.
  rewrite concat_sep_cons. cbn [map]. rewrite !concat_empty_cons.
  rewrite map_map. rewrite !append_assoc. reflexivity.
Qed.

Lemma group_line_fields (g : Group.t) :
  Files.group_line g
  = (String.concat "," (group_fields g) ++ String Files.newline EmptyString)%string.
Proof.
  unfold Files.group_line, group_fields.
  rewrite concat_sep_cons. cbn [map]. rewrite !concat_empty_cons.
  rewrite !append_assoc. reflexivity.
Qed.

Lemma stoi_all_to_string (l : list Z) :
  forallb Files.is_int l = true -> Files.stoi_all (map Text.to_string l) = Some l.
Proof.
  induction l as [|z l IH]; simpl; [reflexivity|].
  intros H. apply andb_true_iff in H. destruct H as [Hz Hl].
  now rewrite (stoi_to_string z Hz), (IH Hl).
Qed.

Lemma to_string_field (c : ascii) (l : list Z) :
  Text.isdigit c = false -> Ascii.eqb c "-" = false ->
  Forall (fun s => Text.contains s c = false) (map Text.to_string l).
Proof.
  intros Hc Hm. apply Forall_forall. intros s Hs.
  apply in_map_iff in Hs. destruct Hs as (z & <- & _). now apply to_string_chars.
Qed.

Lemma last_to_string (l : list Z) (z : Z) (d : string) :
  last (map Text.to_string (z :: l)) d <> EmptyString.
Proof.
  revert z. induction l as [|y l IH]; intros z.
  - apply to_string_nonempty.
  - change (last (map Text.to_string (z :: y :: l)) d)
      with (last (map Text.to_string (y :: l)) d). apply IH.
Qed.

Lemma split_fields (fields : list string) :
  Forall (fun field => Text.contains field Files.comma = false) fields ->
  last fields (String Files.comma EmptyString) <> EmptyString ->
  Text.split (String.concat "," fields) Files.comma = fields.
Proof.
  intros Hclean Hlast. unfold Text.split.
  apply (getline_loop_join Files.comma);
    [exact Hclean | exact Hlast | apply Nat.lt_succ_diag_r].
Qed.

Lemma field_ok_spec (s : string) :
  Files.field_ok s = true ->
  Text.contains s Files.comma = false /\ Text.contains s Files.newline = false.
Proof.
  unfold Files.field_ok. intros H. apply andb_true_iff in H. destruct H as [H1 H2].
  apply negb_true_iff in H1. apply negb_true_iff in H2. now split.
Qed.

Lemma individual_ok_spec (x : Individual.t) :
  Files.individual_ok x = true ->
  Files.is_int (Individual.id x) = true /\ Files.field_ok (Individual.name x) = true /\
  Files.is_int (Individual.age x) = true /\
  Files.is_int (Individual.daily_step_goal x) = true /\
  forallb Files.is_int (Individual.weekly_step_count x) = true.
Proof.
  unfold Files.individual_ok. intros H.
  do 4 (apply andb_true_iff in H; destruct H as [H ?]). now repeat split.
Qed.

Lemma group_ok_spec (g : Group.t) :
  Files.group_ok g = true ->
  Files.field_ok (Group.group_id g) = true /\ Files.field_ok (Group.group_name g) = true /\
  forallb Files.is_int (Group.member_ids g) = true /\
  Files.is_int (Group.weekly_group_goal g) = true.
Proof.
  unfold Files.group_ok. intros H.
  do 3 (apply andb_true_iff in H; destruct H as [H ?]). now repeat split.
Qed.

(** A saved line of the individuals file is read back as the individual
    without group and points, unless it has no steps: then the line has
    four fields only and is skipped. *)
Lemma parse_individual_fields (x : Individual.t) :
  Files.individual_ok x = true ->
  Files.parse_individual (String.concat "," (individual_fields x))
  = if Files.has_steps x then Some (as_loaded x) else None.
Proof.
  intros Hok. destruct (individual_ok_spec x Hok) as (Hid & Hname & Hage & Hgoal & Hsteps).
  destruct (field_ok_spec _ Hname) as [Hnc _].
  unfold Files.parse_individual. rewrite split_fields.
  - unfold individual_fields, Files.has_steps, as_loaded.
    destruct (Individual.weekly_step_count x) as [|s steps] eqn:Hw; [reflexivity|].
    cbn [length map Nat.ltb Nat.leb].
    rewrite (stoi_to_string _ Hid), (stoi_to_string _ Hage), (stoi_to_string _ Hgoal).
    change (Text.to_string s :: map Text.to_string steps)
      with (map Text.to_string (s :: steps)).
    now rewrite (stoi_all_to_string _ Hsteps).
  - unfold individual_fields.
    repeat (constructor; [first [exact Hnc | now apply to_string_chars]|]).
    now apply to_string_field.
  - unfold individual_fields.
    change (last (Text.to_string (Individual.id x) :: Individual.name x
                  :: Text.to_string (Individual.age x)
                  :: Text.to_string (Individual.daily_step_goal x)
                  :: map Text.to_string (Individual.weekly_step_count x))
                 (String Files.comma EmptyString))
      with (last (map Text.to_string
                    (Individual.daily_step_goal x :: Individual.weekly_step_count x))
                 (String Files.comma EmptyString)).
    apply last_to_string.
Qed.

Lemma filter_nonempty_to_string (l : list Z) :
  filter (fun s => negb (string_empty s)) (map Text.to_string l) = map Text.to_string l.
Proof.
  induction l as [|z l IH]; simpl; [reflexivity|].
  pose proof (to_string_nonempty z) as Hne.
  destruct (Text.to_string z); [congruence|]. simpl. now rewrite IH.
Qed.

Lemma split_members (l : list Z) :
  Text.split (String.concat ";" (map Text.to_string l)) Files.semicolon
  = map Text.to_string l.
Proof.
  unfold Text.split.
  apply (getline_loop_join Files.semicolon);
    [now apply to_string_field | | apply Nat.lt_succ_diag_r].
  destruct l as [|z l]; [discriminate | apply last_to_string].
Qed.

(** A saved line of the groups file is read back as the constructor call
    on the fields of the group. *)
Lemma parse_group_fields (g : Group.t) :
  Files.group_ok g = true ->
  Files.parse_group (String.concat "," (group_fields g))
  = Some (Group.new (Group.group_id g) (Group.group_name g) (Group.member_ids g)
            (Group.weekly_group_goal g)).
Proof.
  intros Hok. destruct (group_ok_spec g Hok) as (Hid & Hname & Hmem & Hgoal).
  destruct (field_ok_spec _ Hid) as [Hic _]. destruct (field_ok_spec _ Hname) as [Hnc _].
  unfold Files.parse_group. rewrite split_fields.
  - unfold group_fields. cbn [length Nat.ltb Nat.leb].
    rewrite split_members, filter_nonempty_to_string.
    now rewrite (stoi_all_to_string _ Hmem), (stoi_to_string _ Hgoal).
  - unfold group_fields.
    repeat (constructor; [first [exact Hic | exact Hnc | now apply to_string_chars
                                | apply contains_concat;
                                  [reflexivity | now apply to_string_field]]|]).
    constructor.
  - apply to_string_nonempty.
Qed.

(** An item whose key is above every stored key goes to the end. *)
Lemma insert_at_end {E K : Type} (comp : K -> K -> bool) (key : E -> K)
    (data : list E) (item : E) :
  strict_weak_order comp ->
  T.sorted_by_key comp key data ->
  (forall a, In a data -> comp (key a) (key item) = true) ->
  T.insert comp key data item = data ++ [item].
Proof.
  intros Hswo Hs Hbelow.
  destruct (TreeFacts.insert_absent comp key Hswo data item Hs) as (Heq & _ & Hafter & _).
  { intros x Hx. apply TreeFacts.equiv_false_spec. right. now apply Hbelow. }
  rewrite Heq.
  set (p := T.find_insert_pos comp key data (key item)) in *.
  assert (Hnil : skipn p data = []).
  { destruct (skipn p data) as [|b rest] eqn:Hsk; [reflexivity|]. exfalso.
    inversion Hafter as [|? ? Hb _]; subst.
    assert (Hin : In b data).
    { rewrite <- (firstn_skipn p data), Hsk. apply in_or_app. right. now left. }
    rewrite (swo_asym comp _ _ Hswo (Hbelow b Hin)) in Hb. discriminate. }
  rewrite Hnil. f_equal.
  rewrite <- (firstn_skipn p data) at 2. rewrite Hnil. now rewrite app_nil_r.
Qed.

Lemma load_individuals_back : forall todo acc,
  AppFacts.sorted_inds acc -> AppFacts.sorted_inds todo ->
  (forall a x, In a acc -> In x todo -> Individual.id a < Individual.id x) ->
  forallb Files.individual_ok todo = true ->
  fold_left Files.load_individual
    (map (fun x => String.concat "," (individual_fields x)) todo) acc
  = acc ++ map as_loaded (filter Files.has_steps todo).
Proof.
  induction todo as [|x todo IH]; intros acc Hacc Htodo Hlt Hok.
  - simpl. now rewrite app_nil_r.
  - cbn [map fold_left filter]. cbn [forallb] in Hok.
    apply andb_true_iff in Hok. destruct Hok as [Hx Hok].
    inversion Htodo as [|? ? Htodo' Hhead]; subst.
    unfold Files.load_individual at 2. rewrite (parse_individual_fields x Hx).
    destruct (Files.has_steps x).
    + unfold ind_insert.
      rewrite (insert_at_end Z.ltb Individual.id acc (as_loaded x) Z_ltb_swo Hacc).
      2:{ intros a Ha. apply Z.ltb_lt. apply (Hlt a x Ha). now left. }
      rewrite IH; [cbn [map]; now rewrite <- app_assoc | | exact Htodo' | | exact Hok].
      * rewrite <- (insert_at_end Z.ltb Individual.id acc (as_loaded x) Z_ltb_swo Hacc).
        -- apply TreeFacts.insert_sorted; [apply Z_ltb_swo | exact Hacc].
        -- intros a Ha. apply Z.ltb_lt. apply (Hlt a x Ha). now left.
      * intros a y Ha Hy. apply in_app_or in Ha. destruct Ha as [Ha | [<- | []]].
        -- apply (Hlt a y Ha). now right.
        -- rewrite Forall_forall in Hhead. apply Z.ltb_lt. now apply Hhead.
    + apply IH; [exact Hacc | exact Htodo' | | exact Hok].
      intros a y Ha Hy. apply (Hlt a y Ha). now right.
Qed.

Section GroupsBack.
Variables (inds : list Individual.t) (grps : list Group.t).
Hypothesis inds_sorted : AppFacts.sorted_inds inds.
Hypothesis grps_sorted : AppFacts.sorted_grps grps.
Hypothesis point_back : members_point_back (mk inds grps).
Hypothesis increasing :
  forall g, In g grps -> StronglySorted Z.lt (Group.member_ids g).
Hypothesis grps_ok : forallb Files.group_ok grps = true.

Local Abbreviation kept := (filter Files.has_steps inds).

Lemma regrouped_id done x : Individual.id (regrouped done x) = Individual.id x.
Proof. unfold regrouped. now destruct (listed_in done x). Qed.

Lemma regrouped_sorted done : AppFacts.sorted_inds (map (regrouped done) kept).
Proof.
  apply (sorted_inds_same_ids kept).
  - rewrite map_map. apply map_ext. apply regrouped_id.
  - apply StronglySorted_filter. exact inds_sorted.
Qed.

(** One more group read: its members, and only they, get its id. *)
Lemma regroup_regrouped done g x :
  In g grps -> In x kept ->
  regroup (Group.group_id g) (Group.member_ids g) (regrouped done x)
  = regrouped (done ++ [g]) x.
Proof.
  intros Hg Hx. unfold regroup. rewrite regrouped_id.
  unfold regrouped at 3. unfold listed_in. rewrite existsb_app. cbn [existsb].
  rewrite orb_false_r. fold (listed_in done x).
  destruct (existsb (Z.eqb (Individual.id x)) (Group.member_ids g)) eqn:He.
  - rewrite orb_true_r.
    apply existsb_eqb_In in He.
    destruct (point_back g (Individual.id x) Hg He) as (x' & Hx' & Hid & Hcg).
    cbn [individuals_tree] in Hx'.
    assert (Hin : In x inds) by (apply filter_In in Hx; tauto).
    rewrite (sorted_inds_In_unique inds x' x inds_sorted Hx' Hin Hid) in Hcg.
    unfold regrouped, without_points, as_loaded, Individual.new,
      Individual.set_current_group_id.
    destruct (listed_in done x); cbn; now rewrite Hcg.
  - rewrite orb_false_r. reflexivity.
Qed.

Lemma load_groups_back : forall todo done,
  done ++ todo = grps ->
  fold_left Files.load_group
    (map (fun g => String.concat "," (group_fields g)) todo)
    (mk (map (regrouped done) kept) (map without_total done))
  = mk (map (regrouped grps) kept) (map without_total grps).
Proof.
  induction todo as [|g todo IH]; intros done Hsplit.
  - rewrite app_nil_r in Hsplit. now subst done.
  - cbn [map fold_left].
    assert (Hg : In g grps) by (rewrite <- Hsplit; apply in_or_app; right; now left).
    assert (Hgok : Files.group_ok g = true).
    { rewrite forallb_forall in grps_ok. now apply grps_ok. }
    assert (Hnew : Group.new (Group.group_id g) (Group.group_name g) (Group.member_ids g)
                     (Group.weekly_group_goal g) = without_total g)
      by (apply Group_new_increasing, increasing, Hg).
    assert (Hins : grp_insert (map without_total done) (without_total g)
                   = map without_total (done ++ [g])).
    { rewrite map_app. unfold grp_insert.
      pose proof grps_sorted as Hs. rewrite <- Hsplit in Hs.
      apply StronglySorted_app_inv in Hs. destruct Hs as (Hd & _ & Hlt).
      apply insert_at_end; [apply string_ltb_swo | |].
      - apply (sorted_grps_same_ids done); [|exact Hd].
        rewrite map_map. now apply map_ext.
      - intros a Ha. apply in_map_iff in Ha. destruct Ha as (a' & <- & Ha').
        apply (Hlt a' g Ha'). now left. }
    assert (Hsorted : AppFacts.sorted_grps (map without_total (done ++ [g]))).
    { pose proof grps_sorted as Hs.
      replace grps with ((done ++ [g]) ++ todo) in Hs
        by (rewrite <- app_assoc; exact Hsplit).
      apply StronglySorted_app_inv in Hs. destruct Hs as (Hd & _).
      apply (sorted_grps_same_ids (done ++ [g])); [|exact Hd].
      rewrite map_map. now apply map_ext. }
    unfold Files.load_group at 2. rewrite (parse_group_fields g Hgok), Hnew.
    cbn [individuals_tree groups_tree]. rewrite Hins.
    destruct (AppFacts.find_group_In _ (without_total g) Hsorted) as [p Hfind].
    { apply in_map. apply in_or_app. right. now left. }
    cbn [without_total Group.set_total_weekly_steps Group.group_id] in Hfind.
    change (Group.group_id (without_total g)) with (Group.group_id g).
    rewrite Hfind.
    change (Group.member_ids (without_total g)) with (Group.member_ids g).
    rewrite (assign_group_all_as_map _ _ _ (regrouped_sorted done)).
    rewrite map_map.
    rewrite (map_ext_in _ (regrouped (done ++ [g]))).
    2:{ intros x Hx. now apply regroup_regrouped. }
    apply IH. rewrite <- app_assoc. exact Hsplit.
Qed.

Hypothesis ids_resolve : group_ids_resolve (mk inds grps).

(** When all groups are read every individual has its group again. *)
Lemma regrouped_all x : In x kept -> regrouped grps x = without_points x.
Proof.
  intros Hx. unfold regrouped. destruct (listed_in grps x) eqn:Hl; [reflexivity|].
  assert (Hin : In x inds) by (apply filter_In in Hx; tauto).
  destruct (string_dec (Individual.current_group_id x) EmptyString) as [He | Hne].
  - unfold as_loaded, without_points, Individual.new. now rewrite He.
  - exfalso. destruct (ids_resolve x Hin Hne) as (g & Hg & _ & Hm).
    cbn [groups_tree] in Hg.
    assert (Hl' : listed_in grps x = true).
    { apply existsb_exists. exists g. split; [exact Hg | now apply existsb_eqb_In]. }
    congruence.
Qed.
End GroupsBack.

Lemma individual_fields_line (x : Individual.t) :
  Files.individual_ok x = true ->
  Text.contains (String.concat "," (individual_fields x)) Files.newline = false.
Proof.
  intros Hok. destruct (individual_ok_spec x Hok) as (_ & Hname & _).
  destruct (field_ok_spec _ Hname) as [_ Hnl].
  apply contains_concat; [reflexivity|]. unfold individual_fields.
  repeat (constructor; [first [exact Hnl | now apply to_string_chars]|]).
  now apply to_string_field.
Qed.

Lemma group_fields_line (g : Group.t) :
  Files.group_ok g = true ->
  Text.contains (String.concat "," (group_fields g)) Files.newline = false.
Proof.
  intros Hok. destruct (group_ok_spec g Hok) as (Hid & Hname & _).
  destruct (field_ok_spec _ Hid) as [_ Hil]. destruct (field_ok_spec _ Hname) as [_ Hnl].
  apply contains_concat; [reflexivity|]. unfold group_fields.
  repeat (constructor; [first [exact Hil | exact Hnl | now apply to_string_chars
                              | apply contains_concat;
                                [reflexivity | now apply to_string_field]]|]).
  constructor.
Qed.

Lemma data_lines_individuals (inds : list Individual.t) :
  forallb Files.individual_ok inds = true ->
  Files.data_lines (Files.individuals_text inds)
  = map (fun x => String.concat "," (individual_fields x)) inds.
Proof.
  intros Hok. unfold Files.individuals_text, Files.individuals_header.
  rewrite (map_ext _ _ individual_line_fields).
  rewrite <- (map_map (fun x => String.concat "," (individual_fields x))
                (fun b => (b ++ String Files.newline EmptyString)%string)).
  apply data_lines_text; [reflexivity|].
  apply Forall_forall. intros b Hb. apply in_map_iff in Hb. destruct Hb as (x & <- & Hx).
  rewrite forallb_forall in Hok. now apply individual_fields_line, Hok.
Qed.

Lemma data_lines_groups (grps : list Group.t) :
  forallb Files.group_ok grps = true ->
  Files.data_lines (Files.groups_text grps)
  = map (fun g => String.concat "," (group_fields g)) grps.
Proof.
  intros Hok. unfold Files.groups_text, Files.groups_header.
  rewrite (map_ext _ _ group_line_fields).
  rewrite <- (map_map (fun g => String.concat "," (group_fields g))
                (fun b => (b ++ String Files.newline EmptyString)%string)).
  apply data_lines_text; [reflexivity|].
  apply Forall_forall. intros b Hb. apply in_map_iff in Hb. destruct Hb as (g & <- & Hg).
  rewrite forallb_forall in Hok. now apply group_fields_line, Hok.
Qed.

Lemma load_saved_state (app : StepTrackerApp.t) (d : Files.disk) :
  consistent app ->
  (forall g, In g (groups_tree app) -> StronglySorted Z.lt (Group.member_ids g)) ->
  storable app ->
  Files.new (Files._save_data true true app d)
  = mk (map without_points (filter Files.has_steps (individuals_tree app)))
       (map without_total (groups_tree app)).
Proof.
  intros ((Hsi & Hsg) & Hback & Hres) Hinc [Hiok Hgok].
  destruct app as [inds grps]. cbn [individuals_tree groups_tree] in *.
  unfold Files.new, Files._load_data, Files._save_data.
  cbn [Files.individuals_file Files.groups_file individuals_tree groups_tree].
  rewrite (data_lines_individuals inds Hiok), (data_lines_groups grps Hgok).
  rewrite (load_individuals_back inds [] (SSorted_nil _) Hsi); [|intros a x []|exact Hiok].
  cbn [app].
  pose proof (load_groups_back inds grps Hsi Hsg Hback Hinc Hgok grps [] eq_refl) as Hload.
  etransitivity; [exact Hload|]. cbv zeta. f_equal.
  apply map_ext_in. intros x Hx.
  exact (regrouped_all inds grps Hres x Hx).
Qed.

(** X22. Saving and starting again.  Take a consistent state whose member
    lists are strictly increasing, whose names and group ids hold no comma
    and no newline, and whose numbers are [int]s.  After [_save_data] has
    written both files, the constructor rebuilds the state up to what the
    files do not record: every group is back with its stored total reset to
    zero, and every individual that has at least one step count is back,
    with its group and with zero points.  An individual without step counts
    is written but not read back. *)
Theorem save_then_load (app : StepTrackerApp.t) (d : Files.disk) :
  consistent app ->
  (forall g, In g (groups_tree app) -> StronglySorted Z.lt (Group.member_ids g)) ->
  forallb Files.individual_ok (individuals_tree app) = true ->
  forallb Files.group_ok (groups_tree app) = true ->
  Files.new (Files._save_data true true app d)
  = mk (map without_points (filter Files.has_steps (individuals_tree app)))
       (map without_total (groups_tree app)).
Proof.
  intros Hcons Hinc Hiok Hgok.
  assert (Hst : storable app) by (split; [exact Hiok | exact Hgok]).
  exact (load_saved_state app d Hcons Hinc Hst).
Qed.

Lemma save_then_load_witness :
  consistent ann_and_bob /\
  (forall g, In g (groups_tree ann_and_bob) -> StronglySorted Z.lt (Group.member_ids g)) /\
  forallb Files.individual_ok (individuals_tree ann_and_bob) = true /\
  forallb Files.group_ok (groups_tree ann_and_bob) = true /\
  Files.new (Files._save_data true true ann_and_bob no_files)
  = mk [Individual.mk 1 "Ann" 30 5000 [6000; 7000] "G1" 0]
       [Group.mk "G1" "Walkers" [1] 10000 0].
Proof.
  assert (Hcons : consistent ann_and_bob).
  { split; [split; repeat constructor|]. split.
    - intros g m [<- | []] [<- | []].
      exists (Individual.mk 1 "Ann" 30 5000 [6000; 7000] "G1" 150).
      simpl. auto.
    - intros x [<- | [<- | []]] Hcg; simpl in Hcg; [|now elim Hcg].
      exists (Group.mk "G1" "Walkers" [1] 10000 13000). simpl. auto. }
  assert (Hinc : forall g, In g (groups_tree ann_and_bob) ->
            StronglySorted Z.lt (Group.member_ids g)).
  { intros g [<- | []]. repeat constructor. }
  assert (Hiok : forallb Files.individual_ok (individuals_tree ann_and_bob) = true)
    by reflexivity.
  assert (Hgok : forallb Files.group_ok (groups_tree ann_and_bob) = true)
    by reflexivity.
  split; [exact Hcons|]. split; [exact Hinc|]. split; [exact Hiok|]. split; [exact Hgok|].
  exact (save_then_load ann_and_bob no_files Hcons Hinc Hiok Hgok).
Defined.

(** The lines that are written for Ann, Bob and their group. *)
Example saved_lines :
  Files.data_lines (Files.individuals_text (individuals_tree ann_and_bob))
  = ["1,Ann,30,5000,6000,7000"; "2,Bob,41,8000"]%string /\
  Files.data_lines (Files.groups_text (groups_tree ann_and_bob))
  = ["G1,Walkers,1,10000"]%string.
Proof. split; reflexivity. Qed.

(** What [_load_data] does not check: the limit of [MAX_MEMBERS] members
    and the existence of the members.  Both groups are loaded as written. *)
Example load_ignores_member_cap :
  let app := Files.new (Files._save_data true true six_in_a_group no_files) in
  app = mk [member 1 6000 "G1"] (groups_tree six_in_a_group) /\
  ~ members_tidy app /\ ~ members_point_back app.
Proof.
  assert (Heq : Files.new (Files._save_data true true six_in_a_group no_files)
                = mk [member 1 6000 "G1"] (groups_tree six_in_a_group))
    by (vm_compute; reflexivity).
  cbv zeta. rewrite Heq. split; [reflexivity|]. split.
  - intros H.
    destruct (H (Group.mk "G1" "Crowd" [1; 2; 3; 4; 5; 6] 10000 0)) as [_ Hlen];
      [now left|].
    simpl in Hlen. unfold Group.MAX_MEMBERS in Hlen. lia.
  - intros H.
    destruct (H (Group.mk "G2" "Ghost" [9] 10 0) 9) as (x & Hx & Hid & _);
      [right; now left | now left |].
    destruct Hx as [<- | []]. discriminate.
Qed.

(* ================================================================= *)
(** ** The report on a range of group ids *)

Lemma swo_by_key {A K : Type} (comp : K -> K -> bool) (f : A -> K) :
  strict_weak_order comp -> strict_weak_order (fun a b => comp (f a) (f b)).
Proof.
  intros (Hirr & Htrans & Hco). repeat split.
  - intros a. apply Hirr.
  - intros a b c. apply Htrans.
  - intros a b c. apply Hco.
Qed.

Lemma StronglySorted_app {A : Type} (R : A -> A -> Prop) (l1 l2 : list A) :
  StronglySorted R l1 -> StronglySorted R l2 ->
  (forall x y, In x l1 -> In y l2 -> R x y) ->
  StronglySorted R (l1 ++ l2).
Proof.
  induction 1 as [|x l1 Hl1 IH Hx]; intros H2 Hcross; simpl; [exact H2|].
  constructor.
  - apply IH; [exact H2|]. intros a b Ha Hb. apply Hcross; [now right | exact Hb].
  - apply Forall_app. split; [exact Hx|].
    apply Forall_forall. intros y Hy. apply Hcross; [now left | exact Hy].
Qed.

Lemma StronglySorted_flat_map {A B : Type} (R : A -> A -> Prop) (R' : B -> B -> Prop)
    (f : A -> list B) (l : list A) :
  (forall a, StronglySorted R' (f a)) ->
  (forall a b x y, R a b -> In x (f a) -> In y (f b) -> R' x y) ->
  StronglySorted R l -> StronglySorted R' (flat_map f l).
Proof.
  intros Hone Hrel. induction 1 as [|a l Hl IH Ha]; simpl; [constructor|].
  apply StronglySorted_app; [apply Hone | exact IH|].
  intros x y Hx Hy. apply in_flat_map in Hy. destruct Hy as (b & Hb & Hy).
  rewrite Forall_forall in Ha. exact (Hrel a b x y (Ha b Hb) Hx Hy).
Qed.

Lemma nth_error_same_fields (copy grps : list Group.t) (p : nat) :
  map without_total copy = map without_total grps ->
  match nth_error copy p, nth_error grps p with
  | Some g', Some g => without_total g' = without_total g
  | None, None => True
  | _, _ => False
  end.
Proof.
  intros Hmap.
  assert (H : nth_error (map without_total copy) p = nth_error (map without_total grps) p)
    by now rewrite Hmap.
  rewrite !nth_error_map in H.
  destruct (nth_error copy p), (nth_error grps p); cbn [option_map] in H;
    first [discriminate | exact I | congruence].
Qed.

Lemma total_same_fields inds (g' g : Group.t) :
  without_total g' = without_total g ->
  total_group_steps inds g' = total_group_steps inds g.
Proof.
  intros H. unfold total_group_steps.
  assert (Hm : Group.member_ids g' = Group.member_ids g)
    by exact (f_equal Group.member_ids H).
  now rewrite Hm.
Qed.

Lemma range_row_same_fields inds (g' g : Group.t) steps :
  without_total g' = without_total g ->
  Report.range_row_of inds g' steps = Report.range_row_of inds g steps.
Proof.
  intros H. destruct g', g. unfold without_total in H. simpl in H.
  injection H as -> -> -> ->. reflexivity.
Qed.

(** The loop over the pointers changes nothing but the stored totals of
    the copy, and pushes the total of every group it is pointed to. *)
Lemma fold_add_range_total inds (grps : list Group.t) : forall ptrs copy acc,
  map without_total copy = map without_total grps ->
  map without_total (fst (fold_left (Report.add_range_total inds) ptrs (copy, acc)))
  = map without_total grps /\
  snd (fold_left (Report.add_range_total inds) ptrs (copy, acc))
  = acc ++ flat_map (fun p => match nth_error grps p with
                              | Some g => [(p, total_group_steps inds g)]
                              | None => []
                              end) ptrs.
Proof.
  induction ptrs as [|p ptrs IH]; intros copy acc Hmap.
  - simpl. now rewrite app_nil_r.
  - cbn [fold_left flat_map].
    change (Report.add_range_total inds (copy, acc) p) with
      (match nth_error copy p with
       | Some group =>
           (update_at p (Group.set_total_weekly_steps (total_group_steps inds group)) copy,
            acc ++ [(p, total_group_steps inds group)])
       | None => (copy, acc)
       end).
    pose proof (nth_error_same_fields copy grps p Hmap) as Hp.
    destruct (nth_error copy p) as [g'|], (nth_error grps p) as [g|]; try contradiction.
    + destruct (IH (update_at p (Group.set_total_weekly_steps (total_group_steps inds g')) copy)
                   (acc ++ [(p, total_group_steps inds g')])) as [H1 H2].
      { rewrite map_update_at_same; [exact Hmap | reflexivity]. }
      split; [exact H1|].
      rewrite H2, (total_same_fields inds g' g Hp), <- app_assoc. reflexivity.
    + now apply IH.
Qed.

Lemma flat_map_pointers_where {A B : Type} (test : A -> bool) (f : A -> B) (l : list A) :
  forall prefix,
    flat_map (fun p => match nth_error (prefix ++ l) p with
                       | Some x => [f x]
                       | None => []
                       end)
      (pointers_where test (length prefix) l)
    = map f (filter test l).
Proof.
  induction l as [|x l IH]; intros prefix; [reflexivity|].
  cbn [pointers_where filter].
  specialize (IH (prefix ++ [x])).
  rewrite <- app_assoc, length_app, Nat.add_1_r in IH. cbn [app] in IH.
  destruct (test x); [|exact IH].
  cbn [flat_map map]. rewrite IH.
  rewrite nth_error_app2 by lia. now rewrite Nat.sub_diag.
Qed.

Lemma flat_map_flat_map {A B C : Type} (f : A -> list B) (g : B -> list C) (l : list A) :
  flat_map g (flat_map f l) = flat_map (fun a => flat_map g (f a)) l.
Proof.
  induction l as [|a l IH]; simpl; [reflexivity|].
  now rewrite flat_map_app, IH.
Qed.

(** X23. With any [std::sort] that keeps the promise of the standard,
    [display_group_range_info] shows exactly the stored groups whose id is
    neither below [start_group_id] nor above [end_group_id], each once, with
    its id, name and goal, the sum of the steps of its members and the
    names of the members that are stored; the groups come in non-increasing
    order of that sum.  Nothing is shown exactly when no group is in the
    range. *)
Theorem range_report_ranking sort start_group_id end_group_id app :
  std_sort_contract sort ->
  let rows := Report.display_group_range_info sort start_group_id end_group_id app in
  let inds := individuals_tree app in
  let shown := filter (Report.in_id_range start_group_id end_group_id) (groups_tree app) in
  Permutation rows
    (map (fun g => Report.range_row_of inds g (total_group_steps inds g)) shown) /\
  StronglySorted (fun a b => Report.row_steps b <= Report.row_steps a) rows /\
  (rows = [] <-> shown = []).
Proof.
  intros [Hsort _] rows inds shown.
  destruct app as [inds' grps]. cbn [individuals_tree groups_tree] in *. subst inds.
  set (by_id := fun a b : nat =>
         String.ltb (Report.group_id_at grps a) (Report.group_id_at grps b)).
  set (ptrs0 := pointers_where (Report.in_id_range start_group_id end_group_id) 0%nat grps).
  destruct (Hsort nat by_id ptrs0 (swo_by_key String.ltb _ string_ltb_swo))
    as [Hperm1 _].
  set (ptrs := sort nat by_id ptrs0) in *.
  set (row := fun g => Report.range_row_of inds' g (total_group_steps inds' g)).
  set (shows := fun p => match nth_error grps p with
                         | Some g => [row g]
                         | None => []
                         end).
  assert (Hshown : flat_map shows ptrs0 = map row shown).
  { exact (flat_map_pointers_where _ row grps []). }
  assert (Hrows : Permutation rows (flat_map shows ptrs) /\
                  StronglySorted (fun a b => Report.row_steps b <= Report.row_steps a) rows).
  { subst rows. unfold Report.display_group_range_info.
    cbn [individuals_tree groups_tree]. fold ptrs0. fold by_id. fold ptrs.
    destruct ptrs as [|p0 ptrs'] eqn:Hptrs; [split; [reflexivity | constructor]|].
    rewrite <- Hptrs. clear Hptrs.
    destruct (fold_add_range_total inds' grps ptrs grps [] eq_refl) as [Hcopy Hacc].
    set (state := fold_left (Report.add_range_total inds') ptrs (grps, [])) in *.
    cbn [app] in Hacc.
    assert (Hswo : strict_weak_order (fun a b : nat * Z => snd b <? snd a))
      by apply (more_of_swo (@snd nat Z)).
    destruct (Hsort (nat * Z)%type (fun a b => snd b <? snd a) (snd state) Hswo)
      as [Hperm2 Hsorted].
    set (ranked := sort (nat * Z)%type (fun a b => snd b <? snd a) (snd state)) in *.
    set (shows' := fun entry : nat * Z =>
           match nth_error (fst state) (fst entry) with
           | Some group => [Report.range_row_of inds' group (snd entry)]
           | None => []
           end).
    split.
    - transitivity (flat_map shows' (snd state)).
      + apply Permutation_flat_map. now apply Permutation_sym.
      + rewrite Hacc, flat_map_flat_map.
        erewrite flat_map_ext; [reflexivity|].
        intros p. subst shows' shows. cbn beta.
        pose proof (nth_error_same_fields (fst state) grps p Hcopy) as Hp.
        destruct (nth_error grps p) as [g|]; [|reflexivity].
        cbn [flat_map fst snd app].
        destruct (nth_error (fst state) p) as [g'|]; [|contradiction].
        subst row. cbn beta. now rewrite (range_row_same_fields inds' g' g _ Hp).
    - apply (StronglySorted_flat_map (fun a b : nat * Z => snd b <= snd a)).
      + intros entry. subst shows'. cbn beta.
        destruct (nth_error (fst state) (fst entry)); repeat constructor.
      + intros a b x y Hab Hx Hy. subst shows'. cbn beta in Hx, Hy.
        destruct (nth_error (fst state) (fst a)); [|contradiction].
        destruct (nth_error (fst state) (fst b)); [|contradiction].
        destruct Hx as [<- | []]. destruct Hy as [<- | []]. exact Hab.
      + unfold sorted_under in Hsorted. clear -Hsorted.
        induction Hsorted as [|a l Hs IH Hall]; constructor; auto.
        eapply Forall_impl; [|exact Hall]. intros b Hb. simpl in Hb.
        now apply Z.ltb_ge in Hb. }
  destruct Hrows as [Hperm Hsorted].
  assert (Hall : Permutation rows (map row shown)).
  { rewrite <- Hshown. transitivity (flat_map shows ptrs); [exact Hperm|].
    apply Permutation_flat_map. now apply Permutation_sym. }
  split; [exact Hall|]. split; [exact Hsorted|].
  split.
  - intros Hnil. rewrite Hnil in Hall. apply Permutation_nil in Hall.
    now apply map_eq_nil in Hall.
  - intros Hnil. rewrite Hnil in Hall. apply Permutation_sym, Permutation_nil in Hall.
    exact Hall.
Qed.

Lemma range_report_ranking_witness :
  std_sort_contract insertion_sort /\
  StronglySorted (fun a b => Report.row_steps b <= Report.row_steps a)
    (Report.display_group_range_info insertion_sort "G1" "G2" two_small_groups).
Proof.
  split; [exact insertion_sort_contract|].
  destruct (range_report_ranking insertion_sort "G1" "G2" two_small_groups
              insertion_sort_contract) as (_ & Hsorted & _).
  exact Hsorted.
Defined.

(** The report on G1 to G2 with the sort of libstdc++; both bounds are in
    the range, and a range below all ids shows nothing. *)
Example range_report_of_two_groups :
  Report.display_group_range_info Libstdcxx.sort "G1" "G2" two_small_groups
  = [Report.mk_row "G1" "Walkers" 30000 49000 ["User (ID: 1)"; "User (ID: 2)"]%string;
     Report.mk_row "G2" "Runners" 20000 48000 ["User (ID: 3)"; "User (ID: 4)"]%string] /\
  Report.display_group_range_info Libstdcxx.sort "G2" "G9" two_small_groups
  = [Report.mk_row "G2" "Runners" 20000 48000 ["User (ID: 3)"; "User (ID: 4)"]%string] /\
  Report.display_group_range_info Libstdcxx.sort "A" "B" two_small_groups = [].
Proof. repeat split. Qed.

(* ================================================================= *)
(** ** Operations, then a restart *)

Lemma forallb_update_at {A} (ok : A -> bool) (f : A -> A) (l : list A) (p : nat) :
  (forall x, ok x = true -> ok (f x) = true) ->
  forallb ok l = true -> forallb ok (update_at p f l) = true.
Proof.
  intros Hf Hl. apply forallb_forall. intros y Hy.
  rewrite forallb_forall in Hl.
  apply In_update_at in Hy. destruct Hy as [Hy | (x & Hx & ->)]; auto.
Qed.

Lemma forallb_filter {A} (ok test : A -> bool) (l : list A) :
  forallb ok l = true -> forallb ok (filter test l) = true.
Proof.
  intros Hl. apply forallb_forall. intros y Hy. apply filter_In in Hy.
  rewrite forallb_forall in Hl. now apply Hl.
Qed.

Lemma assign_group_all_ok g mids : forall inds,
  forallb Files.individual_ok inds = true ->
  forallb Files.individual_ok (assign_group_all g mids inds) = true.
Proof.
  unfold assign_group_all.
  induction mids as [|m mids IH]; intros inds Hok; [exact Hok|].
  cbn [fold_left]. apply IH. unfold assign_group.
  destruct (ind_search inds m); [|exact Hok].
  apply forallb_update_at; [|exact Hok]. now intros [].
Qed.

Lemma group_ok_members (g g' : Group.t) :
  Group.group_id g' = Group.group_id g ->
  Group.group_name g' = Group.group_name g ->
  Group.weekly_group_goal g' = Group.weekly_group_goal g ->
  (forall m, In m (Group.member_ids g') -> In m (Group.member_ids g)) ->
  Files.group_ok g = true -> Files.group_ok g' = true.
Proof.
  intros Hid Hname Hgoal Hsub Hok.
  destruct (group_ok_spec g Hok) as (H1 & H2 & H3 & H4).
  unfold Files.group_ok. rewrite Hid, Hname, Hgoal, H1, H2, H4.
  rewrite andb_true_r. cbn [andb]. apply forallb_forall. intros m Hm.
  rewrite forallb_forall in H3. now apply H3, Hsub.
Qed.

Lemma delete_group_storable gid app :
  storable app -> storable (snd (delete_group gid app)).
Proof.
  intros [Hi Hg].
  destruct (find_group (groups_tree app) gid) as [[p g]|] eqn:Hf.
  - rewrite (delete_group_found app gid p g Hf). split; cbn [snd individuals_tree groups_tree].
    + now apply assign_group_all_ok.
    + now apply forallb_filter.
  - rewrite (delete_group_not_found app gid Hf). now split.
Qed.

Lemma delete_individual_storable id app :
  storable app -> storable (snd (delete_individual id app)).
Proof.
  intros [Hi Hg].
  destruct (find_individual (individuals_tree app) id) as [[p x]|] eqn:Hf.
  - rewrite (delete_individual_found app id p x Hf).
    split; cbn [individuals_tree groups_tree].
    + now apply forallb_filter.
    + unfold leave_group. destruct (string_empty _); [exact Hg|].
      destruct (grp_search _ _); [|exact Hg].
      apply forallb_update_at; [|exact Hg].
      intros g Hok. apply (group_ok_members g); try reflexivity; [|exact Hok].
      intros m Hm. cbn in Hm. unfold vector_remove in Hm.
      apply filter_In in Hm. tauto.
  - unfold delete_individual. rewrite Hf. now split.
Qed.

Lemma add_person_storable id name age goal steps app :
  Files.individual_ok (Individual.new id name age goal steps) = true ->
  storable app -> storable (snd (add_person id name age goal steps app)).
Proof.
  intros Hnew [Hi Hg]. unfold add_person.
  destruct (ind_search (individuals_tree app) id); [now split|].
  split; cbn [snd individuals_tree groups_tree]; [|exact Hg].
  apply forallb_forall. intros y Hy. apply TreeFacts.insert_In in Hy.
  destruct Hy as [-> | Hy]; [exact Hnew|].
  rewrite forallb_forall in Hi. now apply Hi.
Qed.

(** A new group whose members are members of stored groups or ids of
    stored individuals can be stored. *)
Lemma install_group_storable inds grps gid gname mids goal :
  storable (mk inds grps) ->
  Files.field_ok gid = true -> Files.field_ok gname = true -> Files.is_int goal = true ->
  (forall m, In m mids -> Files.is_int m = true) ->
  storable (mk (assign_group_all gid mids inds)
               (grp_insert grps (Group.new gid gname mids goal))).
Proof.
  intros [Hi Hg] Hid Hname Hgoal Hmids. cbn [individuals_tree groups_tree] in *.
  split; cbn [individuals_tree groups_tree].
  - now apply assign_group_all_ok.
  - apply forallb_forall. intros g Hin. apply TreeFacts.insert_In in Hin.
    destruct Hin as [-> | Hin].
    + unfold Files.group_ok. cbn [Group.new Group.group_id Group.group_name
        Group.weekly_group_goal Group.member_ids].
      rewrite Hid, Hname, Hgoal, andb_true_r. cbn [andb].
      apply forallb_forall. intros m Hm. apply Hmids.
      now apply (Group_new_members gid gname mids goal m).
    + rewrite forallb_forall in Hg. now apply Hg.
Qed.

Lemma create_group_storable gid gname mids goal app :
  Files.field_ok gid = true -> Files.field_ok gname = true -> Files.is_int goal = true ->
  storable app -> storable (snd (create_group gid gname mids goal app)).
Proof.
  intros Hid Hname Hgoal Hst. unfold create_group.
  destruct (grp_search (groups_tree app) gid); [exact Hst|].
  destruct (Group.MAX_MEMBERS <? length mids)%nat; [exact Hst|].
  destruct (filter (valid_candidate (individuals_tree app)) mids) as [|m l] eqn:Hf;
    [exact Hst|].
  cbn [snd]. destruct app as [inds grps]. cbn [individuals_tree groups_tree] in *.
  apply install_group_storable; try assumption.
  intros m' Hm'. rewrite <- Hf in Hm'. apply filter_In in Hm'. destruct Hm' as [_ Hv].
  destruct (valid_candidate_spec _ _ Hv) as (x & Hx & <- & _).
  destruct Hst as [Hi _]. cbn [individuals_tree] in Hi.
  rewrite forallb_forall in Hi. now destruct (individual_ok_spec x (Hi x Hx)).
Qed.

Lemma merge_groups_storable g1 g2 gname goal app :
  Files.field_ok gname = true -> Files.is_int goal = true ->
  storable app -> storable (snd (merge_groups g1 g2 gname goal app)).
Proof.
  intros Hname Hgoal Hst. unfold merge_groups.
  destruct (find_group (groups_tree app) g1) as [[p1 group1]|] eqn:Hf1; [|exact Hst].
  destruct (find_group (groups_tree app) g2) as [[p2 group2]|] eqn:Hf2; [|exact Hst].
  destruct (Group.MAX_MEMBERS <? length (merged_member_set group1 group2))%nat;
    [exact Hst|].
  pose proof (delete_group_storable g1 app Hst) as Hst1.
  destruct (delete_group g1 app) as [deleted1 app1]. cbn [snd] in Hst1.
  destruct deleted1; cbn [negb]; [|exact Hst1].
  pose proof (delete_group_storable g2 app1 Hst1) as Hst2.
  destruct (delete_group g2 app1) as [deleted2 app2]. cbn [snd] in Hst2.
  destruct deleted2; cbn [negb]; [|exact Hst2].
  cbn [snd]. destruct app2 as [inds2 grps2]. cbn [individuals_tree groups_tree].
  apply AppFacts.find_group_Some_inv in Hf1. destruct Hf1 as (_ & Hn1 & Hid1).
  apply AppFacts.find_group_Some_inv in Hf2. destruct Hf2 as (_ & Hn2 & _).
  apply nth_error_In in Hn1. apply nth_error_In in Hn2.
  destruct Hst as [_ Hg]. rewrite forallb_forall in Hg.
  destruct (group_ok_spec _ (Hg _ Hn1)) as (Hok1 & _ & Hm1 & _).
  destruct (group_ok_spec _ (Hg _ Hn2)) as (_ & _ & Hm2 & _).
  rewrite forallb_forall in Hm1, Hm2.
  apply install_group_storable; try assumption; [now rewrite <- Hid1|].
  intros m Hm. apply merged_member_set_In in Hm. destruct Hm; auto.
Qed.

Lemma run_storable op app :
  operation_ok op = true -> storable app -> storable (run op app).
Proof.
  destruct op as [id name age goal steps | gid gname mids goal | id | gid
                 | g1 g2 gname goal]; cbn [operation_ok run]; intros Hop Hst.
  - now apply add_person_storable.
  - apply andb_true_iff in Hop. destruct Hop as [Hop Hgoal].
    apply andb_true_iff in Hop. destruct Hop as [Hid Hname].
    now apply create_group_storable.
  - now apply delete_individual_storable.
  - now apply delete_group_storable.
  - apply andb_true_iff in Hop. destruct Hop as [Hname Hgoal].
    now apply merge_groups_storable.
Qed.

Lemma run_all_storable ops : forall app,
  forallb operation_ok ops = true -> storable app -> storable (run_all ops app).
Proof.
  unfold run_all. induction ops as [|op ops IH]; intros app Hops Hst; [exact Hst|].
  cbn [forallb] in Hops. apply andb_true_iff in Hops. destruct Hops as [Hop Hops].
  cbn [fold_left]. apply IH; [exact Hops|]. now apply run_storable.
Qed.

Lemma run_all_tidy ops : forall app, members_tidy app -> members_tidy (run_all ops app).
Proof.
  unfold run_all. induction ops as [|op ops IH]; intros app Ht; [exact Ht|].
  cbn [fold_left]. apply IH. now apply run_tidy.
Qed.

(** X24. Restarting after any sequence of operations.  Start from a sound
    state with tidy member lists in which every name and group id is free
    of commas and newlines and every number is an [int], and run any
    operations that bring in only such names and numbers and create no
    group under the empty id.  If the state is then saved, as every
    successful operation does, the constructor rebuilds it from the files
    up to the points and the stored totals, which are zero again, and
    without the individuals that have no step count. *)
Theorem restart_after_operations ops app d :
  sound app -> members_tidy app -> storable app ->
  Forall names_its_group ops -> forallb operation_ok ops = true ->
  let app' := run_all ops app in
  storable app' /\
  Files.new (Files._save_data true true app' d)
  = mk (map without_points (filter Files.has_steps (individuals_tree app')))
       (map without_total (groups_tree app')).
Proof.
  intros Hsound Htidy Hst Hnames Hops app'.
  assert (Hst' : storable app') by now apply run_all_storable.
  split; [exact Hst'|].
  destruct (run_all_sound ops app Hnames Hsound) as [Hcons _].
  apply load_saved_state; [exact Hcons | | exact Hst'].
  intros g Hg. now apply (run_all_tidy ops app Htidy g).
Qed.

Lemma restart_after_operations_witness :
  let ops := [AddPerson 7 "Eve" 25 4000 []; CreateGroup "A" "Early" [3; 1; 7] 10;
              DeleteIndividual 1] in
  sound six_people /\ members_tidy six_people /\ storable six_people /\
  Forall names_its_group ops /\ forallb operation_ok ops = true /\
  Files.new (Files._save_data true true (run_all ops six_people) no_files)
  = mk (map without_points
          (filter Files.has_steps (individuals_tree (run_all ops six_people))))
       (map without_total (groups_tree (run_all ops six_people))).
Proof.
  intros ops.
  assert (Hsound : sound six_people).
  { split; [split; [split; repeat constructor | split]|].
    - intros g m [].
    - intros x [<- | [<- | [<- | [<- | [<- | [<- | []]]]]]] Hcg; now elim Hcg.
    - intros g []. }
  assert (Htidy : members_tidy six_people) by (intros g []).
  assert (Hst : storable six_people) by (split; reflexivity).
  assert (Hnames : Forall names_its_group ops).
  { repeat constructor. discriminate. }
  assert (Hops : forallb operation_ok ops = true) by reflexivity.
  split; [exact Hsound|]. split; [exact Htidy|]. split; [exact Hst|].
  split; [exact Hnames|]. split; [exact Hops|].
  destruct (restart_after_operations ops six_people no_files Hsound Htidy Hst Hnames Hops)
    as [_ Hback].
  exact Hback.
Defined.

(** Eve has no step count yet: she is in group A and in the files, but
    after a restart she is gone and the group still lists her. *)
Example restart_loses_individual_without_steps :
  let app := run_all [AddPerson 7 "Eve" 25 4000 []; CreateGroup "A" "Early" [3; 1; 7] 10]
               six_people in
  let app' := Files.new (Files._save_data true true app no_files) in
  find_individual (individuals_tree app) 7
  = Some (6%nat, Individual.mk 7 "Eve" 25 4000 [] "A" 0) /\
  find_individual (individuals_tree app') 7 = None /\
  option_map (fun pg => Group.member_ids (snd pg)) (find_group (groups_tree app') "A")
  = Some [1; 3; 7] /\
  ~ members_point_back app'.
Proof.
  cbv zeta. repeat split.
  intros H.
  destruct (H (Group.mk "A" "Early" [1; 3; 7] 10 0) 7) as (x & Hx & Hid & _).
  - vm_compute. now left.
  - right. right. now left.
  - vm_compute in Hx.
    repeat (destruct Hx as [<- | Hx]; [discriminate|]). exact Hx.
Qed.

(* ================================================================= *)
(** ** The order of insertions *)

(** A store sorted by key is determined by its elements. *)
Lemma sorted_same_members {E K : Type} (comp : K -> K -> bool) (key : E -> K) :
  strict_weak_order comp ->
  forall l1 l2,
    T.sorted_by_key comp key l1 -> T.sorted_by_key comp key l2 ->
    (forall x, In x l1 <-> In x l2) -> l1 = l2.
Proof.
  intros Hswo. pose proof Hswo as (Hirr & _).
  assert (Hself : forall a l, T.sorted_by_key comp key (a :: l) -> ~ In a l).
  { intros a l Hs Hin. inversion Hs as [|? ? _ Hall]; subst.
    rewrite Forall_forall in Hall. specialize (Hall a Hin). now rewrite Hirr in Hall. }
  induction l1 as [|a l1 IH]; intros l2 Hs1 Hs2 Hsame.
  - destruct l2 as [|b l2]; [reflexivity|]. exfalso. apply (Hsame b). now left.
  - destruct l2 as [|b l2]; [exfalso; apply (Hsame a); now left|].
    pose proof Hs1 as Hs1'. pose proof Hs2 as Hs2'.
    inversion Hs1 as [|? ? Ht1 Hall1]; inversion Hs2 as [|? ? Ht2 Hall2]; subst.
    rewrite Forall_forall in Hall1, Hall2.
    assert (Hab : a = b).
    { destruct (proj1 (Hsame a) (or_introl eq_refl)) as [Hba | Ha]; [now symmetry|].
      destruct (proj2 (Hsame b) (or_introl eq_refl)) as [Hab | Hb]; [exact Hab|].
      pose proof (Hall2 a Ha) as H1. pose proof (Hall1 b Hb) as H2.
      rewrite (swo_asym comp _ _ Hswo H1) in H2. discriminate. }
    subst b. f_equal. apply IH; [exact Ht1 | exact Ht2|].
    intros x. split; intros Hx.
    + destruct (proj1 (Hsame x) (or_intror Hx)) as [-> | Hx']; [|exact Hx'].
      now elim (Hself x l1 Hs1').
    + destruct (proj2 (Hsame x) (or_intror Hx)) as [-> | Hx']; [|exact Hx'].
      now elim (Hself x l2 Hs2').
Qed.

Lemma insert_members {E K : Type} (comp : K -> K -> bool) (key : E -> K)
    (data : list E) (item : E) :
  strict_weak_order comp -> T.sorted_by_key comp key data ->
  (forall y, In y data -> T.equiv_keys comp (key item) (key y) = false) ->
  forall x, In x (T.insert comp key data item) <-> x = item \/ In x data.
Proof.
  intros Hswo Hs Hfree x. split.
  - apply TreeFacts.insert_In.
  - intros [-> | Hx].
    + now apply TreeFacts.In_insert_new.
    + now apply TreeFacts.In_insert_old.
Qed.

Lemma equiv_keys_sym {K : Type} (comp : K -> K -> bool) (a b : K) :
  T.equiv_keys comp a b = T.equiv_keys comp b a.
Proof. unfold T.equiv_keys. apply andb_comm. Qed.

(** X25. Two insertions into a store sorted by key.  When the keys of the
    two items are not equivalent the result is the same in either order;
    when they are equivalent the item inserted first stays and the second
    insertion changes nothing. *)
Theorem insert_twice {E K : Type} (comp : K -> K -> bool) (key : E -> K)
    (data : list E) (a b : E) :
  strict_weak_order comp ->
  T.sorted_by_key comp key data ->
  (T.equiv_keys comp (key a) (key b) = false ->
   T.insert comp key (T.insert comp key data a) b
   = T.insert comp key (T.insert comp key data b) a) /\
  (T.equiv_keys comp (key a) (key b) = true ->
   T.insert comp key (T.insert comp key data a) b = T.insert comp key data a).
Proof.
  intros Hswo Hs.
  assert (Htaken : forall d i, T.sorted_by_key comp key d ->
            T.search comp key d (key i) <> None -> T.insert comp key d i = d).
  { intros d i Hd Hsearch.
    destruct (T.search comp key d (key i)) as [p|] eqn:Hp; [|congruence].
    apply TreeFacts.search_Some_inv in Hp. destruct Hp as (x & Hx & He).
    apply TreeFacts.insert_present; [exact Hswo | exact Hd|].
    exists x. split; [now apply nth_error_In in Hx | exact He]. }
  assert (Hstays : forall d i j, T.sorted_by_key comp key d ->
            T.search comp key d (key i) <> None ->
            T.search comp key (T.insert comp key d j) (key i) <> None).
  { intros d i j Hd Hsearch.
    destruct (T.search comp key d (key i)) as [p|] eqn:Hp; [|congruence].
    apply TreeFacts.search_Some_inv in Hp. destruct Hp as (x & Hx & He).
    apply nth_error_In in Hx. apply (TreeFacts.In_insert_old comp key d j) in Hx.
    apply In_nth_error in Hx. destruct Hx as [q Hq].
    rewrite (TreeFacts.search_complete comp key Hswo _ _ q x); [discriminate | | exact Hq | exact He].
    now apply TreeFacts.insert_sorted. }
  split.
  - intros Hne.
    destruct (T.search comp key data (key a)) as [pa|] eqn:Ha.
    { rewrite (Htaken data a Hs) by congruence.
      symmetry. apply Htaken; [now apply TreeFacts.insert_sorted|].
      apply Hstays; [exact Hs | congruence]. }
    destruct (T.search comp key data (key b)) as [pb|] eqn:Hb.
    { rewrite (Htaken data b Hs) by congruence.
      apply Htaken; [now apply TreeFacts.insert_sorted|].
      apply Hstays; [exact Hs | congruence]. }
    pose proof (TreeFacts.search_None_inv comp key Hswo data _ Hs Ha) as Hfa.
    pose proof (TreeFacts.search_None_inv comp key Hswo data _ Hs Hb) as Hfb.
    pose proof (insert_members comp key data a Hswo Hs Hfa) as Hma.
    pose proof (insert_members comp key data b Hswo Hs Hfb) as Hmb.
    assert (Hsa : T.sorted_by_key comp key (T.insert comp key data a))
      by now apply TreeFacts.insert_sorted.
    assert (Hsb : T.sorted_by_key comp key (T.insert comp key data b))
      by now apply TreeFacts.insert_sorted.
    assert (Hfb' : forall y, In y (T.insert comp key data a) ->
              T.equiv_keys comp (key b) (key y) = false).
    { intros y Hy. apply Hma in Hy. destruct Hy as [-> | Hy]; [|now apply Hfb].
      now rewrite equiv_keys_sym. }
    assert (Hfa' : forall y, In y (T.insert comp key data b) ->
              T.equiv_keys comp (key a) (key y) = false).
    { intros y Hy. apply Hmb in Hy. destruct Hy as [-> | Hy]; [exact Hne | now apply Hfa]. }
    apply (sorted_same_members comp key Hswo);
      [now apply TreeFacts.insert_sorted | now apply TreeFacts.insert_sorted|].
    intros x.
    rewrite (insert_members comp key _ b Hswo Hsa Hfb' x).
    rewrite (insert_members comp key _ a Hswo Hsb Hfa' x).
    rewrite (Hma x), (Hmb x). tauto.
  - intros Heq.
    apply TreeFacts.insert_present; [exact Hswo | now apply TreeFacts.insert_sorted|].
    destruct (T.search comp key data (key a)) as [pa|] eqn:Ha.
    + rewrite (Htaken data a Hs) by congruence.
      apply TreeFacts.search_Some_inv in Ha. destruct Ha as (x & Hx & He).
      exists x. split; [now apply nth_error_In in Hx|].
      apply TreeFacts.equiv_spec in He. apply TreeFacts.equiv_spec in Heq.
      apply TreeFacts.equiv_spec. destruct Hswo as (_ & _ & Hco).
      destruct He as [He1 He2]. destruct Heq as [Hq1 Hq2].
      split.
      * destruct (comp (key b) (key x)) eqn:Hc; [|reflexivity].
        destruct (Hco _ (key a) _ Hc); congruence.
      * destruct (comp (key x) (key b)) eqn:Hc; [|reflexivity].
        destruct (Hco _ (key a) _ Hc); congruence.
    + exists a. split; [|now rewrite equiv_keys_sym].
      apply TreeFacts.In_insert_new; [exact Hswo | exact Hs|].
      now apply (TreeFacts.search_None_inv comp key Hswo data _ Hs Ha).
Qed.

Lemma insert_twice_witness :
  strict_weak_order Z.ltb /\
  T.sorted_by_key Z.ltb (fun x : Z => x) [1; 3] /\
  T.equiv_keys Z.ltb 5 2 = false /\
  T.insert Z.ltb (fun x : Z => x) (T.insert Z.ltb (fun x : Z => x) [1; 3] 5) 2
  = T.insert Z.ltb (fun x : Z => x) (T.insert Z.ltb (fun x : Z => x) [1; 3] 2) 5.
Proof.
  assert (Hs : T.sorted_by_key Z.ltb (fun x : Z => x) [1; 3]) by (repeat constructor).
  split; [exact Z_ltb_swo|]. split; [exact Hs|]. split; [reflexivity|].
  destruct (insert_twice Z.ltb (fun x : Z => x) [1; 3] 5 2 Z_ltb_swo Hs) as [Hne _].
  exact (Hne eq_refl).
Defined.

(* ================================================================= *)
(** ** The constructor of [Group] *)

(** X26. The constructor of [Group] puts the member ids in normal form:
    whatever list it is given, the member list of the new group is strictly
    increasing, so free of duplicates, holds exactly the ids of the given
    list and is not longer; the stored total is zero.  Constructing a group
    again from the member list of a group leaves the list as it is.  The
    limit of [MAX_MEMBERS] is not checked here. *)
Theorem Group_constructor_normal_form gid gname mids goal :
  let g := Group.new gid gname mids goal in
  StronglySorted Z.lt (Group.member_ids g) /\
  NoDup (Group.member_ids g) /\
  (forall m, In m (Group.member_ids g) <-> In m mids) /\
  (length (Group.member_ids g) <= length mids)%nat /\
  Group.total_weekly_steps g = 0 /\
  Group.new gid gname (Group.member_ids g) goal = g.
Proof.
  intros g.
  assert (Hinc : StronglySorted Z.lt (Group.member_ids g))
    by (apply unique_sorted, sort_ints_sorted).
  split; [exact Hinc|]. split; [now apply increasing_NoDup|].
  split; [apply Group_new_members|]. split.
  - subst g. cbn [Group.new Group.member_ids].
    pose proof (unique_length (sort_ints mids)) as Hlen.
    now rewrite sort_ints_length in Hlen.
  - split; [reflexivity|]. now apply Group_new_increasing.
Qed.

Example Group_constructor_example :
  Group.member_ids (Group.new "G" "g" [7; 3; 7; 1; 3; 9; 8; 2] 0) = [1; 2; 3; 7; 8; 9].
Proof. reflexivity. Qed.
